(** * ipcalc: IP address arithmetic and wildcard masks

    A shallow embedding of the Go packages [ipcalc] (ipcalc.go) and
    [wildcard] (wildcard.go) of hazaelsan/ipcalc, and the properties
    of their specification.

    Conventions of the embedding:
    - a [byte] is a [Z] in [0, 256); arithmetic on bytes writes the
      wrap-around out ([mod 256]), the byte complement [^x] is
      [Z.lxor x 255];
    - [net.IP] and [net.IPMask] are [list Z]; Go's [nil] slice is the
      empty list (Go code of this repository only compares a slice with
      [nil] where a non-nil slice is non-empty);
    - an index out of range panics in Go: every function that indexes a
      slice returns an [option], [None] being the panic;
    - a loop [for i := n - 1; i >= 0; i--] is a [Fixpoint] on the number
      [i + 1] of iterations left, so that the body at counter [S i]
      works on index [i]. *)

From Stdlib Require Import ZArith Lia Bool List String Ascii.
From stdpp Require Import base option list.

Local Open Scope string_scope.
Local Open Scope list_scope.
Local Open Scope Z_scope.

(** ** Bytes *)

Definition is_byte (b : Z) : Prop := 0 <= b < 256.
Definition bytes (l : list Z) : Prop := Forall is_byte l.

(** [^b] on a [uint8]. *)
Definition byte_not (b : Z) : Z := Z.lxor b 255.

(** ** The parts of Go's [net] package the repository relies on *)

Module net.

Definition IPv4len : nat := 4.
Definition IPv6len : nat := 16.

Definition v4InV6Prefix : list Z := [0; 0; 0; 0; 0; 0; 0; 0; 0; 0; 255; 255].

Definition bytes_eqb (a b : list Z) : bool :=
  Nat.eqb (length a) (length b) && forallb (fun p => Z.eqb (fst p) (snd p)) (combine a b).

Definition isZeros (p : list Z) : bool := forallb (Z.eqb 0) p.

(** [ip.To4()]: the 4-byte form of an IPv4 address given on 4 bytes or as
    a 16-byte IPv4-mapped address, [None] (Go's [nil]) otherwise. *)
Definition To4 (ip : list Z) : option (list Z) :=
  if Nat.eqb (length ip) IPv4len then Some ip
  else if Nat.eqb (length ip) IPv6len
          && isZeros (take 10 ip)
          && bool_decide (ip !! 10%nat = Some 255)
          && bool_decide (ip !! 11%nat = Some 255)
       then Some (drop 12 ip)
       else None.

(** [ip.Equal(x)]: equality up to the IPv4-mapped form. *)
Definition Equal (ip x : list Z) : bool :=
  if Nat.eqb (length ip) (length x) then bytes_eqb ip x
  else if Nat.eqb (length ip) IPv4len && Nat.eqb (length x) IPv6len
       then bytes_eqb (take 12 x) v4InV6Prefix && bytes_eqb ip (drop 12 x)
  else if Nat.eqb (length ip) IPv6len && Nat.eqb (length x) IPv4len
       then bytes_eqb (take 12 ip) v4InV6Prefix && bytes_eqb (drop 12 ip) x
  else false.

(** The loop of [CIDRMask]: [l] bytes left to fill, [n] one-bits left. *)
Fixpoint CIDRMask_loop (l : nat) (n : Z) : list Z :=
  match l with
  | O => []
  | S l' =>
      if 8 <=? n then 255 :: CIDRMask_loop l' (n - 8)
      else byte_not (Z.shiftr 255 n) :: CIDRMask_loop l' 0
  end.

(** [net.CIDRMask(ones, bits)]; [nil] is []. *)
Definition CIDRMask (ones bits : Z) : list Z :=
  if negb (bits =? 8 * Z.of_nat IPv4len) && negb (bits =? 8 * Z.of_nat IPv6len) then []
  else if (ones <? 0) || (bits <? ones) then []
  else CIDRMask_loop (Z.to_nat (bits / 8)) ones.

(** [net.ParseError]. *)
Record ParseError := { Type_ : string; Text : string }.

(** [net.IPNet]: an address and a mask. *)
Record IPNet := { IP : list Z; Mask : list Z }.

Definition allFF (b : list Z) : bool := forallb (Z.eqb 255) b.

(** The method [ip.Mask(mask)]: the address ANDed with the mask, after
    bringing a 16-byte all-ones-prefixed mask or an IPv4-mapped address
    to 4 bytes when the other has 4; [[]] (Go's [nil]) when the lengths
    still differ. *)
Definition IP_Mask (ip mask : list Z) : list Z :=
  let mask := if Nat.eqb (length mask) IPv6len && Nat.eqb (length ip) IPv4len
                 && allFF (take 12 mask)
              then drop 12 mask else mask in
  let ip := if Nat.eqb (length mask) IPv4len && Nat.eqb (length ip) IPv6len
               && bytes_eqb (take 12 ip) v4InV6Prefix
            then drop 12 ip else ip in
  if negb (Nat.eqb (length ip) (length mask)) then []
  else zip_with Z.land ip mask.

(** [networkNumberAndMask]: address and mask of a network brought to one
    length, a pair of [nil] when that cannot be done. *)
Definition networkNumberAndMask (n : IPNet) : list Z * list Z :=
  let continue (ip : list Z) :=
    let m := Mask n in
    if Nat.eqb (length m) IPv4len then
      if negb (Nat.eqb (length ip) IPv4len) then ([], []) else (ip, m)
    else if Nat.eqb (length m) IPv6len then
      if Nat.eqb (length ip) IPv4len then (ip, drop 12 m) else (ip, m)
    else ([], []) in
  match To4 (IP n) with
  | Some ip => continue ip
  | None => if negb (Nat.eqb (length (IP n)) IPv6len) then ([], []) else continue (IP n)
  end.

(** The method [n.Contains(ip)] of [IPNet]. *)
Definition IPNet_Contains (n : IPNet) (ip : list Z) : bool :=
  let '(nn, m) := networkNumberAndMask n in
  let ip := match To4 ip with Some x => x | None => ip end in
  if negb (Nat.eqb (length ip) (length nn)) then false
  else forallb (fun p => Z.land (fst (fst p)) (snd p) =? Z.land (snd (fst p)) (snd p))
               (combine (combine nn ip) m).

End net.

(** ** The parts of Go's [strings] package the repository relies on *)

Module strings.

(** [strings.Split(s, sep)] for a separator [sep] of one byte: the
    substrings between the separators, never an empty slice. *)
Fixpoint Split (s : string) (sep : ascii) : list string :=
  match s with
  | EmptyString => [EmptyString]
  | String c s' =>
      if Ascii.eqb c sep then EmptyString :: Split s' sep
      else match Split s' sep with
           | x :: xs => String c x :: xs
           | [] => [String c EmptyString]
           end
  end.

(** [strings.Count(s, sep)] for a separator of one byte. *)
Fixpoint Count (s : string) (sep : ascii) : nat :=
  match s with
  | EmptyString => 0
  | String c s' => (if Ascii.eqb c sep then 1 else 0) + Count s' sep
  end.

(** [strings.HasPrefix(s, prefix)]. *)
Definition HasPrefix (s p : string) : bool := String.prefix p s.

(** The slice expression [s[n:]], for [n <= len(s)]. *)
Definition from (n : nat) (s : string) : string :=
  String.substring n (String.length s - n) s.

End strings.

(** ** Package ipcalc *)

Module ipcalc.
Import net.

Definition CopyIP (ip : list Z) : list Z := [] ++ ip.

Definition IP (ip : list Z) : list Z :=
  match To4 ip with
  | Some x => CopyIP x
  | None => CopyIP ip
  end.

Definition IPVersion (ip : list Z) : Z :=
  if Nat.eqb (length (IP ip)) IPv4len then 4 else 6.

Definition IPSize (ip : list Z) : nat :=
  if IPVersion ip =? 4 then IPv4len else IPv6len.

Definition Complement (mask : list Z) : list Z :=
  match mask with
  | [] => []
  | _ => map byte_not mask
  end.

(** The loop of [NextIP], which is also the inner loop of [Add]:
    increment byte [i - 1], go on leftwards while the byte wrapped to 0. *)
Fixpoint incr_loop (i : nat) (ip : list Z) : option (list Z) :=
  match i with
  | O => Some ip
  | S i' =>
      b ← ip !! i';
      let b' := (b + 1) mod 256 in
      let ip := <[i' := b']> ip in
      if negb (b' =? 0) then Some ip else incr_loop i' ip
  end.

(** The loop of [PrevIP], which is also the inner loop of [Substract]. *)
Fixpoint decr_loop (i : nat) (ip : list Z) : option (list Z) :=
  match i with
  | O => Some ip
  | S i' =>
      b ← ip !! i';
      let b' := (b - 1) mod 256 in
      let ip := <[i' := b']> ip in
      if negb (b' =? 255) then Some ip else decr_loop i' ip
  end.

Definition NextIP (ip : list Z) : option (list Z) :=
  let ip := IP ip in
  incr_loop (IPSize ip) ip.

Definition PrevIP (ip : list Z) : option (list Z) :=
  let ip := IP ip in
  decr_loop (IPSize ip) ip.

(** [Add]: step [S i] adds [b[i] & mask[i]] to [a[i]] and, when the byte
    overflowed and [i > 0], carries into the bytes on its left. *)
Fixpoint Add_loop (i : nat) (a b mask : list Z) : option (list Z) :=
  match i with
  | O => Some a
  | S i' =>
      prev ← a !! i';
      bi ← b !! i';
      mi ← mask !! i';
      let ai := (prev + Z.land bi mi) mod 256 in
      let a := <[i' := ai]> a in
      a ← (if (ai <? prev) && (0 <? i')%nat then incr_loop i' a else Some a);
      Add_loop i' a b mask
  end.

Definition Add (a b mask : list Z) : option (list Z) :=
  let a := IP a in
  let b := IP b in
  Add_loop (length mask) a b mask.

Fixpoint Substract_loop (i : nat) (a b mask : list Z) : option (list Z) :=
  match i with
  | O => Some a
  | S i' =>
      prev ← a !! i';
      bi ← b !! i';
      mi ← mask !! i';
      let ai := (prev - Z.land bi mi) mod 256 in
      let a := <[i' := ai]> a in
      a ← (if (prev <? ai) && (0 <? i')%nat then decr_loop i' a else Some a);
      Substract_loop i' a b mask
  end.

Definition Substract (a b mask : list Z) : option (list Z) :=
  let a := IP a in
  let b := IP b in
  Substract_loop (length mask) a b mask.

(** The loop [for i := 0; i < n; i++ { a[i] = a[i] op b[i] }] shared by
    [And], [Or] and [Xor]; [n] iterations are left, the next index is [i]. *)
Fixpoint bitwise_loop (op : Z -> Z -> Z) (n i : nat) (a b : list Z) : option (list Z) :=
  match n with
  | O => Some a
  | S n' =>
      ai ← a !! i;
      bi ← b !! i;
      bitwise_loop op n' (S i) (<[i := op ai bi]> a) b
  end.

Definition And (a b : list Z) : option (list Z) :=
  let a := IP a in
  let b := IP b in
  bitwise_loop Z.land (IPSize b) 0 a b.

Definition Or (a b : list Z) : option (list Z) :=
  let a := IP a in
  let b := IP b in
  bitwise_loop Z.lor (IPSize b) 0 a b.

Definition Xor (a b : list Z) : option (list Z) :=
  let a := IP a in
  let b := IP b in
  bitwise_loop Z.lxor (IPSize b) 0 a b.

(** [Merge]: [n] iterations are left, the next index is [i]; [ip] is
    the slice that [make] allocated, being filled. *)
Fixpoint Merge_loop (n i : nat) (a b mask ip : list Z) : option (list Z) :=
  match n with
  | O => Some ip
  | S n' =>
      ai ← a !! i;
      mi ← mask !! i;
      bi ← b !! i;
      Merge_loop n' (S i) a b mask (<[i := Z.lor (Z.ldiff ai mi) (Z.land bi mi)]> ip)
  end.

Definition Merge (a b mask : list Z) : option (list Z) :=
  let a := IP a in
  let b := IP b in
  let ip := replicate (length mask) 0 in
  Merge_loop (length mask) 0 a b mask ip.

Fixpoint Broadcast_loop (n i : nat) (nIP nMask ip : list Z) : option (list Z) :=
  match n with
  | O => Some ip
  | S n' =>
      x ← nIP !! i;
      m ← nMask !! i;
      Broadcast_loop n' (S i) nIP nMask (<[i := Z.lor x (byte_not m)]> ip)
  end.

Definition Broadcast (n : IPNet) : option (list Z) :=
  let ip := replicate (IPSize (net.IP n)) 0 in
  Broadcast_loop (IPSize (net.IP n)) 0 (net.IP n) (net.Mask n) ip.

Definition NextSubnet (n : IPNet) : option IPNet :=
  bc ← Broadcast n;
  ip ← NextIP bc;
  Some {| net.IP := ip; net.Mask := net.Mask n |}.

Definition PrevSubnet (n : IPNet) : option IPNet :=
  ip ← PrevIP (net.IP n);
  Some {| net.IP := IP_Mask ip (net.Mask n); net.Mask := net.Mask n |}.

(** [Contains]: [&&] does not evaluate [Broadcast(b)] when the first
    test fails. *)
Definition Contains (a b : IPNet) : option bool :=
  if IPNet_Contains a (net.IP b)
  then bc ← Broadcast b; Some (IPNet_Contains a bc)
  else Some false.

(** *** Parsing

    [net.ParseIP] and [strconv.Atoi] belong to Go's standard library:
    the parsing functions are stated over any two such functions.
    [ParseIP s] is the parsed address, [[]] for Go's [nil]; [Atoi s] is
    [Some n] when Go returns [n] with a [nil] error. *)

Inductive result (A : Type) : Type :=
  | Ok (a : A)
  | Error (e : ParseError).
Arguments Ok {A} a.
Arguments Error {A} e.

Section Parsing.
Variable ParseIP : string -> list Z.
Variable Atoi : string -> option Z.

Definition ParseMask (mask : string) : list Z := IP (ParseIP mask).

Definition ParseIPMask (addr : string) : result (list Z * list Z) :=
  let v := strings.Split addr "/" in
  let v0 := hd EmptyString v in
  let ip := ParseIP v0 in
  if bool_decide (ip = []) then Error {| Type_ := "IP address"; Text := v0 |}
  else if (2 <? length v)%nat then Error {| Type_ := "IP/Mask"; Text := addr |}
  else if (length v =? 2)%nat then
    let v1 := nth 1 v EmptyString in
    let size := Z.of_nat (IPSize ip) * 8 in
    let wildcard := strings.HasPrefix v1 "~" in
    let v1 := if wildcard then strings.from 1 v1 else v1 in
    let mask := match Atoi v1 with
                | Some bits => CIDRMask bits size
                | None => ParseMask v1
                end in
    let mask := if wildcard then Complement mask else mask in
    if bool_decide (mask = []) then Error {| Type_ := "Mask"; Text := v1 |}
    else Ok (ip, mask)
  else Ok (ip, []).

End Parsing.

End ipcalc.


(** ** Package wildcard *)

Module wildcard.

Record Wildcard := { ip : list Z; bits : list Z; mask : list Z }.

Definition New (ip wildcard : list Z) : option Wildcard :=
  let ip := ipcalc.IP ip in
  let mask := ipcalc.IP (ipcalc.Complement wildcard) in
  bits ← ipcalc.And ip mask;
  Some {| ip := ip; bits := bits; mask := mask |}.

(** The method [IP]. *)
Definition IP (w : Wildcard) : list Z := ip w.

(** The method [Wildcard]: the wildcard mask of [w]. *)
Definition WildcardMask (w : Wildcard) : list Z := ipcalc.Complement (mask w).

Definition Matches (w : Wildcard) (x : list Z) : option bool :=
  r ← ipcalc.And x (mask w);
  Some (net.Equal r (bits w)).

Definition First (w : Wildcard) : Wildcard :=
  {| ip := ipcalc.IP (bits w); bits := ipcalc.IP (bits w); mask := ipcalc.IP (mask w) |}.

Definition Last (w : Wildcard) : option Wildcard :=
  ip ← ipcalc.Or (bits w) (ipcalc.Complement (mask w));
  Some {| ip := ip; bits := ipcalc.IP (bits w); mask := ipcalc.IP (mask w) |}.

Definition bit (b : Z) (i : Z) : bool := Z.land (Z.shiftr b i) 1 =? 1.

(** The inner loop of [Next] on byte [i]: [n] iterations are left, the
    next bit is [j]. The result is the address and whether the function
    has returned. *)
Fixpoint Next_bits (n : nat) (j : Z) (i : nat) (mask ip : list Z) : option (list Z * bool) :=
  match n with
  | O => Some (ip, false)
  | S n' =>
      m ← mask !! i;
      if bit m j then Next_bits n' (j + 1) i mask ip
      else
        b ← ip !! i;
        if negb (bit b j) then Some (<[i := Z.lor b (Z.shiftl 1 j)]> ip, true)
        else Next_bits n' (j + 1) i mask (<[i := Z.land b (byte_not (Z.shiftl 1 j))]> ip)
  end.

Fixpoint Next_loop (i : nat) (mask ip : list Z) : option (list Z) :=
  match i with
  | O => Some ip
  | S i' =>
      '(ip, returned) ← Next_bits 8 0 i' mask ip;
      if returned : bool then Some ip else Next_loop i' mask ip
  end.

(** [Next] changes the current address of [w] in place and returns it:
    the result is the wildcard after the call and the address returned. *)
Definition Next (w : Wildcard) : option (Wildcard * list Z) :=
  ip ← Next_loop (ipcalc.IPSize (ip w)) (mask w) (ip w);
  Some ({| ip := ip; bits := bits w; mask := mask w |}, ip).

Fixpoint Prev_bits (n : nat) (j : Z) (i : nat) (mask ip : list Z) : option (list Z * bool) :=
  match n with
  | O => Some (ip, false)
  | S n' =>
      m ← mask !! i;
      if bit m j then Prev_bits n' (j + 1) i mask ip
      else
        b ← ip !! i;
        if bit b j then Some (<[i := Z.land b (byte_not (Z.shiftl 1 j))]> ip, true)
        else Prev_bits n' (j + 1) i mask (<[i := Z.lor b (Z.shiftl 1 j)]> ip)
  end.

Fixpoint Prev_loop (i : nat) (mask ip : list Z) : option (list Z) :=
  match i with
  | O => Some ip
  | S i' =>
      '(ip, returned) ← Prev_bits 8 0 i' mask ip;
      if returned : bool then Some ip else Prev_loop i' mask ip
  end.

Definition Prev (w : Wildcard) : option (Wildcard * list Z) :=
  ip ← Prev_loop (ipcalc.IPSize (ip w)) (mask w) (ip w);
  Some ({| ip := ip; bits := bits w; mask := mask w |}, ip).

Definition findWildcard (a b : list Z) : option (list Z * list Z) :=
  x ← ipcalc.And a b;
  y ← ipcalc.Xor a b;
  Some (x, y).

(** The [range] loop of [FindWildcard] over the extra addresses. *)
Fixpoint FindWildcard_loop (and_ xor_ : list Z) (extra : list (list Z)) : option (list Z * list Z) :=
  match extra with
  | [] => Some (and_, xor_)
  | ip :: extra' =>
      '(and_, xor_) ← findWildcard and_ ip;
      FindWildcard_loop and_ xor_ extra'
  end.

Definition FindWildcard (a b : list Z) (extra : list (list Z)) : option Wildcard :=
  '(and_, xor_) ← findWildcard a b;
  '(and_, xor_) ← FindWildcard_loop and_ xor_ extra;
  New and_ xor_.

End wildcard.

Import net ipcalc.

(** ** An instance of the standard-library parsers

    [ParseIPMask] is stated over any [ParseIP] and [Atoi]. To run it on
    the IPv4 examples of the repository, [text.ParseIP] reads
    dotted-decimal IPv4 text into the 16-byte IPv4-mapped form, as Go's
    [net.ParseIP] does (Go's also reads IPv6 text, this one does not), and
    [text.Atoi] reads a signed decimal [int]. *)

Module text.

Definition digit (c : ascii) : option Z :=
  let n := Z.of_N (N_of_ascii c) in
  if (48 <=? n) && (n <=? 57) then Some (n - 48) else None.

Fixpoint digits (s : string) (acc : Z) : option Z :=
  match s with
  | EmptyString => Some acc
  | String c s' => d ← digit c; digits s' (acc * 10 + d)
  end.

Definition number (s : string) : option Z :=
  match s with
  | EmptyString => None
  | _ => digits s 0
  end.

Definition in_int (n : Z) : option Z :=
  if (- 2 ^ 63 <=? n) && (n <? 2 ^ 63) then Some n else None.

Definition Atoi (s : string) : option Z :=
  match s with
  | String "-" s' => n ← number s'; in_int (- n)
  | String "+" s' => n ← number s'; in_int n
  | _ => n ← number s; in_int n
  end.

Definition octet (s : string) : option Z :=
  match s with
  | String "0" (String _ _) => None
  | _ => if (String.length s <=? 3)%nat
         then n ← number s; if n <=? 255 then Some n else None
         else None
  end.

Definition ParseIP (s : string) : list Z :=
  match strings.Split s "." with
  | [a; b; c; d] =>
      match octet a, octet b, octet c, octet d with
      | Some a, Some b, Some c, Some d => net.v4InV6Prefix ++ [a; b; c; d]
      | _, _, _, _ => []
      end
  | _ => []
  end.

End text.

(** ** Canonical addresses and the big-endian value *)

(** A canonical address: 4 or 16 bytes, left as it is by [IP] (so a
    16-byte one is not an IPv4-mapped address). *)
Definition canonical (x : list Z) : Prop :=
  bytes x /\ (length x = 4 \/ length x = 16)%nat /\ IP x = x.

(** The value of a byte sequence, most significant byte first. *)
Fixpoint be_val (l : list Z) : Z :=
  match l with
  | [] => 0
  | b :: l' => b * 256 ^ Z.of_nat (length l') + be_val l'
  end.

(** A sequence of [n] bytes [b]. *)
Definition all_bytes (n : nat) (b : Z) : list Z := replicate n b.

(** [::fffe:ffff:ffff], the address before the IPv4-mapped range, and
    [::1:0:0:0], the address after it. *)
Definition before_mapped : list Z := [0; 0; 0; 0; 0; 0; 0; 0; 0; 0; 255; 254; 255; 255; 255; 255].
Definition after_mapped : list Z := [0; 0; 0; 0; 0; 0; 0; 0; 0; 1; 0; 0; 0; 0; 0; 0].

(** [::1]. *)
Definition one_v6 : list Z := [0; 0; 0; 0; 0; 0; 0; 0; 0; 0; 0; 0; 0; 0; 0; 1].

(** [2001:db8::]. *)
Definition doc_prefix_v6 : list Z := [32; 1; 13; 184; 0; 0; 0; 0; 0; 0; 0; 0; 0; 0; 0; 0].

(** [n] calls of [w.Next()] in a row: the wildcard after them. *)
Fixpoint Next_times (n : nat) (w : wildcard.Wildcard) : option wildcard.Wildcard :=
  match n with
  | O => Some w
  | S n' => '(w, _) ← wildcard.Next w; Next_times n' w
  end.

(** The number of bits set in a byte, and the number of don't-care bits
    of a wildcard: the bits set in its wildcard mask. *)
Definition ones (b : Z) : nat :=
  length (filter (fun j => wildcard.bit b j = true) (map Z.of_nat (seq 0 8))).

Definition dont_care_bits (w : wildcard.Wildcard) : nat :=
  foldr (fun b n => (ones b + n)%nat) 0%nat (wildcard.WildcardMask w).

(** The wildcard mask [::1:0:0] (one don't-care bit, the lowest bit of
    byte 11) on the address [::fffe:0:0]. *)
Definition low_bit_of_byte_11 : list Z := [0; 0; 0; 0; 0; 0; 0; 0; 0; 0; 0; 1; 0; 0; 0; 0].
Definition below_mapped : list Z := [0; 0; 0; 0; 0; 0; 0; 0; 0; 0; 255; 254; 0; 0; 0; 0].

(** The wildcard mask [::ffff:0.0.0.255]: bytes 10, 11 and 15 are
    don't-care. As an address it is IPv4-mapped. *)
Definition mapped_wildcard_mask : list Z := [0; 0; 0; 0; 0; 0; 0; 0; 0; 0; 255; 255; 0; 0; 0; 255].

(** ** Auxiliary definitions for the proofs *)

(** All the bytes, and the boolean test of being one. *)
Definition byte_range : list Z := map Z.of_nat (seq 0 256).
Definition is_byteb (b : Z) : bool := (0 <=? b) && (b <? 256).

(** The inner loops of [Next] and [Prev] as functions on the care-mask
    byte [m] and the address byte [b]. *)
Fixpoint next_byte (n : nat) (j : Z) (m b : Z) : Z * bool :=
  match n with
  | O => (b, false)
  | S n' =>
      if wildcard.bit m j then next_byte n' (j + 1) m b
      else if negb (wildcard.bit b j) then (Z.lor b (Z.shiftl 1 j), true)
      else next_byte n' (j + 1) m (Z.land b (byte_not (Z.shiftl 1 j)))
  end.

Fixpoint prev_byte (n : nat) (j : Z) (m b : Z) : Z * bool :=
  match n with
  | O => (b, false)
  | S n' =>
      if wildcard.bit m j then prev_byte n' (j + 1) m b
      else if wildcard.bit b j then (Z.land b (byte_not (Z.shiftl 1 j)), true)
      else prev_byte n' (j + 1) m (Z.lor b (Z.shiftl 1 j))
  end.

(** The don't-care bit positions of a byte with care mask [m], lowest
    first; their number; the number that the bits of [b] at these
    positions spell (lowest position least significant); and the byte
    whose bits at these positions spell [v], the others being 0. *)
Definition dc_positions (m : Z) : list Z :=
  filter (fun j => wildcard.bit m j = false) (map Z.of_nat (seq 0 8)).

Definition dc_count (m : Z) : nat := length (dc_positions m).

Definition dc_value (m b : Z) : Z :=
  foldr (fun j acc => (if wildcard.bit b j then 1 else 0) + 2 * acc) 0 (dc_positions m).

Fixpoint dc_expand (ps : list Z) (v : Z) : Z :=
  match ps with
  | [] => 0
  | j :: ps' => (if Z.odd v then Z.shiftl 1 j else 0) + dc_expand ps' (v / 2)
  end.

(** The same for a whole address, most significant byte first. *)
Fixpoint dc_total (mask : list Z) : nat :=
  match mask with
  | [] => 0
  | m :: mask' => dc_count m + dc_total mask'
  end.

Fixpoint wild_value (mask ip : list Z) : Z :=
  match mask, ip with
  | m :: mask', b :: ip' => dc_value m b * 2 ^ Z.of_nat (dc_total mask') + wild_value mask' ip'
  | _, _ => 0
  end.

(** A well-formed wildcard: address and care mask of one length, 4 or
    16 bytes, and [bits] the address ANDed with the care mask. *)
Definition well_formed (w : wildcard.Wildcard) : Prop :=
  bytes (wildcard.ip w) /\ bytes (wildcard.mask w) /\
  (length (wildcard.ip w) = 4 \/ length (wildcard.ip w) = 16)%nat /\
  length (wildcard.mask w) = length (wildcard.ip w) /\
  wildcard.bits w = zip_with Z.land (wildcard.ip w) (wildcard.mask w).

(** A regular wildcard is a well-formed one that, when 16 bytes long,
    stays clear of the IPv4-mapped shape [::ffff:a.b.c.d]: neither its
    care mask nor its wildcard mask has it, and no address of that shape
    has the care bits of the wildcard. Every well-formed 4-byte wildcard
    is regular. *)
Definition regular (w : wildcard.Wildcard) : Prop :=
  well_formed w /\
  (length (wildcard.ip w) = 16%nat ->
   take 12 (wildcard.mask w) <> net.v4InV6Prefix /\
   take 12 (map byte_not (wildcard.mask w)) <> net.v4InV6Prefix /\
   forall x, bytes x -> length x = 16%nat ->
             zip_with Z.land x (wildcard.mask w) = wildcard.bits w ->
             take 12 x <> net.v4InV6Prefix).

(** ** Auxiliary definitions for the further properties *)

(** The address 1 on [n] bytes: [0.0.0.1], [::1]. *)
Definition unit_address (n : nat) : list Z := replicate (n - 1) 0 ++ [1].


(** The network of prefix length [p] at the address [ip], as
    [net.ParseCIDR] builds it: the mask is [net.CIDRMask(p, 8*len(ip))]. *)
Definition cidr (ip : list Z) (p : Z) : IPNet :=
  {| net.IP := ip; net.Mask := CIDRMask p (8 * Z.of_nat (length ip)) |}.

(** The number of addresses of a network of prefix length [p] over
    addresses of [n] bytes. *)
Definition block (n : nat) (p : Z) : Z := 2 ^ (8 * Z.of_nat n - p).


(** The canonical addresses of the length of [w] that [w] matches. *)
Definition matching (w : wildcard.Wildcard) (x : list Z) : Prop :=
  canonical x /\ length x = length (wildcard.ip w) /\ wildcard.Matches w x = Some true.

(** The wildcard [192.0.2.128 / 0.0.0.254] of the documentation of
    [First], [Last], [Next] and [Prev], as [New] builds it. *)
Definition doc_wildcard : wildcard.Wildcard :=
  {| wildcard.ip := [192; 0; 2; 128]; wildcard.bits := [192; 0; 2; 0];
     wildcard.mask := [255; 255; 255; 1] |}.

(** * Properties *)

(** ** Lists of bytes *)

Lemma be_val_app (p q : list Z) :
  be_val (p ++ q) = be_val p * 256 ^ Z.of_nat (length q) + be_val q.
Proof.
  induction p as [|b p IH]; simpl; [lia|].
  rewrite IH, length_app, Nat2Z.inj_add, Z.pow_add_r by lia. ring.
Qed.

Lemma be_val_snoc (p : list Z) (b : Z) : be_val (p ++ [b]) = be_val p * 256 + b.
Proof. rewrite be_val_app. simpl. lia. Qed.

Lemma pow256_pos (n : nat) : 0 < 256 ^ Z.of_nat n.
Proof. apply Z.pow_pos_nonneg; lia. Qed.

Lemma pow256_S (n : nat) : 256 ^ Z.of_nat (S n) = 256 * 256 ^ Z.of_nat n.
Proof. rewrite Nat2Z.inj_succ, Z.pow_succ_r by lia. reflexivity. Qed.

Lemma be_val_bound (l : list Z) : bytes l -> 0 <= be_val l < 256 ^ Z.of_nat (length l).
Proof.
  induction 1 as [|b l Hb _ IH]; simpl length; simpl be_val; [simpl; lia|].
  rewrite pow256_S. unfold is_byte in Hb. pose proof (pow256_pos (length l)). nia.
Qed.

Lemma be_val_inj (l1 l2 : list Z) :
  bytes l1 -> bytes l2 -> length l1 = length l2 -> be_val l1 = be_val l2 -> l1 = l2.
Proof.
  intros H1; revert l2.
  induction H1 as [|b1 l1 Hb1 Hl1 IH]; intros l2 H2 Hlen Hval.
  - destruct l2; [reflexivity | discriminate].
  - destruct l2 as [|b2 l2]; [discriminate|].
    apply Forall_cons in H2 as [Hb2 Hl2].
    simpl in Hlen, Hval. injection Hlen as Hlen. rewrite <- Hlen in Hval.
    pose proof (be_val_bound l1 Hl1) as B1.
    pose proof (be_val_bound l2 Hl2) as B2. rewrite <- Hlen in B2.
    assert (b1 = b2) by nia. subst b2.
    f_equal. apply IH; auto. lia.
Qed.

Lemma bytes_app (p q : list Z) : bytes (p ++ q) <-> bytes p /\ bytes q.
Proof. apply Forall_app. Qed.

Lemma mod256_byte (z : Z) : is_byte (z mod 256).
Proof. unfold is_byte. apply Z.mod_pos_bound. lia. Qed.

(** ** The carry and borrow loops *)

Lemma incr_loop_spec (pre post : list Z) :
  bytes pre ->
  exists pre',
    incr_loop (length pre) (pre ++ post) = Some (pre' ++ post) /\
    bytes pre' /\ length pre' = length pre /\
    be_val pre' = (be_val pre + 1) mod 256 ^ Z.of_nat (length pre).
Proof.
  revert post. induction pre as [|b pre IH] using rev_ind; intros post Hb.
  - exists []. simpl. repeat split; auto; constructor.
  - apply bytes_app in Hb as [Hpre Hb]. apply (proj1 (Forall_singleton _ _)) in Hb.
    rewrite length_app, Nat.add_1_r. cbn [incr_loop].
    rewrite <- app_assoc. change ([b] ++ post) with (b :: post).
    rewrite (list_lookup_middle pre post b (length pre) eq_refl). cbn [mbind option_bind].
    replace (<[length pre:=(b + 1) mod 256]> (pre ++ b :: post))
      with (pre ++ [(b + 1) mod 256] ++ post)
      by (rewrite insert_app_r_alt, Nat.sub_diag by lia; reflexivity).
    pose proof (be_val_bound pre Hpre) as Bp.
    pose proof (pow256_pos (length pre)) as Pp.
    unfold is_byte in Hb.
    destruct ((b + 1) mod 256 =? 0) eqn:E; cbn [negb].
    + apply Z.eqb_eq in E. assert (b = 255).
      { destruct (Z.eq_dec b 255); auto.
        rewrite Z.mod_small in E by lia. lia. }
      subst b. rewrite E.
      destruct (IH ([0] ++ post) Hpre) as (pre' & Hrun & Hb' & Hlen & Hval).
      exists (pre' ++ [0]). rewrite <- app_assoc. split; [exact Hrun|].
      split; [apply bytes_app; split; auto; repeat constructor; unfold is_byte; lia|].
      split; [rewrite !length_app; simpl; lia|].
      rewrite !be_val_snoc, Hval, pow256_S.
      replace (be_val pre * 256 + 255 + 1) with ((be_val pre + 1) * 256) by ring.
      rewrite (Z.mul_comm 256), Z.mul_mod_distr_r by lia. ring.
    + apply Z.eqb_neq in E.
      assert (b + 1 < 256).
      { destruct (Z.eq_dec b 255) as [->|]; [exfalso; apply E; reflexivity | lia]. }
      rewrite Z.mod_small by lia.
      exists (pre ++ [b + 1]). rewrite <- app_assoc. split; [reflexivity|].
      split; [apply bytes_app; split; auto; repeat constructor; unfold is_byte; lia|].
      split; [rewrite !length_app; simpl; lia|].
      rewrite !be_val_snoc, pow256_S, Z.mod_small by nia. ring.
Qed.

Lemma decr_loop_spec (pre post : list Z) :
  bytes pre ->
  exists pre',
    decr_loop (length pre) (pre ++ post) = Some (pre' ++ post) /\
    bytes pre' /\ length pre' = length pre /\
    be_val pre' = (be_val pre - 1) mod 256 ^ Z.of_nat (length pre).
Proof.
  revert post. induction pre as [|b pre IH] using rev_ind; intros post Hb.
  - exists []. simpl. repeat split; auto; constructor.
  - apply bytes_app in Hb as [Hpre Hb]. apply (proj1 (Forall_singleton _ _)) in Hb.
    rewrite length_app, Nat.add_1_r. cbn [decr_loop].
    rewrite <- app_assoc. change ([b] ++ post) with (b :: post).
    rewrite (list_lookup_middle pre post b (length pre) eq_refl). cbn [mbind option_bind].
    replace (<[length pre:=(b - 1) mod 256]> (pre ++ b :: post))
      with (pre ++ [(b - 1) mod 256] ++ post)
      by (rewrite insert_app_r_alt, Nat.sub_diag by lia; reflexivity).
    pose proof (be_val_bound pre Hpre) as Bp.
    pose proof (pow256_pos (length pre)) as Pp.
    unfold is_byte in Hb.
    destruct ((b - 1) mod 256 =? 255) eqn:E; cbn [negb].
    + apply Z.eqb_eq in E. assert (b = 0).
      { destruct (Z.eq_dec b 0); auto.
        rewrite Z.mod_small in E by lia. lia. }
      subst b. rewrite E.
      destruct (IH ([255] ++ post) Hpre) as (pre' & Hrun & Hb' & Hlen & Hval).
      exists (pre' ++ [255]). rewrite <- app_assoc. split; [exact Hrun|].
      split; [apply bytes_app; split; auto; repeat constructor; unfold is_byte; lia|].
      split; [rewrite !length_app; simpl; lia|].
      rewrite !be_val_snoc, Hval, pow256_S.
      pose proof (Z.mod_pos_bound (be_val pre - 1) (256 ^ Z.of_nat (length pre)) Pp) as Bm.
      apply Z.mod_unique with (q := (be_val pre - 1) / 256 ^ Z.of_nat (length pre)); [lia|].
      pose proof (Z.div_mod (be_val pre - 1) (256 ^ Z.of_nat (length pre))) as D.
      lia.
    + apply Z.eqb_neq in E.
      assert (0 <= b - 1).
      { destruct (Z.eq_dec b 0) as [->|]; [exfalso; apply E; reflexivity | lia]. }
      rewrite Z.mod_small by lia.
      exists (pre ++ [b - 1]). rewrite <- app_assoc. split; [reflexivity|].
      split; [apply bytes_app; split; auto; repeat constructor; unfold is_byte; lia|].
      split; [rewrite !length_app; simpl; lia|].
      rewrite !be_val_snoc, pow256_S, Z.mod_small by nia. ring.
Qed.

(** ** Canonical addresses *)

Lemma IP_length4 (x : list Z) : length x = 4%nat -> IP x = x.
Proof. intros H. unfold IP, To4. rewrite H. reflexivity. Qed.

Lemma To4_16 (x : list Z) :
  length x = 16%nat -> (is_Some (To4 x) <-> take 12 x = v4InV6Prefix).
Proof.
  intros H. unfold To4. rewrite H. cbn [Nat.eqb IPv4len IPv6len andb].
  do 16 (destruct x as [|? x]; [discriminate H|]).
  destruct x; [|discriminate H]. cbn -[Z.eqb].
  unfold v4InV6Prefix. split.
  - intros [y Hy].
    match type of Hy with (if ?c then _ else _) = _ => destruct c eqn:E; [|discriminate Hy] end.
    repeat match goal with
           | H : _ && _ = true |- _ => apply andb_true_iff in H; destruct H
           | H : (0 =? _) = true |- _ => apply Z.eqb_eq in H; subst
           | H : bool_decide _ = true |- _ => apply bool_decide_eq_true_1 in H; injection H as ->
           end.
    reflexivity.
  - intros E. injection E; intros; subst. cbn. eexists; reflexivity.
Qed.

Lemma To4_None_IP (x : list Z) : To4 x = None -> IP x = x.
Proof. intros H. unfold IP. rewrite H. reflexivity. Qed.

Lemma canonical_4 (x : list Z) : bytes x -> length x = 4%nat -> canonical x.
Proof. intros Hb Hl. split; [|split]; auto using IP_length4. Qed.

Lemma canonical_16 (x : list Z) :
  bytes x -> length x = 16%nat -> take 12 x <> v4InV6Prefix -> canonical x.
Proof.
  intros Hb Hl Hn. split; [|split]; auto.
  apply To4_None_IP. destruct (To4 x) eqn:E; auto.
  exfalso. apply Hn, To4_16; eauto.
Qed.

Lemma canonical_not_mapped (x : list Z) :
  canonical x -> length x = 16%nat -> take 12 x <> v4InV6Prefix.
Proof.
  intros (Hb & _ & HIP) Hl Hp. apply To4_16 in Hp as [y Hy]; auto.
  unfold IP in HIP. rewrite Hy in HIP. cbn in HIP. subst y.
  unfold To4 in Hy. rewrite Hl in Hy. cbn [Nat.eqb IPv4len IPv6len] in Hy.
  destruct (_ && _) in Hy; [|discriminate].
  injection Hy as Hy. apply (f_equal length) in Hy. rewrite length_drop in Hy. lia.
Qed.

Lemma IPSize_canonical (x : list Z) : canonical x -> IPSize x = length x.
Proof.
  intros (_ & Hl & HIP). unfold IPSize, IPVersion. rewrite HIP.
  destruct Hl as [-> | ->]; reflexivity.
Qed.

(** A 16-byte sequence is IPv4-mapped exactly when its value lies in
    [::ffff:0.0.0.0, ::ffff:255.255.255.255]. *)
Lemma mapped_value (x : list Z) :
  bytes x -> length x = 16%nat ->
  (take 12 x = v4InV6Prefix <-> 65535 * 2 ^ 32 <= be_val x < 65536 * 2 ^ 32).
Proof.
  intros Hb Hl.
  rewrite <- (take_drop 12 x) at 2 3. rewrite be_val_app.
  rewrite length_drop, Hl. change (256 ^ Z.of_nat (16 - 12)) with (2 ^ 32).
  pose proof (be_val_bound (drop 12 x) (Forall_drop _ 12 _ Hb)) as Bd.
  rewrite length_drop, Hl in Bd. change (256 ^ Z.of_nat (16 - 12)) with (2 ^ 32) in Bd.
  pose proof (be_val_bound (take 12 x) (Forall_take _ 12 _ Hb)) as Bt.
  split.
  - intros ->. change (be_val v4InV6Prefix) with 65535. lia.
  - intros Hv. apply be_val_inj.
    + apply Forall_take, Hb.
    + repeat constructor; unfold is_byte; lia.
    + rewrite length_take, Hl. reflexivity.
    + change (be_val v4InV6Prefix) with 65535. nia.
Qed.

Lemma NextIP_canonical (x : list Z) :
  canonical x ->
  exists y, NextIP x = Some y /\ bytes y /\ length y = length x /\
            be_val y = (be_val x + 1) mod 256 ^ Z.of_nat (length x).
Proof.
  intros Hc. pose proof Hc as (Hb & _ & HIP).
  unfold NextIP. rewrite HIP, IPSize_canonical by assumption.
  destruct (incr_loop_spec x [] Hb) as (y & Hrun & Hy & Hlen & Hval).
  rewrite !app_nil_r in Hrun. eauto.
Qed.

Lemma PrevIP_canonical (x : list Z) :
  canonical x ->
  exists y, PrevIP x = Some y /\ bytes y /\ length y = length x /\
            be_val y = (be_val x - 1) mod 256 ^ Z.of_nat (length x).
Proof.
  intros Hc. pose proof Hc as (Hb & _ & HIP).
  unfold PrevIP. rewrite HIP, IPSize_canonical by assumption.
  destruct (decr_loop_spec x [] Hb) as (y & Hrun & Hy & Hlen & Hval).
  rewrite !app_nil_r in Hrun. eauto.
Qed.

(** ** NextIP and PrevIP *)

Lemma succ_pred_mod (v m : Z) : 0 <= v < m -> ((v + 1) mod m - 1) mod m = v.
Proof.
  intros H. rewrite Zminus_mod_idemp_l.
  replace (v + 1 - 1) with v by ring. apply Z.mod_small, H.
Qed.

Lemma pred_succ_mod (v m : Z) : 0 <= v < m -> ((v - 1) mod m + 1) mod m = v.
Proof.
  intros H. rewrite Zplus_mod_idemp_l.
  replace (v - 1 + 1) with v by ring. apply Z.mod_small, H.
Qed.

Lemma bytes_check (l : list Z) :
  forallb (fun b => (0 <=? b) && (b <? 256)) l = true -> bytes l.
Proof.
  intros H. apply Forall_forall. intros b Hb.
  rewrite forallb_forall in H. apply list_elem_of_In, H in Hb.
  unfold is_byte. lia.
Qed.

Lemma canonical_before_mapped : canonical before_mapped.
Proof. apply canonical_16; [apply bytes_check; reflexivity | reflexivity | discriminate]. Qed.

Lemma canonical_after_mapped : canonical after_mapped.
Proof. apply canonical_16; [apply bytes_check; reflexivity | reflexivity | discriminate]. Qed.

Lemma canonical_of_value (x y : list Z) :
  canonical x -> bytes y -> length y = length x ->
  (length x = 16%nat -> ~ 65535 * 2 ^ 32 <= be_val y < 65536 * 2 ^ 32) ->
  canonical y.
Proof.
  intros (_ & [Hl | Hl] & _) Hy Hlen Hv.
  - apply canonical_4; congruence.
  - apply canonical_16; [assumption | congruence |].
    intros Hp. apply Hv; [assumption|]. apply mapped_value; auto. congruence.
Qed.

Lemma canonical_value_16 (x : list Z) :
  canonical x -> length x = 16%nat ->
  0 <= be_val x < 2 ^ 128 /\ ~ 65535 * 2 ^ 32 <= be_val x < 65536 * 2 ^ 32.
Proof.
  intros Hc Hl. pose proof Hc as (Hb & _ & _). split.
  - pose proof (be_val_bound x Hb) as B. rewrite Hl in B. exact B.
  - intros Hv. apply (canonical_not_mapped x Hc Hl). apply mapped_value; auto.
Qed.

Lemma NextIP_stays_canonical (x y : list Z) :
  canonical x -> x <> before_mapped -> NextIP x = Some y -> canonical y.
Proof.
  intros Hc Hne Hy.
  destruct (NextIP_canonical x Hc) as (y' & Hrun & Hby & Hlen & Hval).
  rewrite Hrun in Hy. injection Hy as <-.
  apply (canonical_of_value x); auto. intros Hl Hm.
  destruct (canonical_value_16 x Hc Hl) as [B Hx].
  rewrite Hval, Hl in Hm. change (256 ^ Z.of_nat 16) with (2 ^ 128) in Hm.
  destruct (Z.eq_dec (be_val x + 1) (2 ^ 128)) as [e|e].
  - rewrite e, Z.mod_same in Hm by lia. lia.
  - rewrite Z.mod_small in Hm by lia.
    apply Hne. pose proof Hc as (Hb & _ & _).
    apply be_val_inj; auto.
    + apply canonical_before_mapped.
    + change (be_val before_mapped) with (65535 * 2 ^ 32 - 1). lia.
Qed.

Lemma PrevIP_stays_canonical (x y : list Z) :
  canonical x -> x <> after_mapped -> PrevIP x = Some y -> canonical y.
Proof.
  intros Hc Hne Hy.
  destruct (PrevIP_canonical x Hc) as (y' & Hrun & Hby & Hlen & Hval).
  rewrite Hrun in Hy. injection Hy as <-.
  apply (canonical_of_value x); auto. intros Hl Hm.
  destruct (canonical_value_16 x Hc Hl) as [B Hx].
  rewrite Hval, Hl in Hm. change (256 ^ Z.of_nat 16) with (2 ^ 128) in Hm.
  destruct (Z.eq_dec (be_val x) 0) as [e|e].
  - rewrite e in Hm. change ((0 - 1) mod 2 ^ 128) with (2 ^ 128 - 1) in Hm. lia.
  - rewrite Z.mod_small in Hm by lia.
    apply Hne. pose proof Hc as (Hb & _ & _).
    apply be_val_inj; auto.
    + apply canonical_after_mapped.
    + change (be_val after_mapped) with (65536 * 2 ^ 32). lia.
Qed.

(** C7, as amended. For every canonical address [x] (4 or 16 bytes),
    [PrevIP (NextIP x)] is [x] unless [x] is [::fffe:ffff:ffff], and
    [NextIP (PrevIP x)] is [x] unless [x] is [::1:0:0:0]: the round trip
    holds, wraparound included, whenever the intermediate address is not
    an IPv4-mapped one, which [IP] would shorten to 4 bytes. For 4-byte
    addresses there is no exception. *)
Theorem NextIP_PrevIP_round_trip (x : list Z) :
  canonical x ->
  (x <> before_mapped -> NextIP x ≫= PrevIP = Some x) /\
  (x <> after_mapped -> PrevIP x ≫= NextIP = Some x).
Proof.
  intros Hc. pose proof Hc as (Hb & _ & _).
  pose proof (be_val_bound x Hb) as B.
  split; intros Hne.
  - destruct (NextIP_canonical x Hc) as (y & Hrun & Hby & Hlen & Hval).
    rewrite Hrun. cbn [mbind option_bind].
    assert (Hcy : canonical y) by (eapply NextIP_stays_canonical; eauto).
    destruct (PrevIP_canonical y Hcy) as (z & Hrun' & Hbz & Hlen' & Hval').
    rewrite Hrun'. f_equal. apply be_val_inj; auto; [congruence|].
    rewrite Hval', Hval, Hlen. apply succ_pred_mod, B.
  - destruct (PrevIP_canonical x Hc) as (y & Hrun & Hby & Hlen & Hval).
    rewrite Hrun. cbn [mbind option_bind].
    assert (Hcy : canonical y) by (eapply PrevIP_stays_canonical; eauto).
    destruct (NextIP_canonical y Hcy) as (z & Hrun' & Hbz & Hlen' & Hval').
    rewrite Hrun'. f_equal. apply be_val_inj; auto; [congruence|].
    rewrite Hval', Hval, Hlen. apply pred_succ_mod, B.
Qed.

Lemma NextIP_PrevIP_round_trip_witness :
  canonical (all_bytes 16 255) /\
  all_bytes 16 255 <> before_mapped /\ all_bytes 16 255 <> after_mapped /\
  NextIP (all_bytes 16 255) ≫= PrevIP = Some (all_bytes 16 255) /\
  PrevIP (all_bytes 16 255) ≫= NextIP = Some (all_bytes 16 255).
Proof.
  assert (H : canonical (all_bytes 16 255))
    by (apply canonical_16; [apply bytes_check; reflexivity | reflexivity | discriminate]).
  assert (N1 : all_bytes 16 255 <> before_mapped) by discriminate.
  assert (N2 : all_bytes 16 255 <> after_mapped) by discriminate.
  destruct (NextIP_PrevIP_round_trip (all_bytes 16 255) H) as [R1 R2].
  split; [exact H|]. split; [exact N1|]. split; [exact N2|].
  split; [exact (R1 N1) | exact (R2 N2)].
Defined.

(** C7 as stated fails at the canonical 16-byte address
    [::fffe:ffff:ffff]: its successor [::ffff:0.0.0.0] is IPv4-mapped,
    [PrevIP] shortens it to [0.0.0.0] and returns [255.255.255.255]. *)
Lemma NextIP_PrevIP_round_trip_counterexample :
  canonical before_mapped /\
  NextIP before_mapped ≫= PrevIP = Some [255; 255; 255; 255] /\
  NextIP before_mapped ≫= PrevIP <> Some before_mapped /\
  Equal [255; 255; 255; 255] before_mapped = false.
Proof.
  split; [apply canonical_before_mapped|].
  split; [reflexivity|]. split; [discriminate | reflexivity].
Qed.

(** C8. For each address length [n] (4 or 16 bytes), [NextIP] of the
    all-0xFF address is the all-zero address, [PrevIP] of the all-zero
    address is the all-0xFF address, and on every canonical address of
    that length [NextIP] and [PrevIP] return (no panic, no error) the
    address whose big-endian value is the value plus or minus one modulo
    [2 ^ (8 * n)]. *)
Theorem NextIP_PrevIP_wrap (n : nat) :
  (n = 4 \/ n = 16)%nat ->
  NextIP (all_bytes n 255) = Some (all_bytes n 0) /\
  PrevIP (all_bytes n 0) = Some (all_bytes n 255) /\
  forall x, canonical x -> length x = n ->
    exists y z,
      NextIP x = Some y /\ PrevIP x = Some z /\
      bytes y /\ bytes z /\ length y = n /\ length z = n /\
      be_val y = (be_val x + 1) mod 2 ^ (8 * Z.of_nat n) /\
      be_val z = (be_val x - 1) mod 2 ^ (8 * Z.of_nat n).
Proof.
  intros Hn.
  split; [destruct Hn as [-> | ->]; reflexivity|].
  split; [destruct Hn as [-> | ->]; reflexivity|].
  intros x Hc Hl.
  destruct (NextIP_canonical x Hc) as (y & Hy & Hby & Hly & Hvy).
  destruct (PrevIP_canonical x Hc) as (z & Hz & Hbz & Hlz & Hvz).
  exists y, z.
  replace (2 ^ (8 * Z.of_nat n)) with (256 ^ Z.of_nat n)
    by (change 256 with (2 ^ 8); rewrite <- Z.pow_mul_r by lia; reflexivity).
  rewrite <- Hl. repeat split; auto.
Qed.

Lemma NextIP_PrevIP_wrap_witness :
  (16 = 4 \/ 16 = 16)%nat /\
  NextIP (all_bytes 16 255) = Some (all_bytes 16 0) /\
  PrevIP (all_bytes 16 0) = Some (all_bytes 16 255) /\
  forall x, canonical x -> length x = 16%nat ->
    exists y z,
      NextIP x = Some y /\ PrevIP x = Some z /\
      bytes y /\ bytes z /\ length y = 16%nat /\ length z = 16%nat /\
      be_val y = (be_val x + 1) mod 2 ^ (8 * Z.of_nat 16) /\
      be_val z = (be_val x - 1) mod 2 ^ (8 * Z.of_nat 16).
Proof.
  split; [right; reflexivity|].
  exact (NextIP_PrevIP_wrap 16 (or_intror eq_refl)).
Defined.

(** ** Facts on two bytes, by enumeration *)

Lemma in_byte_range (b : Z) : is_byte b -> In b byte_range.
Proof.
  intros H. unfold byte_range. apply in_map_iff.
  exists (Z.to_nat b). unfold is_byte in H. split; [lia|].
  apply in_seq. lia.
Qed.

Lemma byte_forall (f : Z -> bool) :
  forallb f byte_range = true -> forall a, is_byte a -> f a = true.
Proof. intros H a Ha. rewrite forallb_forall in H. apply H, in_byte_range, Ha. Qed.

Lemma byte_forall2 (f : Z -> Z -> bool) :
  forallb (fun a => forallb (f a) byte_range) byte_range = true ->
  forall a b, is_byte a -> is_byte b -> f a b = true.
Proof.
  intros H a b Ha Hb.
  apply (byte_forall (f a)); [|exact Hb].
  apply (byte_forall (fun a => forallb (f a) byte_range)); assumption.
Qed.

Lemma is_byteb_spec (b : Z) : is_byteb b = true -> is_byte b.
Proof. unfold is_byteb, is_byte. lia. Qed.

Lemma land_byte (a b : Z) : is_byte a -> is_byte b -> is_byte (Z.land a b).
Proof.
  intros Ha Hb. apply is_byteb_spec.
  apply (byte_forall2 (fun a b => is_byteb (Z.land a b))); [vm_compute; reflexivity | |]; assumption.
Qed.

Lemma lor_byte (a b : Z) : is_byte a -> is_byte b -> is_byte (Z.lor a b).
Proof.
  intros Ha Hb. apply is_byteb_spec.
  apply (byte_forall2 (fun a b => is_byteb (Z.lor a b))); [vm_compute; reflexivity | |]; assumption.
Qed.

Lemma lxor_byte (a b : Z) : is_byte a -> is_byte b -> is_byte (Z.lxor a b).
Proof.
  intros Ha Hb. apply is_byteb_spec.
  apply (byte_forall2 (fun a b => is_byteb (Z.lxor a b))); [vm_compute; reflexivity | |]; assumption.
Qed.

Lemma byte_not_byte (a : Z) : is_byte a -> is_byte (byte_not a).
Proof. intros Ha. apply lxor_byte; [assumption | unfold is_byte; lia]. Qed.

Lemma byte_not_sub (a : Z) : is_byte a -> byte_not a = 255 - a.
Proof.
  intros Ha. apply Z.eqb_eq.
  apply (byte_forall (fun a => byte_not a =? 255 - a)); [vm_compute; reflexivity | assumption].
Qed.

Lemma bytes_zip_with (f : Z -> Z -> Z) (a b : list Z) :
  (forall x y, is_byte x -> is_byte y -> is_byte (f x y)) ->
  bytes a -> bytes b -> bytes (zip_with f a b).
Proof.
  intros Hf Ha. revert b. induction Ha as [|x a Hx Ha IH]; intros b Hb; [constructor|].
  destruct Hb as [|y b Hy Hb]; [constructor|].
  simpl. constructor; auto. apply IH, Hb.
Qed.

(** ** Add and Substract *)

Lemma snoc_length {A : Type} (l : list A) (n : nat) :
  length l = S n -> exists p x, l = p ++ [x] /\ length p = n.
Proof.
  intros H. destruct l as [|x p _] using rev_ind; [discriminate|].
  rewrite length_app in H. simpl in H. exists p, x. split; [reflexivity | lia].
Qed.

Lemma mod_shift_byte (p r m : Z) :
  0 < m -> 0 <= r < 256 -> (p * 256 + r) mod (m * 256) = (p mod m) * 256 + r.
Proof.
  intros Hm Hr. symmetry.
  pose proof (Z.mod_pos_bound p m Hm) as B.
  apply Z.mod_unique with (q := p / m); [nia|].
  pose proof (Z.div_mod p m) as D. nia.
Qed.

Lemma add_byte_cases (x c : Z) :
  0 <= x < 256 -> 0 <= c < 256 ->
  ((x + c) mod 256 < x /\ x + c = 256 + (x + c) mod 256) \/
  (x <= (x + c) mod 256 /\ x + c = (x + c) mod 256).
Proof.
  intros Hx Hc. destruct (Z_lt_dec (x + c) 256).
  - right. rewrite Z.mod_small by lia. lia.
  - left. replace (x + c) with (x + c - 256 + 1 * 256) at 1 3 by ring.
    rewrite Z_mod_plus_full, Z.mod_small by lia. lia.
Qed.

Lemma sub_byte_cases (x c : Z) :
  0 <= x < 256 -> 0 <= c < 256 ->
  (x < (x - c) mod 256 /\ x - c = (x - c) mod 256 - 256) \/
  ((x - c) mod 256 <= x /\ x - c = (x - c) mod 256).
Proof.
  intros Hx Hc. destruct (Z_lt_dec (x - c) 0).
  - left. replace (x - c) with (x - c + 256 + (-1) * 256) at 1 3 by ring.
    rewrite Z_mod_plus_full, Z.mod_small by lia. lia.
  - right. rewrite Z.mod_small by lia. lia.
Qed.

Lemma Add_loop_spec (i : nat) :
  forall pa pb pm qa qb qm : list Z,
    length pa = i -> length pb = i -> length pm = i ->
    bytes pa -> bytes pb -> bytes pm ->
    exists pa',
      Add_loop i (pa ++ qa) (pb ++ qb) (pm ++ qm) = Some (pa' ++ qa) /\
      bytes pa' /\ length pa' = i /\
      be_val pa' = (be_val pa + be_val (zip_with Z.land pb pm)) mod 256 ^ Z.of_nat i.
Proof.
  induction i as [|i IH]; intros pa pb pm qa qb qm La Lb Lm Ha Hb Hm.
  - destruct pa, pb, pm; try discriminate. exists []. repeat split; auto.
  - destruct (snoc_length pa i La) as (pa0 & x & -> & La0).
    destruct (snoc_length pb i Lb) as (pb0 & y & -> & Lb0).
    destruct (snoc_length pm i Lm) as (pm0 & m & -> & Lm0).
    apply bytes_app in Ha as [Ha0 Hx]. apply (proj1 (Forall_singleton _ _)) in Hx.
    apply bytes_app in Hb as [Hb0 Hy]. apply (proj1 (Forall_singleton _ _)) in Hy.
    apply bytes_app in Hm as [Hm0 Hm]. apply (proj1 (Forall_singleton _ _)) in Hm.
    cbn [Add_loop]. rewrite <- !app_assoc.
    change ([x] ++ qa) with (x :: qa). change ([y] ++ qb) with (y :: qb).
    change ([m] ++ qm) with (m :: qm).
    rewrite (list_lookup_middle pa0 qa x i), (list_lookup_middle pb0 qb y i),
      (list_lookup_middle pm0 qm m i) by congruence.
    cbn [mbind option_bind].
    set (c := Z.land y m).
    assert (Hc : is_byte c) by (apply land_byte; assumption).
    pose proof (add_byte_cases x c Hx Hc) as Hcases.
    set (ai := (x + c) mod 256) in *.
    assert (Hai : is_byte ai) by apply mod256_byte.
    replace (<[i:=ai]> (pa0 ++ x :: qa)) with (pa0 ++ ai :: qa)
      by (rewrite insert_app_r_alt, La0, Nat.sub_diag by lia; reflexivity).
    pose proof (pow256_pos i) as Pi.
    unfold is_byte in Hx, Hc, Hai.
    (* the carry into the bytes on the left *)
    assert (Hcarry : exists pa1 k,
      (if (ai <? x) && (0 <? i)%nat then incr_loop i (pa0 ++ ai :: qa) else Some (pa0 ++ ai :: qa))
        = Some (pa1 ++ ai :: qa) /\
      bytes pa1 /\ length pa1 = i /\
      be_val pa1 mod 256 ^ Z.of_nat i = (be_val pa0 + k) mod 256 ^ Z.of_nat i /\
      x + c = 256 * k + ai).
    { destruct Hcases as [[Hlt Hsum] | [Hge Hsum]].
      - apply Z.ltb_lt in Hlt. rewrite Hlt. cbn [andb].
        destruct (0 <? i)%nat eqn:Hi.
        + rewrite <- La0.
          destruct (incr_loop_spec pa0 (ai :: qa) Ha0) as (pa1 & Hrun & Hb1 & L1 & V1).
          exists pa1, 1. rewrite Hrun, La0 in *. repeat split; auto; try lia.
          rewrite V1. apply Z.mod_mod. lia.
        + apply Nat.ltb_ge in Hi. assert (Hi0 : i = 0%nat) by lia.
          exists pa0, 1. repeat split; auto; try lia.
          rewrite Hi0. change (256 ^ Z.of_nat 0) with 1. rewrite !Z.mod_1_r. reflexivity.
      - apply Z.ltb_ge in Hge. rewrite Hge. cbn [andb].
        exists pa0, 0. repeat split; auto; try lia.
        rewrite Z.add_0_r. reflexivity. }
    destruct Hcarry as (pa1 & k & -> & Hb1 & L1 & V1 & Hk).
    cbn [mbind option_bind].
    destruct (IH pa1 pb0 pm0 (ai :: qa) (y :: qb) (m :: qm) L1 Lb0 Lm0 Hb1 Hb0 Hm0)
      as (pa' & Hrun & Hb' & L' & V').
    exists (pa' ++ [ai]). rewrite <- app_assoc. split; [exact Hrun|].
    split; [apply bytes_app; split; auto; apply Forall_singleton; exact Hai|].
    split; [rewrite length_app; simpl; lia|].
    rewrite zip_with_app by congruence. cbn [zip_with].
    rewrite !be_val_snoc, V', pow256_S. fold c.
    rewrite (Z.mul_comm 256).
    replace (be_val pa0 * 256 + x + (be_val (zip_with Z.land pb0 pm0) * 256 + c))
      with ((be_val pa0 + k + be_val (zip_with Z.land pb0 pm0)) * 256 + ai) by lia.
    rewrite mod_shift_byte by lia. f_equal. f_equal.
    rewrite <- Zplus_mod_idemp_l, V1, Zplus_mod_idemp_l. reflexivity.
Qed.

Lemma Substract_loop_spec (i : nat) :
  forall pa pb pm qa qb qm : list Z,
    length pa = i -> length pb = i -> length pm = i ->
    bytes pa -> bytes pb -> bytes pm ->
    exists pa',
      Substract_loop i (pa ++ qa) (pb ++ qb) (pm ++ qm) = Some (pa' ++ qa) /\
      bytes pa' /\ length pa' = i /\
      be_val pa' = (be_val pa - be_val (zip_with Z.land pb pm)) mod 256 ^ Z.of_nat i.
Proof.
  induction i as [|i IH]; intros pa pb pm qa qb qm La Lb Lm Ha Hb Hm.
  - destruct pa, pb, pm; try discriminate. exists []. repeat split; auto.
  - destruct (snoc_length pa i La) as (pa0 & x & -> & La0).
    destruct (snoc_length pb i Lb) as (pb0 & y & -> & Lb0).
    destruct (snoc_length pm i Lm) as (pm0 & m & -> & Lm0).
    apply bytes_app in Ha as [Ha0 Hx]. apply (proj1 (Forall_singleton _ _)) in Hx.
    apply bytes_app in Hb as [Hb0 Hy]. apply (proj1 (Forall_singleton _ _)) in Hy.
    apply bytes_app in Hm as [Hm0 Hm]. apply (proj1 (Forall_singleton _ _)) in Hm.
    cbn [Substract_loop]. rewrite <- !app_assoc.
    change ([x] ++ qa) with (x :: qa). change ([y] ++ qb) with (y :: qb).
    change ([m] ++ qm) with (m :: qm).
    rewrite (list_lookup_middle pa0 qa x i), (list_lookup_middle pb0 qb y i),
      (list_lookup_middle pm0 qm m i) by congruence.
    cbn [mbind option_bind].
    set (c := Z.land y m).
    assert (Hc : is_byte c) by (apply land_byte; assumption).
    pose proof (sub_byte_cases x c Hx Hc) as Hcases.
    set (ai := (x - c) mod 256) in *.
    assert (Hai : is_byte ai) by apply mod256_byte.
    replace (<[i:=ai]> (pa0 ++ x :: qa)) with (pa0 ++ ai :: qa)
      by (rewrite insert_app_r_alt, La0, Nat.sub_diag by lia; reflexivity).
    pose proof (pow256_pos i) as Pi.
    unfold is_byte in Hx, Hc, Hai.
    (* the borrow from the bytes on the left *)
    assert (Hborrow : exists pa1 k,
      (if (x <? ai) && (0 <? i)%nat then decr_loop i (pa0 ++ ai :: qa) else Some (pa0 ++ ai :: qa))
        = Some (pa1 ++ ai :: qa) /\
      bytes pa1 /\ length pa1 = i /\
      be_val pa1 mod 256 ^ Z.of_nat i = (be_val pa0 - k) mod 256 ^ Z.of_nat i /\
      x - c = ai - 256 * k).
    { destruct Hcases as [[Hlt Hsum] | [Hge Hsum]].
      - apply Z.ltb_lt in Hlt. rewrite Hlt. cbn [andb].
        destruct (0 <? i)%nat eqn:Hi.
        + rewrite <- La0.
          destruct (decr_loop_spec pa0 (ai :: qa) Ha0) as (pa1 & Hrun & Hb1 & L1 & V1).
          exists pa1, 1. rewrite Hrun, La0 in *. repeat split; auto; try lia.
          rewrite V1. apply Z.mod_mod. lia.
        + apply Nat.ltb_ge in Hi. assert (Hi0 : i = 0%nat) by lia.
          exists pa0, 1. repeat split; auto; try lia.
          rewrite Hi0. change (256 ^ Z.of_nat 0) with 1. rewrite !Z.mod_1_r. reflexivity.
      - apply Z.ltb_ge in Hge. rewrite Hge. cbn [andb].
        exists pa0, 0. repeat split; auto; try lia.
        rewrite Z.sub_0_r. reflexivity. }
    destruct Hborrow as (pa1 & k & -> & Hb1 & L1 & V1 & Hk).
    cbn [mbind option_bind].
    destruct (IH pa1 pb0 pm0 (ai :: qa) (y :: qb) (m :: qm) L1 Lb0 Lm0 Hb1 Hb0 Hm0)
      as (pa' & Hrun & Hb' & L' & V').
    exists (pa' ++ [ai]). rewrite <- app_assoc. split; [exact Hrun|].
    split; [apply bytes_app; split; auto; apply Forall_singleton; exact Hai|].
    split; [rewrite length_app; simpl; lia|].
    rewrite zip_with_app by congruence. cbn [zip_with].
    rewrite !be_val_snoc, V', pow256_S. fold c.
    rewrite (Z.mul_comm 256).
    replace (be_val pa0 * 256 + x - (be_val (zip_with Z.land pb0 pm0) * 256 + c))
      with ((be_val pa0 - k - be_val (zip_with Z.land pb0 pm0)) * 256 + ai) by lia.
    rewrite mod_shift_byte by lia. f_equal. f_equal.
    rewrite <- Zminus_mod_idemp_l, V1, Zminus_mod_idemp_l. reflexivity.
Qed.

Lemma Add_canonical (a b m : list Z) :
  canonical a -> canonical b -> bytes m ->
  length b = length a -> length m = length a ->
  exists s, Add a b m = Some s /\ bytes s /\ length s = length a /\
            be_val s = (be_val a + be_val (zip_with Z.land b m)) mod 256 ^ Z.of_nat (length a).
Proof.
  intros (Ha & _ & HIPa) (Hb & _ & HIPb) Hm Lb Lm.
  unfold Add. rewrite HIPa, HIPb, Lm.
  destruct (Add_loop_spec (length a) a b m [] [] [] eq_refl Lb Lm Ha Hb Hm)
    as (s & Hrun & Hs & Ls & Vs).
  rewrite !app_nil_r in Hrun. eauto.
Qed.

Lemma Substract_canonical (a b m : list Z) :
  canonical a -> canonical b -> bytes m ->
  length b = length a -> length m = length a ->
  exists s, Substract a b m = Some s /\ bytes s /\ length s = length a /\
            be_val s = (be_val a - be_val (zip_with Z.land b m)) mod 256 ^ Z.of_nat (length a).
Proof.
  intros (Ha & _ & HIPa) (Hb & _ & HIPb) Hm Lb Lm.
  unfold Substract. rewrite HIPa, HIPb, Lm.
  destruct (Substract_loop_spec (length a) a b m [] [] [] eq_refl Lb Lm Ha Hb Hm)
    as (s & Hrun & Hs & Ls & Vs).
  rewrite !app_nil_r in Hrun. eauto.
Qed.

Lemma add_sub_mod (v c m : Z) : 0 <= v < m -> ((v + c) mod m - c) mod m = v.
Proof.
  intros H. rewrite Zminus_mod_idemp_l.
  replace (v + c - c) with v by ring. apply Z.mod_small, H.
Qed.

(** C3, as amended. For canonical addresses [a], [b] and a mask [m] of
    one byte length, [Add a b m] returns a sum [s] of that length, and
    [Substract s b m] is [a] bit for bit provided [s] is itself canonical,
    which every 4-byte sum is; a 16-byte sum that is an IPv4-mapped
    address is outside the statement. *)
Theorem Substract_Add (a b m : list Z) :
  canonical a -> canonical b -> bytes m ->
  length b = length a -> length m = length a ->
  exists s, Add a b m = Some s /\ length s = length a /\
            (length a = 4%nat -> canonical s) /\
            (canonical s -> Substract s b m = Some a).
Proof.
  intros Ha Hb Hm Lb Lm.
  destruct (Add_canonical a b m Ha Hb Hm Lb Lm) as (s & Hadd & Hs & Ls & Vs).
  exists s. split; [exact Hadd|]. split; [exact Ls|]. split.
  - intros L4. apply canonical_4; congruence.
  - intros Hcs.
    destruct (Substract_canonical s b m Hcs Hb Hm) as (t & Hsub & Ht & Lt & Vt);
      [congruence | congruence |].
    rewrite Hsub. f_equal. pose proof Ha as (Hba & _ & _).
    apply be_val_inj; auto; [congruence|].
    rewrite Vt, Vs, Ls. apply add_sub_mod, be_val_bound, Hba.
Qed.

Lemma Substract_Add_witness :
  canonical [192; 168; 0; 255] /\ canonical [192; 168; 255; 2] /\ bytes [0; 0; 255; 255] /\
  length [192; 168; 255; 2] = length [192; 168; 0; 255] /\
  length [0; 0; 255; 255] = length [192; 168; 0; 255] /\
  exists s, Add [192; 168; 0; 255] [192; 168; 255; 2] [0; 0; 255; 255] = Some s /\
            canonical s /\
            Substract s [192; 168; 255; 2] [0; 0; 255; 255] = Some [192; 168; 0; 255].
Proof.
  assert (Ha : canonical [192; 168; 0; 255])
    by (apply canonical_4; [apply bytes_check; reflexivity | reflexivity]).
  assert (Hb : canonical [192; 168; 255; 2])
    by (apply canonical_4; [apply bytes_check; reflexivity | reflexivity]).
  assert (Hm : bytes [0; 0; 255; 255]) by (apply bytes_check; reflexivity).
  split; [exact Ha|]. split; [exact Hb|]. split; [exact Hm|].
  split; [reflexivity|]. split; [reflexivity|].
  destruct (Substract_Add _ _ _ Ha Hb Hm eq_refl eq_refl) as (s & HA & _ & H4 & HS).
  exists s. split; [exact HA|]. split; [exact (H4 eq_refl) | exact (HS (H4 eq_refl))].
Defined.

(** C3 as stated fails at [a = ::fffe:ffff:ffff], [b = ::1] and the
    all-ones mask, canonical and 16 bytes long: the sum is the
    IPv4-mapped [::ffff:0.0.0.0], which [Substract] shortens to 4 bytes
    before indexing it at 15, a panic. *)
Lemma Substract_Add_counterexample :
  canonical before_mapped /\ canonical one_v6 /\ bytes (all_bytes 16 255) /\
  length one_v6 = length before_mapped /\
  length (all_bytes 16 255) = length before_mapped /\
  Add before_mapped one_v6 (all_bytes 16 255)
    = Some [0; 0; 0; 0; 0; 0; 0; 0; 0; 0; 255; 255; 0; 0; 0; 0] /\
  Add before_mapped one_v6 (all_bytes 16 255)
    ≫= (fun s => Substract s one_v6 (all_bytes 16 255)) = None.
Proof.
  split; [apply canonical_before_mapped|].
  split; [apply canonical_16; [apply bytes_check; reflexivity | reflexivity | discriminate]|].
  split; [apply bytes_check; reflexivity|].
  repeat split; reflexivity.
Qed.

(** ** And, Or and Xor *)

Lemma bitwise_loop_spec (op : Z -> Z -> Z) (n : nat) :
  forall (i : nat) (a b : list Z),
    (i + n <= length a)%nat -> (i + n <= length b)%nat ->
    bitwise_loop op n i a b
    = Some (take i a ++ zip_with op (take n (drop i a)) (take n (drop i b)) ++ drop (i + n) a).
Proof.
  induction n as [|n IH]; intros i a b La Lb.
  - rewrite Nat.add_0_r. simpl. rewrite take_drop. reflexivity.
  - destruct (lookup_lt_is_Some_2 a i) as [ai Hai]; [lia|].
    destruct (lookup_lt_is_Some_2 b i) as [bi Hbi]; [lia|].
    cbn [bitwise_loop]. rewrite Hai, Hbi. cbn [mbind option_bind].
    rewrite IH by (rewrite ?length_insert; lia).
    f_equal.
    rewrite (take_S_r _ i (op ai bi)) by (apply list_lookup_insert_eq; lia).
    rewrite take_insert_ge by lia.
    rewrite !drop_insert_lt by lia.
    rewrite (drop_S a ai i Hai), (drop_S b bi i Hbi).
    rewrite <- app_assoc. cbn. repeat f_equal. lia.
Qed.

Lemma bitwise_same_length (op : Z -> Z -> Z) (a b : list Z) :
  canonical a -> canonical b -> length b = length a ->
  bitwise_loop op (IPSize (IP b)) 0 (IP a) (IP b) = Some (zip_with op a b).
Proof.
  intros Ha Hb L. pose proof Ha as (_ & _ & ->). pose proof Hb as (_ & _ & ->).
  rewrite IPSize_canonical by assumption.
  rewrite bitwise_loop_spec by lia.
  cbn [take drop app]. rewrite L, !drop_0.
  rewrite firstn_all, <- L, firstn_all.
  rewrite drop_ge by lia. rewrite app_nil_r. reflexivity.
Qed.

Lemma bitwise_longer_first (op : Z -> Z -> Z) (a b : list Z) :
  canonical a -> canonical b -> length a = 16%nat -> length b = 4%nat ->
  bitwise_loop op (IPSize (IP b)) 0 (IP a) (IP b) = Some (zip_with op (take 4 a) b ++ drop 4 a).
Proof.
  intros Ha Hb La Lb. pose proof Ha as (_ & _ & ->). pose proof Hb as (_ & _ & ->).
  rewrite IPSize_canonical by assumption.
  rewrite bitwise_loop_spec by lia.
  cbn [take drop app]. rewrite Lb, !drop_0.
  rewrite <- Lb at 2. rewrite firstn_all. reflexivity.
Qed.

(** C6, as amended. For canonical [a] of 16 bytes and canonical [b] of
    4 bytes, [And a b] (likewise [Or], [Xor]) returns 16 bytes, the
    length of [a]: the first four are [a[i] op b[i]], the other twelve
    are the bytes of [a] unchanged. Nothing is truncated. *)
Theorem bitwise_mixed_length (a b : list Z) :
  canonical a -> canonical b -> length a = 16%nat -> length b = 4%nat ->
  And a b = Some (zip_with Z.land (take 4 a) b ++ drop 4 a) /\
  Or a b = Some (zip_with Z.lor (take 4 a) b ++ drop 4 a) /\
  Xor a b = Some (zip_with Z.lxor (take 4 a) b ++ drop 4 a) /\
  forall r, And a b = Some r \/ Or a b = Some r \/ Xor a b = Some r ->
            length r = length a /\ drop 4 r = drop 4 a.
Proof.
  intros Ha Hb La Lb.
  unfold And, Or, Xor. cbv zeta.
  rewrite !bitwise_longer_first by assumption.
  repeat split; auto;
    destruct H as [H | [H | H]]; injection H as <-;
    rewrite ?length_app, ?length_zip_with, ?length_take, ?length_drop, ?La, ?Lb; try reflexivity;
    rewrite drop_app_length'; auto;
    rewrite length_zip_with, length_take, La, Lb; reflexivity.
Qed.

Lemma bitwise_mixed_length_witness :
  canonical doc_prefix_v6 /\ canonical [255; 0; 255; 0] /\
  length doc_prefix_v6 = 16%nat /\ length [255; 0; 255; 0] = 4%nat /\
  And doc_prefix_v6 [255; 0; 255; 0]
    = Some (zip_with Z.land (take 4 doc_prefix_v6) [255; 0; 255; 0] ++ drop 4 doc_prefix_v6) /\
  Or doc_prefix_v6 [255; 0; 255; 0]
    = Some (zip_with Z.lor (take 4 doc_prefix_v6) [255; 0; 255; 0] ++ drop 4 doc_prefix_v6) /\
  Xor doc_prefix_v6 [255; 0; 255; 0]
    = Some (zip_with Z.lxor (take 4 doc_prefix_v6) [255; 0; 255; 0] ++ drop 4 doc_prefix_v6) /\
  forall r, And doc_prefix_v6 [255; 0; 255; 0] = Some r \/
            Or doc_prefix_v6 [255; 0; 255; 0] = Some r \/
            Xor doc_prefix_v6 [255; 0; 255; 0] = Some r ->
            length r = length doc_prefix_v6 /\ drop 4 r = drop 4 doc_prefix_v6.
Proof.
  assert (Ha : canonical doc_prefix_v6)
    by (apply canonical_16; [apply bytes_check; reflexivity | reflexivity | discriminate]).
  assert (Hb : canonical [255; 0; 255; 0])
    by (apply canonical_4; [apply bytes_check; reflexivity | reflexivity]).
  split; [exact Ha|]. split; [exact Hb|]. split; [reflexivity|]. split; [reflexivity|].
  exact (bitwise_mixed_length _ _ Ha Hb eq_refl eq_refl).
Defined.

(** C6 as stated fails at [a = 2001:db8::] and [b = 255.0.255.0]: the
    results have 16 bytes, not the 4 of [b]. *)
Lemma bitwise_mixed_length_counterexample :
  canonical doc_prefix_v6 /\ canonical [255; 0; 255; 0] /\
  And doc_prefix_v6 [255; 0; 255; 0] = Some [32; 0; 13; 0; 0; 0; 0; 0; 0; 0; 0; 0; 0; 0; 0; 0] /\
  Or doc_prefix_v6 [255; 0; 255; 0] = Some [255; 1; 255; 184; 0; 0; 0; 0; 0; 0; 0; 0; 0; 0; 0; 0] /\
  Xor doc_prefix_v6 [255; 0; 255; 0] = Some [223; 1; 242; 184; 0; 0; 0; 0; 0; 0; 0; 0; 0; 0; 0; 0] /\
  (exists r, And doc_prefix_v6 [255; 0; 255; 0] = Some r /\ length r <> length [255; 0; 255; 0]).
Proof.
  split; [apply canonical_16; [apply bytes_check; reflexivity | reflexivity | discriminate]|].
  split; [apply canonical_4; [apply bytes_check; reflexivity | reflexivity]|].
  repeat split; try reflexivity.
  eexists. split; [reflexivity | discriminate].
Qed.

(** ** Parsing *)

Section Strings.
Variable sep : ascii.

Lemma Split_length (s : string) : length (strings.Split s sep) = S (strings.Count s sep).
Proof.
  induction s as [|c s IH]; [reflexivity|].
  cbn [strings.Split strings.Count]. destruct (Ascii.eqb c sep).
  - cbn [length]. rewrite IH. reflexivity.
  - destruct (strings.Split s sep); [discriminate|]. cbn [length] in *. lia.
Qed.

Lemma Split_no_sep (s : string) : strings.Count s sep = 0%nat -> strings.Split s sep = [s].
Proof.
  induction s as [|c s IH]; [reflexivity|].
  cbn [strings.Split strings.Count]. destruct (Ascii.eqb c sep); [discriminate|].
  intros H. rewrite IH by exact H. reflexivity.
Qed.

Lemma Split_app (a r : string) :
  strings.Count a sep = 0%nat ->
  strings.Split (String.append a (String sep r)) sep = a :: strings.Split r sep.
Proof.
  induction a as [|c a IH]; cbn [String.append strings.Split strings.Count].
  - rewrite Ascii.eqb_refl. reflexivity.
  - destruct (Ascii.eqb c sep); [discriminate|].
    intros H. rewrite IH by exact H. reflexivity.
Qed.

Lemma Count_app (a b : string) :
  strings.Count (String.append a b) sep = (strings.Count a sep + strings.Count b sep)%nat.
Proof.
  induction a as [|c a IH]; [reflexivity|].
  cbn [String.append strings.Count]. rewrite IH. lia.
Qed.

End Strings.

Lemma substring_all (s : string) : String.substring 0 (String.length s) s = s.
Proof. induction s as [|c s IH]; [reflexivity|]. cbn. rewrite IH. reflexivity. Qed.

Lemma from_1 (c : ascii) (s : string) : strings.from 1 (String c s) = s.
Proof. unfold strings.from. cbn. rewrite Nat.sub_0_r. apply substring_all. Qed.

Lemma HasPrefix_cons (c : ascii) (s : string) :
  strings.HasPrefix (String c s) (String c EmptyString) = true.
Proof.
  unfold strings.HasPrefix. cbn [String.prefix].
  destruct (ascii_dec c c); [destruct s; reflexivity | contradiction].
Qed.

Section ParseIPMask.
Variable ParseIP : string -> list Z.
Variable Atoi : string -> option Z.

Lemma ParseIPMask_one_separator (a spec : string) :
  strings.Count a "/" = 0%nat -> strings.Count spec "/" = 0%nat ->
  ParseIP a <> [] ->
  ParseIPMask ParseIP Atoi (String.append a (String "/" spec))
  = let size := Z.of_nat (IPSize (ParseIP a)) * 8 in
    let wildcard := strings.HasPrefix spec "~" in
    let v1 := if wildcard then strings.from 1 spec else spec in
    let mask := match Atoi v1 with
                | Some bits => CIDRMask bits size
                | None => ParseMask ParseIP v1
                end in
    let mask := if wildcard then Complement mask else mask in
    if bool_decide (mask = []) then Error {| Type_ := "Mask"; Text := v1 |}
    else Ok (ParseIP a, mask).
Proof.
  intros Ha Hs Hip. unfold ParseIPMask.
  rewrite Split_app, (Split_no_sep _ spec) by assumption.
  cbn [hd length nth Nat.ltb Nat.leb Nat.eqb].
  rewrite bool_decide_eq_false_2 by exact Hip. reflexivity.
Qed.

Lemma ParseIPMask_Ok_separator (a spec : string) (ip m : list Z) :
  ParseIPMask ParseIP Atoi (String.append a (String "/" spec)) = Ok (ip, m) ->
  strings.Count a "/" = 0%nat /\ strings.Count spec "/" = 0%nat /\ ParseIP a <> [] /\ ip = ParseIP a.
Proof.
  unfold ParseIPMask. intros H.
  pose proof (Split_length "/" (String.append a (String "/" spec))) as L.
  rewrite Count_app in L. cbn [strings.Count] in L. rewrite Ascii.eqb_refl in L.
  destruct (bool_decide _) eqn:E1 in H; [discriminate|].
  destruct (2 <? _)%nat eqn:E2 in H; [discriminate|].
  apply Nat.ltb_ge in E2.
  assert (Ha : strings.Count a "/" = 0%nat) by lia.
  assert (Hs : strings.Count spec "/" = 0%nat) by lia.
  rewrite Split_app in E1, H by exact Ha. cbn [hd] in E1, H.
  apply bool_decide_eq_false_1 in E1.
  repeat split; auto.
  rewrite (Split_no_sep _ spec Hs) in H. cbn [length nth Nat.eqb] in H.
  destruct (bool_decide _) in H; [discriminate|]. injection H as <- _. reflexivity.
Qed.

End ParseIPMask.

(** C5, as amended. For every input with more than one ['/'],
    [ParseIPMask] fails: with an "IP/Mask" error whose text is the whole
    input when the text before the first ['/'] parses as an address, and
    with an "IP address" error whose text is that first segment when it
    does not. It never reports a "Mask" error there. *)
Theorem ParseIPMask_extra_separator
    (ParseIP : string -> list Z) (Atoi : string -> option Z) (addr : string) :
  (1 < strings.Count addr "/")%nat ->
  let v0 := hd EmptyString (strings.Split addr "/") in
  (ParseIP v0 <> [] ->
   ParseIPMask ParseIP Atoi addr = Error {| Type_ := "IP/Mask"; Text := addr |}) /\
  (ParseIP v0 = [] ->
   ParseIPMask ParseIP Atoi addr = Error {| Type_ := "IP address"; Text := v0 |}).
Proof.
  intros H v0. unfold ParseIPMask. fold v0.
  pose proof (Split_length "/" addr) as L.
  split; intros Hip.
  - rewrite bool_decide_eq_false_2 by exact Hip.
    destruct (2 <? _)%nat eqn:E; [reflexivity|].
    apply Nat.ltb_ge in E. lia.
  - rewrite bool_decide_eq_true_2 by exact Hip. reflexivity.
Qed.

Lemma ParseIPMask_extra_separator_witness :
  (1 < strings.Count "192.0.2.0/24/1" "/")%nat /\
  text.ParseIP "192.0.2.0" <> [] /\
  ParseIPMask text.ParseIP text.Atoi "192.0.2.0/24/1"
  = Error {| Type_ := "IP/Mask"; Text := "192.0.2.0/24/1" |}.
Proof.
  assert (H : (1 < strings.Count "192.0.2.0/24/1" "/")%nat) by (cbn; lia).
  assert (Hip : text.ParseIP "192.0.2.0" <> []) by discriminate.
  split; [exact H|]. split; [exact Hip|].
  exact (proj1 (ParseIPMask_extra_separator text.ParseIP text.Atoi "192.0.2.0/24/1" H) Hip).
Defined.

(** C5 as stated fails at ["192.0.2.0/24/1"]: the error has the type
    "IP/Mask" and carries the whole input, not a "Mask" error carrying
    ["24/1"]; and at ["invalid/24/1"], where the error is about the
    address. *)
Lemma ParseIPMask_extra_separator_counterexample :
  (1 < strings.Count "192.0.2.0/24/1" "/")%nat /\
  ParseIPMask text.ParseIP text.Atoi "192.0.2.0/24/1"
    = Error {| Type_ := "IP/Mask"; Text := "192.0.2.0/24/1" |} /\
  ParseIPMask text.ParseIP text.Atoi "192.0.2.0/24/1"
    <> Error {| Type_ := "Mask"; Text := "24/1" |} /\
  ParseIPMask text.ParseIP text.Atoi "invalid/24/1"
    = Error {| Type_ := "IP address"; Text := "invalid" |}.
Proof.
  split; [cbn; lia|]. split; [reflexivity|]. split; [discriminate | reflexivity].
Qed.

(** C9. Let [ParseIP] and [Atoi] read ["192.0.2.10"] and ["12"] as Go
    does. Then [ParseIPMask "192.0.2.10/~12"] succeeds with the mask
    [0.15.255.255]; and whenever ["a/spec"], where [spec] has no leading
    ['~'], parses to the address [ip] and the mask [m] (from a prefix
    length or a literal mask), ["a/~spec"] parses to [ip] and the bitwise
    complement of [m]. *)
Theorem ParseIPMask_complement
    (ParseIP : string -> list Z) (Atoi : string -> option Z) :
  ParseIP "192.0.2.10" = v4InV6Prefix ++ [192; 0; 2; 10] ->
  Atoi "12" = Some 12 ->
  ParseIPMask ParseIP Atoi "192.0.2.10/~12" = Ok (ParseIP "192.0.2.10", [0; 15; 255; 255]) /\
  forall (a spec : string) (ip m : list Z),
    strings.HasPrefix spec "~" = false ->
    ParseIPMask ParseIP Atoi (String.append a (String "/" spec)) = Ok (ip, m) ->
    ParseIPMask ParseIP Atoi (String.append a (String "/" (String "~" spec)))
    = Ok (ip, map byte_not m) /\
    Complement m = map byte_not m /\ length (map byte_not m) = length m.
Proof.
  intros HP HA. split.
  - change "192.0.2.10/~12" with (String.append "192.0.2.10" (String "/" "~12")).
    rewrite (ParseIPMask_one_separator ParseIP Atoi "192.0.2.10" "~12")
      by (try reflexivity; rewrite HP; discriminate).
    cbv zeta. change (strings.HasPrefix "~12" "~") with true. cbv iota.
    rewrite from_1, HA, HP. reflexivity.
  - intros a spec ip m Hspec Hok.
    destruct (ParseIPMask_Ok_separator ParseIP Atoi a spec ip m Hok) as (Ha & Hs & Hip & ->).
    rewrite ParseIPMask_one_separator in Hok by assumption.
    rewrite (ParseIPMask_one_separator ParseIP Atoi a (String "~" spec))
      by (try assumption; cbn [strings.Count Ascii.eqb Bool.eqb]; exact Hs).
    cbv zeta in *. rewrite Hspec in Hok.
    rewrite HasPrefix_cons. cbv iota. rewrite from_1.
    destruct (bool_decide _) eqn:E in Hok; [discriminate|].
    injection Hok as Hm. rewrite Hm in *. apply bool_decide_eq_false_1 in E.
    assert (Hc : Complement m = map byte_not m) by (destruct m; [contradiction | reflexivity]).
    split; [|split; [exact Hc | apply length_map]]. rewrite Hc.
    rewrite bool_decide_eq_false_2; [reflexivity|].
    destruct m; [contradiction | discriminate].
Qed.

Lemma ParseIPMask_complement_witness :
  text.ParseIP "192.0.2.10" = v4InV6Prefix ++ [192; 0; 2; 10] /\
  text.Atoi "12" = Some 12 /\
  ParseIPMask text.ParseIP text.Atoi "192.0.2.10/~12"
    = Ok (text.ParseIP "192.0.2.10", [0; 15; 255; 255]) /\
  strings.HasPrefix "255.240.0.0" "~" = false /\
  ParseIPMask text.ParseIP text.Atoi "192.0.2.10/255.240.0.0"
    = Ok (text.ParseIP "192.0.2.10", [255; 240; 0; 0]) /\
  ParseIPMask text.ParseIP text.Atoi "192.0.2.10/~255.240.0.0"
    = Ok (text.ParseIP "192.0.2.10", [0; 15; 255; 255]).
Proof.
  destruct (ParseIPMask_complement text.ParseIP text.Atoi eq_refl eq_refl) as [H1 H2].
  split; [reflexivity|]. split; [reflexivity|]. split; [exact H1|].
  split; [reflexivity|]. split; [reflexivity|].
  exact (proj1 (H2 "192.0.2.10" "255.240.0.0" _ _ eq_refl eq_refl)).
Defined.

(** ** Wildcards: the code at the inputs where it leaves its documentation *)

(** C1. [FindWildcard] on the three addresses of the repository's own
    test, [192.0.2.134], [192.0.6.6] and [192.0.254.70], parsed as the
    test parses them, returns the wildcard [192.0.2.6 / 0.0.252.64],
    which does not match the first of them: the loop over the extra
    addresses overwrites the wildcard mask found so far with
    [and XOR ip] instead of accumulating it. *)
Theorem FindWildcard_misses_first_address :
  wildcard.FindWildcard (text.ParseIP "192.0.2.134") (text.ParseIP "192.0.6.6")
    [text.ParseIP "192.0.254.70"]
  = Some {| wildcard.ip := [192; 0; 2; 6];
            wildcard.bits := [192; 0; 2; 6];
            wildcard.mask := [255; 255; 3; 191] |} /\
  (w ← wildcard.FindWildcard (text.ParseIP "192.0.2.134") (text.ParseIP "192.0.6.6")
         [text.ParseIP "192.0.254.70"];
   Some (wildcard.WildcardMask w)) = Some [0; 0; 252; 64] /\
  (w ← wildcard.FindWildcard (text.ParseIP "192.0.2.134") (text.ParseIP "192.0.6.6")
         [text.ParseIP "192.0.254.70"];
   wildcard.Matches w (text.ParseIP "192.0.2.134")) = Some false /\
  (w ← wildcard.FindWildcard [192; 0; 2; 134] [192; 0; 6; 6] [[192; 0; 254; 70]];
   wildcard.Matches w [192; 0; 2; 134]) = Some false.
Proof. repeat split; reflexivity. Qed.

(** C2. The wildcard [::fffe:0:0 / ::1:0:0] has one don't-care bit and
    matches two addresses. From [First], one [Next] gives [::ffff:0.0.0.0];
    that address is IPv4-mapped, so [IPSize] of the cursor is 4 from then
    on, [Next] scans bytes 3 to 0 only, where every bit is a care bit,
    and the cursor stays there: after 2 calls it is not back on the
    first address. *)
Theorem Next_stuck_at_mapped_address :
  exists w,
    wildcard.New below_mapped low_bit_of_byte_11 = Some w /\
    dont_care_bits w = 1%nat /\
    wildcard.IP (wildcard.First w) = below_mapped /\
    (w1 ← Next_times 1 (wildcard.First w); Some (wildcard.IP w1))
      = Some [0; 0; 0; 0; 0; 0; 0; 0; 0; 0; 255; 255; 0; 0; 0; 0] /\
    (w2 ← Next_times (2 ^ 1) (wildcard.First w); Some (wildcard.IP w2))
      = Some [0; 0; 0; 0; 0; 0; 0; 0; 0; 0; 255; 255; 0; 0; 0; 0] /\
    (w2 ← Next_times (2 ^ 1) (wildcard.First w); Some (wildcard.IP w2))
      <> Some (wildcard.IP (wildcard.First w)).
Proof. eexists. repeat split; try reflexivity. discriminate. Qed.

(** C4. For the wildcard [2001:db8:: / ::ffff:0.0.0.255], [Last] returns
    the address [2001:dff::], which the wildcard does not match: [Or]
    passes its second operand, here the wildcard mask, through [IP],
    which shortens the IPv4-mapped mask to its last 4 bytes, and ORs
    those onto bytes 0 to 3. *)
Theorem Last_not_matched :
  exists w l,
    wildcard.New doc_prefix_v6 mapped_wildcard_mask = Some w /\
    wildcard.WildcardMask w = mapped_wildcard_mask /\
    wildcard.Last w = Some l /\
    wildcard.IP l = [32; 1; 13; 255; 0; 0; 0; 0; 0; 0; 0; 0; 0; 0; 0; 0] /\
    wildcard.Matches w (wildcard.IP l) = Some false /\
    wildcard.Matches w (wildcard.IP (wildcard.First w)) = Some true.
Proof. do 2 eexists. repeat split; reflexivity. Qed.

(** C10. For the same wildcard, the result [l] of [Last] breaks the
    invariant: its current address ANDed with its care mask is not its
    [bits] field, and [l] does not match its own current address. *)
Theorem Last_breaks_invariant :
  exists w l,
    wildcard.New doc_prefix_v6 mapped_wildcard_mask = Some w /\
    wildcard.Last w = Some l /\
    And (wildcard.ip l) (wildcard.mask l) = Some [32; 1; 13; 255; 0; 0; 0; 0; 0; 0; 0; 0; 0; 0; 0; 0] /\
    wildcard.bits l = [32; 1; 13; 184; 0; 0; 0; 0; 0; 0; 0; 0; 0; 0; 0; 0] /\
    wildcard.Matches l (wildcard.IP l) = Some false.
Proof. do 2 eexists. repeat split; reflexivity. Qed.

(** ** Wildcards: stepping through one byte *)

Lemma next_byte_spec (m b : Z) :
  is_byte m -> is_byte b ->
  is_byte (fst (next_byte 8 0 m b)) /\
  Z.land (fst (next_byte 8 0 m b)) m = Z.land b m /\
  (if snd (next_byte 8 0 m b)
   then dc_value m (fst (next_byte 8 0 m b)) = dc_value m b + 1
   else dc_value m (fst (next_byte 8 0 m b)) = 0 /\
        dc_value m b + 1 = 2 ^ Z.of_nat (dc_count m)).
Proof.
  intros Hm Hb.
  pose proof (byte_forall2
    (fun m b =>
       let r := next_byte 8 0 m b in
       is_byteb (fst r) && (Z.land (fst r) m =? Z.land b m) &&
       (if snd r then dc_value m (fst r) =? dc_value m b + 1
        else (dc_value m (fst r) =? 0) && (dc_value m b + 1 =? 2 ^ Z.of_nat (dc_count m))))
    ltac:(vm_compute; reflexivity) m b Hm Hb) as H.
  cbv zeta in H.
  apply andb_true_iff in H as [H H3]. apply andb_true_iff in H as [H1 H2].
  split; [apply is_byteb_spec, H1|]. split; [apply Z.eqb_eq, H2|].
  destruct (snd (next_byte 8 0 m b)).
  - apply Z.eqb_eq, H3.
  - apply andb_true_iff in H3 as [H3 H4]. split; apply Z.eqb_eq; assumption.
Qed.

Lemma prev_byte_spec (m b : Z) :
  is_byte m -> is_byte b ->
  is_byte (fst (prev_byte 8 0 m b)) /\
  Z.land (fst (prev_byte 8 0 m b)) m = Z.land b m /\
  (if snd (prev_byte 8 0 m b)
   then dc_value m (fst (prev_byte 8 0 m b)) = dc_value m b - 1
   else dc_value m (fst (prev_byte 8 0 m b)) + 1 = 2 ^ Z.of_nat (dc_count m) /\
        dc_value m b = 0).
Proof.
  intros Hm Hb.
  pose proof (byte_forall2
    (fun m b =>
       let r := prev_byte 8 0 m b in
       is_byteb (fst r) && (Z.land (fst r) m =? Z.land b m) &&
       (if snd r then dc_value m (fst r) =? dc_value m b - 1
        else (dc_value m (fst r) + 1 =? 2 ^ Z.of_nat (dc_count m)) && (dc_value m b =? 0)))
    ltac:(vm_compute; reflexivity) m b Hm Hb) as H.
  cbv zeta in H.
  apply andb_true_iff in H as [H H3]. apply andb_true_iff in H as [H1 H2].
  split; [apply is_byteb_spec, H1|]. split; [apply Z.eqb_eq, H2|].
  destruct (snd (prev_byte 8 0 m b)).
  - apply Z.eqb_eq, H3.
  - apply andb_true_iff in H3 as [H3 H4]. split; apply Z.eqb_eq; assumption.
Qed.

Lemma dc_value_bound (m b : Z) :
  is_byte m -> is_byte b -> 0 <= dc_value m b < 2 ^ Z.of_nat (dc_count m).
Proof.
  intros Hm Hb.
  pose proof (byte_forall2
    (fun m b => (0 <=? dc_value m b) && (dc_value m b <? 2 ^ Z.of_nat (dc_count m)))
    ltac:(vm_compute; reflexivity) m b Hm Hb) as H.
  cbv beta in H. lia.
Qed.

(** A byte is its care bits together with its don't-care bits. *)
Lemma dc_expand_value (m b : Z) :
  is_byte m -> is_byte b ->
  Z.lor (Z.land b m) (dc_expand (dc_positions m) (dc_value m b)) = b.
Proof.
  intros Hm Hb. apply Z.eqb_eq.
  apply (byte_forall2
    (fun m b => Z.lor (Z.land b m) (dc_expand (dc_positions m) (dc_value m b)) =? b));
    [vm_compute; reflexivity | |]; assumption.
Qed.

Lemma dc_value_inj (m b1 b2 : Z) :
  is_byte m -> is_byte b1 -> is_byte b2 ->
  Z.land b1 m = Z.land b2 m -> dc_value m b1 = dc_value m b2 -> b1 = b2.
Proof.
  intros Hm H1 H2 Hc Hv.
  rewrite <- (dc_expand_value m b1), <- (dc_expand_value m b2) by assumption.
  rewrite Hc, Hv. reflexivity.
Qed.

Lemma dc_value_care (m b : Z) : is_byte m -> is_byte b -> dc_value m (Z.land b m) = 0.
Proof.
  intros Hm Hb. apply Z.eqb_eq.
  apply (byte_forall2 (fun m b => dc_value m (Z.land b m) =? 0));
    [vm_compute; reflexivity | |]; assumption.
Qed.

Lemma land_land_care (m b : Z) : Z.land (Z.land b m) m = Z.land b m.
Proof. rewrite <- Z.land_assoc, Z.land_diag. reflexivity. Qed.

Lemma ones_byte_not (m : Z) : is_byte m -> ones (byte_not m) = dc_count m.
Proof.
  intros Hm. apply Nat.eqb_eq.
  apply (byte_forall (fun m => Nat.eqb (ones (byte_not m)) (dc_count m)));
    [vm_compute; reflexivity | assumption].
Qed.

(** The highest matching byte: all the don't-care bits set. *)
Lemma lor_not_care (m b : Z) :
  is_byte m -> is_byte b ->
  Z.land (Z.lor (Z.land b m) (byte_not m)) m = Z.land b m /\
  dc_value m (Z.lor (Z.land b m) (byte_not m)) + 1 = 2 ^ Z.of_nat (dc_count m).
Proof.
  intros Hm Hb.
  pose proof (byte_forall2
    (fun m b => (Z.land (Z.lor (Z.land b m) (byte_not m)) m =? Z.land b m) &&
                (dc_value m (Z.lor (Z.land b m) (byte_not m)) + 1 =? 2 ^ Z.of_nat (dc_count m)))
    ltac:(vm_compute; reflexivity) m b Hm Hb) as H.
  cbv beta in H. lia.
Qed.

(** ** Wildcards: stepping through an address *)

Lemma Next_bits_byte (mask : list Z) (i : nat) (m : Z) (n : nat) :
  mask !! i = Some m ->
  forall (j b : Z) (ip : list Z),
    ip !! i = Some b ->
    wildcard.Next_bits n j i mask ip
    = Some (<[i := fst (next_byte n j m b)]> ip, snd (next_byte n j m b)).
Proof.
  intros Hm. induction n as [|n IH]; intros j b ip Hb.
  - cbn. rewrite list_insert_id by exact Hb. reflexivity.
  - cbn [wildcard.Next_bits next_byte]. rewrite Hm. cbn [mbind option_bind].
    destruct (wildcard.bit m j); [apply IH, Hb|].
    rewrite Hb. cbn [mbind option_bind].
    destruct (negb (wildcard.bit b j)); [reflexivity|].
    rewrite (IH _ (Z.land b (byte_not (Z.shiftl 1 j)))).
    + rewrite list_insert_insert_eq. reflexivity.
    + apply list_lookup_insert_eq. eapply lookup_lt_Some, Hb.
Qed.

Lemma Prev_bits_byte (mask : list Z) (i : nat) (m : Z) (n : nat) :
  mask !! i = Some m ->
  forall (j b : Z) (ip : list Z),
    ip !! i = Some b ->
    wildcard.Prev_bits n j i mask ip
    = Some (<[i := fst (prev_byte n j m b)]> ip, snd (prev_byte n j m b)).
Proof.
  intros Hm. induction n as [|n IH]; intros j b ip Hb.
  - cbn. rewrite list_insert_id by exact Hb. reflexivity.
  - cbn [wildcard.Prev_bits prev_byte]. rewrite Hm. cbn [mbind option_bind].
    destruct (wildcard.bit m j); [apply IH, Hb|].
    rewrite Hb. cbn [mbind option_bind].
    destruct (wildcard.bit b j); [reflexivity|].
    rewrite (IH _ (Z.lor b (Z.shiftl 1 j))).
    + rewrite list_insert_insert_eq. reflexivity.
    + apply list_lookup_insert_eq. eapply lookup_lt_Some, Hb.
Qed.

Lemma dc_total_snoc (pm : list Z) (m : Z) :
  dc_total (pm ++ [m]) = (dc_total pm + dc_count m)%nat.
Proof. induction pm as [|m0 pm IH]; cbn [dc_total app]; lia. Qed.

Lemma pow2_pos (n : nat) : 0 < 2 ^ Z.of_nat n.
Proof. apply Z.pow_pos_nonneg; lia. Qed.

Lemma pow2_add (a b : nat) : 2 ^ Z.of_nat (a + b) = 2 ^ Z.of_nat a * 2 ^ Z.of_nat b.
Proof. rewrite Nat2Z.inj_add, Z.pow_add_r by lia. reflexivity. Qed.

Lemma wild_value_snoc (pm pb : list Z) (m b : Z) :
  length pb = length pm ->
  wild_value (pm ++ [m]) (pb ++ [b])
  = wild_value pm pb * 2 ^ Z.of_nat (dc_count m) + dc_value m b.
Proof.
  revert pb. induction pm as [|m0 pm IH]; intros [|b0 pb] L; try discriminate.
  - cbn. lia.
  - cbn [app wild_value]. rewrite IH by (simpl in L; lia).
    rewrite dc_total_snoc, pow2_add. ring.
Qed.

Lemma wild_value_bound (pm pb : list Z) :
  bytes pm -> bytes pb -> length pb = length pm ->
  0 <= wild_value pm pb < 2 ^ Z.of_nat (dc_total pm).
Proof.
  intros Hm. revert pb. induction Hm as [|m pm Hm0 Hm IH]; intros pb Hb L.
  - destruct pb; [|discriminate]. cbn. lia.
  - destruct Hb as [|b pb Hb0 Hb]; [discriminate|].
    cbn [wild_value dc_total]. rewrite pow2_add.
    pose proof (IH pb Hb ltac:(simpl in L; lia)) as B.
    pose proof (dc_value_bound m b Hm0 Hb0) as B0.
    nia.
Qed.

Lemma wild_value_inj (pm b1 b2 : list Z) :
  bytes pm -> bytes b1 -> bytes b2 ->
  length b1 = length pm -> length b2 = length pm ->
  zip_with Z.land b1 pm = zip_with Z.land b2 pm ->
  wild_value pm b1 = wild_value pm b2 ->
  b1 = b2.
Proof.
  intros Hm. revert b1 b2.
  induction Hm as [|m pm Hm0 Hm IH]; intros b1 b2 H1 H2 L1 L2 Hc Hv.
  - destruct b1, b2; try discriminate. reflexivity.
  - destruct H1 as [|x1 b1 Hx1 H1]; [discriminate|].
    destruct H2 as [|x2 b2 Hx2 H2]; [discriminate|].
    cbn [zip_with] in Hc. injection Hc as Hc0 Hc.
    cbn [wild_value] in Hv. simpl in L1, L2.
    pose proof (wild_value_bound pm b1 Hm H1 ltac:(lia)) as B1.
    pose proof (wild_value_bound pm b2 Hm H2 ltac:(lia)) as B2.
    assert (dc_value m x1 = dc_value m x2) by nia.
    f_equal.
    + apply (dc_value_inj m); assumption.
    + apply IH; auto; lia.
Qed.

Lemma Next_loop_spec (i : nat) :
  forall pm pb qm qb : list Z,
    length pm = i -> length pb = i -> bytes pm -> bytes pb ->
    exists pb',
      wildcard.Next_loop i (pm ++ qm) (pb ++ qb) = Some (pb' ++ qb) /\
      bytes pb' /\ length pb' = i /\
      zip_with Z.land pb' pm = zip_with Z.land pb pm /\
      wild_value pm pb' = (wild_value pm pb + 1) mod 2 ^ Z.of_nat (dc_total pm).
Proof.
  induction i as [|i IH]; intros pm pb qm qb Lm Lb Hm Hb.
  - destruct pm, pb; try discriminate. exists []. repeat split; auto.
  - destruct (snoc_length pm i Lm) as (pm0 & m & -> & Lm0).
    destruct (snoc_length pb i Lb) as (pb0 & b & -> & Lb0).
    apply bytes_app in Hm as [Hm0 Hm]. apply (proj1 (Forall_singleton _ _)) in Hm.
    apply bytes_app in Hb as [Hb0 Hb]. apply (proj1 (Forall_singleton _ _)) in Hb.
    cbn [wildcard.Next_loop]. rewrite <- !app_assoc.
    change ([m] ++ qm) with (m :: qm). change ([b] ++ qb) with (b :: qb).
    rewrite (Next_bits_byte _ i m 8 (list_lookup_middle pm0 qm m i (eq_sym Lm0)) 0 b)
      by (apply list_lookup_middle; congruence).
    cbn [mbind option_bind].
    replace (<[i:=fst (next_byte 8 0 m b)]> (pb0 ++ b :: qb))
      with (pb0 ++ fst (next_byte 8 0 m b) :: qb)
      by (rewrite insert_app_r_alt, Lb0, Nat.sub_diag by lia; reflexivity).
    destruct (next_byte_spec m b Hm Hb) as (Hb' & Hcare & Hval).
    pose proof (dc_value_bound m b Hm Hb) as Bv.
    pose proof (dc_value_bound m _ Hm Hb') as Bv'.
    pose proof (wild_value_bound pm0 pb0 Hm0 Hb0 ltac:(congruence)) as Bw.
    pose proof (pow2_pos (dc_total pm0)) as P0.
    pose proof (pow2_pos (dc_count m)) as Pk.
    set (b' := fst (next_byte 8 0 m b)) in *.
    destruct (snd (next_byte 8 0 m b)).
    + exists (pb0 ++ [b']). rewrite <- app_assoc. split; [reflexivity|].
      split; [apply bytes_app; split; auto; apply Forall_singleton, Hb'|].
      split; [rewrite length_app; simpl; lia|].
      rewrite !zip_with_app by congruence. cbn [zip_with]. rewrite Hcare.
      split; [reflexivity|].
      rewrite !wild_value_snoc by congruence.
      rewrite dc_total_snoc, pow2_add, Z.mod_small by nia. lia.
    + destruct Hval as [Hv0 Hvmax].
      destruct (IH pm0 pb0 (m :: qm) (b' :: qb) Lm0 Lb0 Hm0 Hb0)
        as (pb0' & Hrun & Hb0' & L0' & Hc0 & Hv).
      exists (pb0' ++ [b']). rewrite <- app_assoc. split; [exact Hrun|].
      split; [apply bytes_app; split; auto; apply Forall_singleton, Hb'|].
      split; [rewrite length_app; simpl; lia|].
      rewrite !zip_with_app by congruence. cbn [zip_with]. rewrite Hcare, Hc0.
      split; [reflexivity|].
      rewrite !wild_value_snoc by congruence.
      rewrite dc_total_snoc, pow2_add, Hv, Hv0.
      replace (wild_value pm0 pb0 * 2 ^ Z.of_nat (dc_count m) + dc_value m b + 1)
        with ((wild_value pm0 pb0 + 1) * 2 ^ Z.of_nat (dc_count m)) by lia.
      rewrite Z.mul_mod_distr_r by lia. ring.
Qed.

Lemma mod_shift (p r m c : Z) :
  0 < m -> 0 <= r < c -> (p * c + r) mod (m * c) = (p mod m) * c + r.
Proof.
  intros Hm Hr. symmetry.
  pose proof (Z.mod_pos_bound p m Hm) as B.
  apply Z.mod_unique with (q := p / m); [nia|].
  pose proof (Z.div_mod p m) as D. nia.
Qed.

Lemma Prev_loop_spec (i : nat) :
  forall pm pb qm qb : list Z,
    length pm = i -> length pb = i -> bytes pm -> bytes pb ->
    exists pb',
      wildcard.Prev_loop i (pm ++ qm) (pb ++ qb) = Some (pb' ++ qb) /\
      bytes pb' /\ length pb' = i /\
      zip_with Z.land pb' pm = zip_with Z.land pb pm /\
      wild_value pm pb' = (wild_value pm pb - 1) mod 2 ^ Z.of_nat (dc_total pm).
Proof.
  induction i as [|i IH]; intros pm pb qm qb Lm Lb Hm Hb.
  - destruct pm, pb; try discriminate. exists []. repeat split; auto.
  - destruct (snoc_length pm i Lm) as (pm0 & m & -> & Lm0).
    destruct (snoc_length pb i Lb) as (pb0 & b & -> & Lb0).
    apply bytes_app in Hm as [Hm0 Hm]. apply (proj1 (Forall_singleton _ _)) in Hm.
    apply bytes_app in Hb as [Hb0 Hb]. apply (proj1 (Forall_singleton _ _)) in Hb.
    cbn [wildcard.Prev_loop]. rewrite <- !app_assoc.
    change ([m] ++ qm) with (m :: qm). change ([b] ++ qb) with (b :: qb).
    rewrite (Prev_bits_byte _ i m 8 (list_lookup_middle pm0 qm m i (eq_sym Lm0)) 0 b)
      by (apply list_lookup_middle; congruence).
    cbn [mbind option_bind].
    replace (<[i:=fst (prev_byte 8 0 m b)]> (pb0 ++ b :: qb))
      with (pb0 ++ fst (prev_byte 8 0 m b) :: qb)
      by (rewrite insert_app_r_alt, Lb0, Nat.sub_diag by lia; reflexivity).
    destruct (prev_byte_spec m b Hm Hb) as (Hb' & Hcare & Hval).
    pose proof (dc_value_bound m b Hm Hb) as Bv.
    pose proof (dc_value_bound m _ Hm Hb') as Bv'.
    pose proof (wild_value_bound pm0 pb0 Hm0 Hb0 ltac:(congruence)) as Bw.
    pose proof (pow2_pos (dc_total pm0)) as P0.
    pose proof (pow2_pos (dc_count m)) as Pk.
    set (b' := fst (prev_byte 8 0 m b)) in *.
    destruct (snd (prev_byte 8 0 m b)).
    + exists (pb0 ++ [b']). rewrite <- app_assoc. split; [reflexivity|].
      split; [apply bytes_app; split; auto; apply Forall_singleton, Hb'|].
      split; [rewrite length_app; simpl; lia|].
      rewrite !zip_with_app by congruence. cbn [zip_with]. rewrite Hcare.
      split; [reflexivity|].
      rewrite !wild_value_snoc by congruence.
      rewrite dc_total_snoc, pow2_add, Z.mod_small by nia. lia.
    + destruct Hval as [Hvmax Hv0].
      destruct (IH pm0 pb0 (m :: qm) (b' :: qb) Lm0 Lb0 Hm0 Hb0)
        as (pb0' & Hrun & Hb0' & L0' & Hc0 & Hv).
      exists (pb0' ++ [b']). rewrite <- app_assoc. split; [exact Hrun|].
      split; [apply bytes_app; split; auto; apply Forall_singleton, Hb'|].
      split; [rewrite length_app; simpl; lia|].
      rewrite !zip_with_app by congruence. cbn [zip_with]. rewrite Hcare, Hc0.
      split; [reflexivity|].
      rewrite !wild_value_snoc by congruence.
      rewrite dc_total_snoc, pow2_add, Hv, Hv0.
      replace (wild_value pm0 pb0 * 2 ^ Z.of_nat (dc_count m) + 0 - 1)
        with ((wild_value pm0 pb0 - 1) * 2 ^ Z.of_nat (dc_count m) + dc_value m b') by lia.
      rewrite mod_shift by lia. reflexivity.
Qed.

(** ** Regular wildcards *)

Lemma canonical_16_or_4 (x : list Z) :
  bytes x -> (length x = 4 \/ length x = 16)%nat ->
  (length x = 16%nat -> take 12 x <> v4InV6Prefix) -> canonical x.
Proof.
  intros Hb [L | L] H; [apply canonical_4 | apply canonical_16]; auto.
Qed.

Lemma bytes_eqb_spec (a b : list Z) : bytes_eqb a b = true <-> a = b.
Proof.
  unfold bytes_eqb. split.
  - revert b. induction a as [|x a IH]; intros [|y b] H; try discriminate; [reflexivity|].
    cbn in H. apply andb_true_iff in H as [L H]. apply andb_true_iff in H as [E H].
    apply Z.eqb_eq in E. subst y. f_equal. apply IH. rewrite L, H. reflexivity.
  - intros <-. rewrite Nat.eqb_refl. cbn [andb].
    induction a as [|x a IH]; [reflexivity|]. cbn. rewrite Z.eqb_refl. exact IH.
Qed.

Lemma Equal_same_length (a b : list Z) :
  length a = length b -> Equal a b = bool_decide (a = b).
Proof.
  intros L. unfold Equal. rewrite L, Nat.eqb_refl.
  destruct (bytes_eqb a b) eqn:E.
  - apply bytes_eqb_spec in E. rewrite bool_decide_eq_true_2; auto.
  - rewrite bool_decide_eq_false_2; auto. intros H. apply bytes_eqb_spec in H. congruence.
Qed.

Lemma And_canonical (a b : list Z) :
  canonical a -> canonical b -> length b = length a -> And a b = Some (zip_with Z.land a b).
Proof. intros. unfold And. cbv zeta. apply bitwise_same_length; assumption. Qed.

Lemma Or_canonical (a b : list Z) :
  canonical a -> canonical b -> length b = length a -> Or a b = Some (zip_with Z.lor a b).
Proof. intros. unfold Or. cbv zeta. apply bitwise_same_length; assumption. Qed.

Lemma Xor_canonical (a b : list Z) :
  canonical a -> canonical b -> length b = length a -> Xor a b = Some (zip_with Z.lxor a b).
Proof. intros. unfold Xor. cbv zeta. apply bitwise_same_length; assumption. Qed.

Lemma bytes_map_not (l : list Z) : bytes l -> bytes (map byte_not l).
Proof. intros H. apply Forall_map. eapply Forall_impl; [exact H|]. apply byte_not_byte. Qed.

Lemma Complement_map (l : list Z) : Complement l = map byte_not l.
Proof. destruct l; reflexivity. Qed.

Lemma zip_land_idem (a m : list Z) :
  zip_with Z.land (zip_with Z.land a m) m = zip_with Z.land a m.
Proof.
  revert m. induction a as [|x a IH]; intros [|y m]; try reflexivity.
  cbn [zip_with]. rewrite land_land_care, IH. reflexivity.
Qed.

Section Regular.
Variable w : wildcard.Wildcard.
Hypothesis Hreg : regular w.

Lemma regular_bytes_bits : bytes (wildcard.bits w).
Proof.
  destruct Hreg as [(Hi & Hm & _ & _ & ->) _].
  apply bytes_zip_with; auto using land_byte.
Qed.

Lemma regular_length_bits : length (wildcard.bits w) = length (wildcard.ip w).
Proof.
  destruct Hreg as [(_ & _ & _ & L & ->) _].
  rewrite length_zip_with. lia.
Qed.

(** An address with the care bits of [w] is canonical. *)
Lemma regular_matching_canonical (x : list Z) :
  bytes x -> length x = length (wildcard.ip w) ->
  zip_with Z.land x (wildcard.mask w) = wildcard.bits w ->
  canonical x.
Proof.
  intros Hx L Hc. destruct Hreg as [(_ & _ & Hl & _ & _) H16].
  apply canonical_16_or_4; auto; [congruence|].
  intros L16. destruct (H16 ltac:(congruence)) as (_ & _ & C). apply C; auto.
Qed.

Lemma regular_canonical_ip : canonical (wildcard.ip w).
Proof.
  pose proof Hreg as [(Hi & _ & _ & _ & Hb) _].
  apply regular_matching_canonical; auto.
Qed.

Lemma regular_canonical_bits : canonical (wildcard.bits w).
Proof.
  pose proof Hreg as [(Hi & _ & _ & _ & Hb) _].
  apply regular_matching_canonical.
  - apply regular_bytes_bits.
  - apply regular_length_bits.
  - rewrite Hb at 1. rewrite zip_land_idem. symmetry. exact Hb.
Qed.

Lemma regular_canonical_mask : canonical (wildcard.mask w).
Proof.
  destruct Hreg as [(_ & Hm & Hl & L & _) H16].
  apply canonical_16_or_4; auto; [rewrite L; exact Hl|].
  intros L16. destruct (H16 ltac:(congruence)) as (A & _ & _). exact A.
Qed.

Lemma regular_canonical_wildcard_mask : canonical (wildcard.WildcardMask w).
Proof.
  destruct Hreg as [(_ & Hm & Hl & L & _) H16].
  unfold wildcard.WildcardMask. rewrite Complement_map.
  apply canonical_16_or_4.
  - apply bytes_map_not, Hm.
  - rewrite length_map, L. exact Hl.
  - rewrite length_map. intros L16. destruct (H16 ltac:(congruence)) as (_ & B & _). exact B.
Qed.

(** [Matches] on a canonical address of the length of [w]. *)
Lemma regular_Matches (x : list Z) :
  canonical x -> length x = length (wildcard.ip w) ->
  wildcard.Matches w x
  = Some (bool_decide (zip_with Z.land x (wildcard.mask w) = wildcard.bits w)).
Proof.
  intros Hx L. pose proof Hreg as [(_ & _ & _ & Lm & _) _].
  unfold wildcard.Matches.
  rewrite And_canonical by (auto using regular_canonical_mask; congruence).
  cbn [mbind option_bind]. f_equal. apply Equal_same_length.
  rewrite length_zip_with, regular_length_bits. lia.
Qed.

End Regular.

Lemma wild_value_care (mask ip : list Z) :
  bytes mask -> bytes ip -> wild_value mask (zip_with Z.land ip mask) = 0.
Proof.
  intros Hm. revert ip. induction Hm as [|m mask Hm0 Hm IH]; intros ip Hi.
  - destruct ip; reflexivity.
  - destruct Hi as [|b ip Hb Hi]; [reflexivity|].
    cbn [zip_with wild_value]. rewrite dc_value_care, IH by assumption. lia.
Qed.

Lemma dont_care_bits_total (w : wildcard.Wildcard) :
  bytes (wildcard.mask w) -> dont_care_bits w = dc_total (wildcard.mask w).
Proof.
  unfold dont_care_bits, wildcard.WildcardMask. rewrite Complement_map.
  induction 1 as [|m mask Hm _ IH]; [reflexivity|].
  cbn [map foldr dc_total]. rewrite IH, ones_byte_not by assumption. reflexivity.
Qed.

Lemma regular_same_care (w w' : wildcard.Wildcard) :
  regular w ->
  bytes (wildcard.ip w') -> length (wildcard.ip w') = length (wildcard.ip w) ->
  wildcard.mask w' = wildcard.mask w -> wildcard.bits w' = wildcard.bits w ->
  zip_with Z.land (wildcard.ip w') (wildcard.mask w) = wildcard.bits w ->
  regular w'.
Proof.
  intros [(Hi & Hm & Hl & L & Hb) H16] Hi' L' Em Eb Hc.
  split.
  - unfold well_formed. rewrite Em, Eb, L'. repeat split; auto.
  - rewrite Em, Eb, L'. exact H16.
Qed.

Lemma First_regular (w : wildcard.Wildcard) :
  regular w ->
  wildcard.First w
  = {| wildcard.ip := wildcard.bits w; wildcard.bits := wildcard.bits w;
       wildcard.mask := wildcard.mask w |} /\
  regular (wildcard.First w) /\
  wild_value (wildcard.mask w) (wildcard.ip (wildcard.First w)) = 0.
Proof.
  intros Hreg.
  pose proof (regular_canonical_bits w Hreg) as (_ & _ & Eb).
  pose proof (regular_canonical_mask w Hreg) as (_ & _ & Em).
  pose proof Hreg as [(Hi & Hm & _ & _ & Hb) _].
  assert (E : wildcard.First w
              = {| wildcard.ip := wildcard.bits w; wildcard.bits := wildcard.bits w;
                   wildcard.mask := wildcard.mask w |})
    by (unfold wildcard.First; rewrite Eb, Em; reflexivity).
  rewrite E. cbn [wildcard.ip]. split; [reflexivity|]. split.
  - apply (regular_same_care w); cbn [wildcard.ip wildcard.bits wildcard.mask]; auto.
    + apply regular_bytes_bits, Hreg.
    + apply regular_length_bits, Hreg.
    + rewrite Hb at 1. rewrite zip_land_idem. symmetry. exact Hb.
  - rewrite Hb. apply wild_value_care; assumption.
Qed.

Lemma Next_regular (w : wildcard.Wildcard) :
  regular w ->
  exists w',
    wildcard.Next w = Some (w', wildcard.ip w') /\
    wildcard.mask w' = wildcard.mask w /\ wildcard.bits w' = wildcard.bits w /\
    length (wildcard.ip w') = length (wildcard.ip w) /\
    regular w' /\
    wild_value (wildcard.mask w) (wildcard.ip w')
    = (wild_value (wildcard.mask w) (wildcard.ip w) + 1)
        mod 2 ^ Z.of_nat (dc_total (wildcard.mask w)).
Proof.
  intros Hreg. pose proof Hreg as [(Hi & Hm & Hl & L & Hb) _].
  unfold wildcard.Next.
  rewrite (IPSize_canonical _ (regular_canonical_ip w Hreg)).
  destruct (Next_loop_spec (length (wildcard.ip w)) (wildcard.mask w) (wildcard.ip w) [] []
              L eq_refl Hm Hi) as (ip' & Hrun & Hi' & L' & Hc & Hv).
  rewrite !app_nil_r in Hrun. rewrite Hrun. cbn [mbind option_bind].
  exists {| wildcard.ip := ip'; wildcard.bits := wildcard.bits w;
            wildcard.mask := wildcard.mask w |}.
  split; [reflexivity|]. cbn [wildcard.ip wildcard.bits wildcard.mask].
  split; [reflexivity|]. split; [reflexivity|]. split; [exact L'|]. split; [|exact Hv].
  apply (regular_same_care w); cbn [wildcard.ip wildcard.bits wildcard.mask]; auto.
  rewrite Hc. symmetry. exact Hb.
Qed.

Lemma Prev_regular (w : wildcard.Wildcard) :
  regular w ->
  exists w',
    wildcard.Prev w = Some (w', wildcard.ip w') /\
    wildcard.mask w' = wildcard.mask w /\ wildcard.bits w' = wildcard.bits w /\
    length (wildcard.ip w') = length (wildcard.ip w) /\
    regular w' /\
    wild_value (wildcard.mask w) (wildcard.ip w')
    = (wild_value (wildcard.mask w) (wildcard.ip w) - 1)
        mod 2 ^ Z.of_nat (dc_total (wildcard.mask w)).
Proof.
  intros Hreg. pose proof Hreg as [(Hi & Hm & Hl & L & Hb) _].
  unfold wildcard.Prev.
  rewrite (IPSize_canonical _ (regular_canonical_ip w Hreg)).
  destruct (Prev_loop_spec (length (wildcard.ip w)) (wildcard.mask w) (wildcard.ip w) [] []
              L eq_refl Hm Hi) as (ip' & Hrun & Hi' & L' & Hc & Hv).
  rewrite !app_nil_r in Hrun. rewrite Hrun. cbn [mbind option_bind].
  exists {| wildcard.ip := ip'; wildcard.bits := wildcard.bits w;
            wildcard.mask := wildcard.mask w |}.
  split; [reflexivity|]. cbn [wildcard.ip wildcard.bits wildcard.mask].
  split; [reflexivity|]. split; [reflexivity|]. split; [exact L'|]. split; [|exact Hv].
  apply (regular_same_care w); cbn [wildcard.ip wildcard.bits wildcard.mask]; auto.
  rewrite Hc. symmetry. exact Hb.
Qed.

Lemma Next_times_regular (n : nat) :
  forall w, regular w ->
  exists w',
    Next_times n w = Some w' /\
    wildcard.mask w' = wildcard.mask w /\ wildcard.bits w' = wildcard.bits w /\
    length (wildcard.ip w') = length (wildcard.ip w) /\
    regular w' /\
    wild_value (wildcard.mask w) (wildcard.ip w')
    = (wild_value (wildcard.mask w) (wildcard.ip w) + Z.of_nat n)
        mod 2 ^ Z.of_nat (dc_total (wildcard.mask w)).
Proof.
  induction n as [|n IH]; intros w Hreg.
  - exists w. pose proof Hreg as [(Hi & Hm & _ & L & _) _].
    do 4 (split; [reflexivity|]). split; [exact Hreg|].
    rewrite Z.add_0_r, Z.mod_small; [reflexivity|].
    apply wild_value_bound; auto.
  - destruct (Next_regular w Hreg) as (w1 & Hnext & Em & Eb & L1 & Hreg1 & Hv1).
    destruct (IH w1 Hreg1) as (w' & Hrun & Em' & Eb' & L' & Hreg' & Hv').
    exists w'. cbn [Next_times]. rewrite Hnext. cbn [mbind option_bind].
    split; [exact Hrun|]. rewrite Em in *.
    do 3 (split; [congruence|]). split; [exact Hreg'|].
    rewrite Hv', Hv1, Zplus_mod_idemp_l. f_equal. lia.
Qed.

Lemma pow2_nat (k : nat) : Z.of_nat (2 ^ k) = 2 ^ Z.of_nat k.
Proof. rewrite Nat2Z.inj_pow. reflexivity. Qed.

(** Supplement to C2. On a regular wildcard with [k] don't-care bits, the claim holds:
    from [First], [2 ^ k] calls of [Next] succeed and come back to the
    first address; every address visited matches the wildcard; every
    matching address is visited before that; and no address is visited
    twice before that. *)
Theorem Next_cycle_regular (w : wildcard.Wildcard) :
  regular w ->
  let k := dont_care_bits w in
  Next_times (2 ^ k) (wildcard.First w) = Some (wildcard.First w) /\
  (forall n, exists w',
     Next_times n (wildcard.First w) = Some w' /\
     wildcard.Matches w (wildcard.IP w') = Some true) /\
  (forall x, canonical x -> length x = length (wildcard.ip w) ->
             wildcard.Matches w x = Some true ->
             exists n w', (n < 2 ^ k)%nat /\
                          Next_times n (wildcard.First w) = Some w' /\
                          wildcard.IP w' = x) /\
  (forall n1 n2 w1 w2, (n1 < n2 < 2 ^ k)%nat ->
                       Next_times n1 (wildcard.First w) = Some w1 ->
                       Next_times n2 (wildcard.First w) = Some w2 ->
                       wildcard.IP w1 <> wildcard.IP w2).
Proof.
  intros Hreg k.
  destruct (First_regular w Hreg) as (EF & HregF & V0).
  pose proof Hreg as [(Hi & Hm & Hl & L & Hb) _].
  assert (Ek : k = dc_total (wildcard.mask w)) by (apply dont_care_bits_total, Hm).
  assert (EmF : wildcard.mask (wildcard.First w) = wildcard.mask w) by (rewrite EF; reflexivity).
  assert (EbF : wildcard.bits (wildcard.First w) = wildcard.bits w) by (rewrite EF; reflexivity).
  assert (LF : length (wildcard.ip (wildcard.First w)) = length (wildcard.ip w))
    by (rewrite EF; apply regular_length_bits, Hreg).
  pose proof (pow2_pos k) as Pk.
  (* every run of Next from First, with the address it reaches *)
  assert (Hrun : forall n, exists w',
            Next_times n (wildcard.First w) = Some w' /\
            wildcard.mask w' = wildcard.mask w /\ wildcard.bits w' = wildcard.bits w /\
            bytes (wildcard.ip w') /\ length (wildcard.ip w') = length (wildcard.ip w) /\
            zip_with Z.land (wildcard.ip w') (wildcard.mask w) = wildcard.bits w /\
            wild_value (wildcard.mask w) (wildcard.ip w') = Z.of_nat n mod 2 ^ Z.of_nat k).
  { intros n.
    destruct (Next_times_regular n _ HregF) as (w' & Hn & Em & Eb & Ln & Hreg' & Vn).
    exists w'. rewrite EmF, V0, Z.add_0_l, <- Ek in Vn.
    pose proof Hreg' as [(Hi' & _ & _ & _ & Hb') _].
    split; [exact Hn|]. split; [congruence|]. split; [congruence|].
    split; [exact Hi'|]. split; [congruence|]. split; [|exact Vn].
    rewrite <- EmF, <- Em, <- Hb'. congruence. }
  split; [|split; [|split]].
  - destruct (Hrun (2 ^ k)%nat) as (w' & Hn & Em & Eb & Hi' & Ln & Hc & Vn).
    rewrite Hn. f_equal. rewrite pow2_nat, Z.mod_same in Vn by lia.
    assert (Eip : wildcard.ip w' = wildcard.ip (wildcard.First w)).
    { apply (wild_value_inj (wildcard.mask w)); auto; try congruence.
      - pose proof HregF as [(HiF & _) _]. exact HiF.
      - pose proof HregF as [(_ & _ & _ & _ & HbF) _].
        rewrite Hc, <- EbF, HbF, EmF. reflexivity. }
    destruct w' as [i' b' m']. cbn [wildcard.ip wildcard.bits wildcard.mask] in *.
    rewrite EF in *. cbn [wildcard.ip] in Eip. subst. reflexivity.
  - intros n. destruct (Hrun n) as (w' & Hn & Em & Eb & Hi' & Ln & Hc & Vn).
    exists w'. split; [exact Hn|]. unfold wildcard.IP.
    rewrite (regular_Matches w Hreg) by (eauto using regular_matching_canonical).
    rewrite bool_decide_eq_true_2; auto.
  - intros x Hx Lx Hmatch.
    rewrite (regular_Matches w Hreg) in Hmatch by assumption.
    injection Hmatch as Hmatch. apply bool_decide_eq_true_1 in Hmatch.
    pose proof Hx as (Hbx & _ & _).
    pose proof (wild_value_bound (wildcard.mask w) x Hm Hbx ltac:(congruence)) as Bx.
    rewrite <- Ek in Bx.
    destruct (Hrun (Z.to_nat (wild_value (wildcard.mask w) x)))
      as (w' & Hn & Em & Eb & Hi' & Ln & Hc & Vn).
    exists (Z.to_nat (wild_value (wildcard.mask w) x)), w'.
    split; [apply Nat2Z.inj_lt; rewrite pow2_nat; lia|].
    split; [exact Hn|]. unfold wildcard.IP.
    apply (wild_value_inj (wildcard.mask w)); auto; try congruence.
    rewrite Vn, Z2Nat.id, Z.mod_small by lia. reflexivity.
  - intros n1 n2 w1 w2 Hlt H1 H2 E.
    destruct (Hrun n1) as (w1' & Hn1 & _ & _ & _ & _ & _ & V1).
    destruct (Hrun n2) as (w2' & Hn2 & _ & _ & _ & _ & _ & V2).
    rewrite H1 in Hn1. injection Hn1 as <-. rewrite H2 in Hn2. injection Hn2 as <-.
    unfold wildcard.IP in E. rewrite E in V1. rewrite V1 in V2.
    assert (Z.of_nat n2 < 2 ^ Z.of_nat k) by (rewrite <- pow2_nat; lia).
    rewrite !Z.mod_small in V2 by lia. lia.
Qed.

(** ** Regular wildcards: New, Matches, First and Last *)

Lemma byte_not_involutive (b : Z) : byte_not (byte_not b) = b.
Proof.
  unfold byte_not. rewrite Z.lxor_assoc, Z.lxor_nilpotent, Z.lxor_0_r. reflexivity.
Qed.

Lemma map_not_involutive (l : list Z) : map byte_not (map byte_not l) = l.
Proof.
  induction l as [|b l IH]; [reflexivity|].
  cbn [map]. rewrite byte_not_involutive, IH. reflexivity.
Qed.

Lemma zip_lor_not_care (ip mask : list Z) :
  bytes mask -> bytes ip ->
  zip_with Z.land (zip_with Z.lor (zip_with Z.land ip mask) (map byte_not mask)) mask
  = zip_with Z.land ip mask.
Proof.
  intros Hm. revert ip. induction Hm as [|m mask Hm0 Hm IH]; intros ip Hi.
  - destruct ip; reflexivity.
  - destruct Hi as [|b ip Hb Hi]; [reflexivity|].
    cbn [zip_with map]. rewrite IH by assumption.
    rewrite (proj1 (lor_not_care m b Hm0 Hb)). reflexivity.
Qed.

Lemma wild_value_last (ip mask : list Z) :
  bytes mask -> bytes ip -> length ip = length mask ->
  wild_value mask (zip_with Z.lor (zip_with Z.land ip mask) (map byte_not mask)) + 1
  = 2 ^ Z.of_nat (dc_total mask).
Proof.
  intros Hm. revert ip. induction Hm as [|m mask Hm0 Hm IH]; intros ip Hi L.
  - destruct ip; [reflexivity | discriminate].
  - destruct Hi as [|b ip Hb Hi]; [discriminate|].
    cbn [zip_with map wild_value dc_total]. rewrite pow2_add.
    pose proof (IH ip Hi ltac:(simpl in L; lia)) as E.
    pose proof (proj2 (lor_not_care m b Hm0 Hb)) as E0.
    nia.
Qed.

(** [New] on a canonical address and a wildcard mask of its length whose
    complement is not of the IPv4-mapped shape. *)
Lemma New_well_formed (ip wc : list Z) :
  canonical ip -> bytes wc -> length wc = length ip ->
  (length ip = 16%nat -> take 12 (map byte_not wc) <> v4InV6Prefix) ->
  wildcard.New ip wc
  = Some {| wildcard.ip := ip;
            wildcard.bits := zip_with Z.land ip (map byte_not wc);
            wildcard.mask := map byte_not wc |} /\
  well_formed {| wildcard.ip := ip;
                 wildcard.bits := zip_with Z.land ip (map byte_not wc);
                 wildcard.mask := map byte_not wc |}.
Proof.
  intros Hc Hwc L H16. pose proof Hc as (Hi & Hl & EIP).
  assert (Hcm : canonical (map byte_not wc)).
  { apply canonical_16_or_4.
    - apply bytes_map_not, Hwc.
    - rewrite length_map, L. exact Hl.
    - rewrite length_map, L. exact H16. }
  pose proof Hcm as (Hm & _ & EIPm).
  unfold wildcard.New. rewrite Complement_map, EIP, EIPm.
  rewrite And_canonical by (auto; rewrite length_map; exact L).
  split; [reflexivity|].
  unfold well_formed. cbn [wildcard.ip wildcard.bits wildcard.mask].
  rewrite length_map. auto.
Qed.

Lemma well_formed_4_regular (w : wildcard.Wildcard) :
  well_formed w -> length (wildcard.ip w) = 4%nat -> regular w.
Proof. intros H L. split; [exact H|]. intros L16. rewrite L in L16. discriminate. Qed.

Lemma Last_regular (w : wildcard.Wildcard) :
  regular w ->
  exists l,
    wildcard.Last w = Some l /\
    wildcard.mask l = wildcard.mask w /\ wildcard.bits l = wildcard.bits w /\
    regular l /\
    wild_value (wildcard.mask w) (wildcard.ip l) + 1
    = 2 ^ Z.of_nat (dc_total (wildcard.mask w)).
Proof.
  intros Hreg. pose proof Hreg as [(Hi & Hm & Hl & L & Hb) _].
  pose proof (regular_canonical_bits w Hreg) as Hcb.
  pose proof (regular_canonical_mask w Hreg) as (_ & _ & Em).
  pose proof (regular_canonical_wildcard_mask w Hreg) as Hcw.
  pose proof Hcb as (_ & _ & Eb).
  unfold wildcard.Last.
  rewrite Or_canonical
    by (auto; unfold wildcard.WildcardMask in *; rewrite Complement_map, length_map,
          (regular_length_bits w Hreg); exact L).
  cbn [mbind option_bind]. rewrite Eb, Em, Complement_map.
  eexists. split; [reflexivity|]. cbn [wildcard.ip wildcard.bits wildcard.mask].
  split; [reflexivity|]. split; [reflexivity|]. split.
  - apply (regular_same_care w); cbn [wildcard.ip wildcard.bits wildcard.mask]; auto.
    + apply bytes_zip_with; auto using lor_byte, bytes_map_not.
      apply regular_bytes_bits, Hreg.
    + rewrite length_zip_with, length_map, (regular_length_bits w Hreg). lia.
    + rewrite Hb. apply zip_lor_not_care; assumption.
  - rewrite Hb. apply wild_value_last; auto.
Qed.

(** Supplement to C4. On a regular wildcard the claim holds: [Matches] on a canonical
    address of its length tests [x AND mask = bits], and the addresses of
    [First] and [Last] match. *)
Theorem Matches_regular (w : wildcard.Wildcard) :
  regular w ->
  (forall x, canonical x -> length x = length (wildcard.ip w) ->
     (wildcard.Matches w x = Some true <->
      zip_with Z.land x (wildcard.mask w) = wildcard.bits w) /\
     (wildcard.Matches w x = Some false <->
      zip_with Z.land x (wildcard.mask w) <> wildcard.bits w)) /\
  wildcard.Matches w (wildcard.IP (wildcard.First w)) = Some true /\
  (exists l, wildcard.Last w = Some l /\
             wildcard.Matches w (wildcard.IP l) = Some true).
Proof.
  intros Hreg. split; [|split].
  - intros x Hx L. rewrite (regular_Matches w Hreg) by assumption.
    split; (split; [intros H; injection H as H|intros H; f_equal]).
    + apply bool_decide_eq_true in H. exact H.
    + apply bool_decide_eq_true. exact H.
    + apply bool_decide_eq_false in H. exact H.
    + apply bool_decide_eq_false. exact H.
  - destruct (Next_cycle_regular w Hreg) as (_ & Hvisit & _).
    destruct (Hvisit 0%nat) as (w' & Hn & Hm). cbn in Hn. injection Hn as <-. exact Hm.
  - destruct (Last_regular w Hreg) as (l & Hl & Em & Eb & Hregl & _).
    exists l. split; [exact Hl|].
    pose proof Hregl as [(Hil & _ & _ & Ll & Hbl) _].
    pose proof Hreg as [(_ & _ & _ & L & _) _].
    unfold wildcard.IP.
    rewrite (regular_Matches w Hreg).
    + rewrite bool_decide_eq_true_2; [reflexivity|]. rewrite <- Em, <- Eb. symmetry. exact Hbl.
    + apply (regular_canonical_ip l Hregl).
    + congruence.
Qed.

(** Supplement to C10. On regular wildcards the claim holds: [New] establishes
    [ip AND mask = bits] whenever it returns, [First] and [Last] return
    regular wildcards, and [Next] and [Prev] return, keep [bits] and
    [mask], change no care bit of the address and leave the wildcard
    regular, so that it matches its current address. *)
Theorem invariant_regular :
  (forall ip wc w, wildcard.New ip wc = Some w ->
     And (wildcard.ip w) (wildcard.mask w) = Some (wildcard.bits w)) /\
  (forall w, regular w ->
     wildcard.Matches w (wildcard.IP w) = Some true /\
     regular (wildcard.First w) /\
     (exists l, wildcard.Last w = Some l /\ regular l) /\
     (exists w', wildcard.Next w = Some (w', wildcard.ip w') /\ regular w' /\
                 wildcard.bits w' = wildcard.bits w /\ wildcard.mask w' = wildcard.mask w /\
                 zip_with Z.land (wildcard.ip w') (wildcard.mask w)
                 = zip_with Z.land (wildcard.ip w) (wildcard.mask w)) /\
     (exists w', wildcard.Prev w = Some (w', wildcard.ip w') /\ regular w' /\
                 wildcard.bits w' = wildcard.bits w /\ wildcard.mask w' = wildcard.mask w /\
                 zip_with Z.land (wildcard.ip w') (wildcard.mask w)
                 = zip_with Z.land (wildcard.ip w) (wildcard.mask w))).
Proof.
  split.
  - intros ip wc w H. unfold wildcard.New in H.
    destruct (And (IP ip) (IP (Complement wc))) as [b|] eqn:E; [|discriminate].
    cbn in H. injection H as <-. exact E.
  - intros w Hreg. pose proof Hreg as [(_ & _ & _ & _ & Hb) _].
    split; [|split; [|split; [|split]]].
    + unfold wildcard.IP.
      rewrite (regular_Matches w Hreg) by (auto using regular_canonical_ip).
      rewrite bool_decide_eq_true_2; auto.
    + apply First_regular, Hreg.
    + destruct (Last_regular w Hreg) as (l & Hl & _ & _ & Hregl & _). eauto.
    + destruct (Next_regular w Hreg) as (w' & Hn & Em & Eb & _ & Hreg' & _).
      exists w'. pose proof Hreg' as [(_ & _ & _ & _ & Hb') _].
      split; [exact Hn|]. split; [exact Hreg'|]. split; [exact Eb|]. split; [exact Em|].
      rewrite Em in Hb'. rewrite <- Hb', Eb. exact Hb.
    + destruct (Prev_regular w Hreg) as (w' & Hn & Em & Eb & _ & Hreg' & _).
      exists w'. pose proof Hreg' as [(_ & _ & _ & _ & Hb') _].
      split; [exact Hn|]. split; [exact Hreg'|]. split; [exact Eb|]. split; [exact Em|].
      rewrite Em in Hb'. rewrite <- Hb', Eb. exact Hb.
Qed.

(** ** FindWildcard on two addresses *)

Lemma agree_byte (a b : Z) :
  is_byte a -> is_byte b ->
  Z.land a (byte_not (Z.lxor a b)) = Z.land (Z.land a b) (byte_not (Z.lxor a b)) /\
  Z.land b (byte_not (Z.lxor a b)) = Z.land (Z.land a b) (byte_not (Z.lxor a b)).
Proof.
  intros Ha Hb.
  pose proof (byte_forall2
    (fun a b =>
       (Z.land a (byte_not (Z.lxor a b)) =? Z.land (Z.land a b) (byte_not (Z.lxor a b))) &&
       (Z.land b (byte_not (Z.lxor a b)) =? Z.land (Z.land a b) (byte_not (Z.lxor a b))))
    ltac:(vm_compute; reflexivity) a b Ha Hb) as H.
  cbv beta in H. lia.
Qed.

Lemma agree_bytes (a b : list Z) :
  bytes a -> bytes b ->
  zip_with Z.land a (map byte_not (zip_with Z.lxor a b))
  = zip_with Z.land (zip_with Z.land a b) (map byte_not (zip_with Z.lxor a b)) /\
  zip_with Z.land b (map byte_not (zip_with Z.lxor a b))
  = zip_with Z.land (zip_with Z.land a b) (map byte_not (zip_with Z.lxor a b)).
Proof.
  intros Ha. revert b. induction Ha as [|x a Hx Ha IH]; intros b Hb.
  - split; [reflexivity|]. destruct b; reflexivity.
  - destruct Hb as [|y b Hy Hb]; [split; reflexivity|].
    cbn [zip_with map]. destruct (IH b Hb) as [E1 E2].
    destruct (agree_byte x y Hx Hy) as [F1 F2].
    rewrite E1, E2, F1, F2. split; reflexivity.
Qed.

(** Supplement to C1. With exactly two canonical addresses of one
    length the claim holds, provided that, for 16-byte addresses, neither their AND nor
    the complement of their XOR has the IPv4-mapped shape: the wildcard
    of [FindWildcard] matches both. *)
Theorem FindWildcard_two (a b : list Z) :
  canonical a -> canonical b -> length b = length a ->
  (length a = 16%nat ->
   take 12 (zip_with Z.land a b) <> v4InV6Prefix /\
   take 12 (map byte_not (zip_with Z.lxor a b)) <> v4InV6Prefix) ->
  exists w,
    wildcard.FindWildcard a b [] = Some w /\
    wildcard.WildcardMask w = zip_with Z.lxor a b /\
    wildcard.Matches w a = Some true /\ wildcard.Matches w b = Some true.
Proof.
  intros Ha Hb L H16. pose proof Ha as (Hba & Hla & _). pose proof Hb as (Hbb & _ & _).
  set (A := zip_with Z.land a b). set (X := zip_with Z.lxor a b).
  assert (HbA : bytes A) by (apply bytes_zip_with; auto using land_byte).
  assert (HbX : bytes X) by (apply bytes_zip_with; auto using lxor_byte).
  assert (LA : length A = length a) by (unfold A; rewrite length_zip_with; lia).
  assert (LX : length X = length a) by (unfold X; rewrite length_zip_with; lia).
  assert (HcA : canonical A).
  { apply canonical_16_or_4; auto; [rewrite LA; exact Hla|].
    rewrite LA. intros L16. apply H16, L16. }
  assert (HcM : canonical (map byte_not X)).
  { apply canonical_16_or_4; [apply bytes_map_not, HbX | rewrite length_map, LX; exact Hla |].
    rewrite length_map, LX. intros L16. apply H16, L16. }
  destruct (New_well_formed A X HcA HbX ltac:(congruence)) as [HNew Hwf].
  { rewrite LA. intros L16. apply H16, L16. }
  eexists. split; [|split; [|split]].
  - unfold wildcard.FindWildcard, wildcard.findWildcard.
    rewrite And_canonical, Xor_canonical by assumption.
    cbn [mbind option_bind wildcard.FindWildcard_loop]. exact HNew.
  - unfold wildcard.WildcardMask. cbn [wildcard.mask].
    rewrite Complement_map. apply map_not_involutive.
  - unfold wildcard.Matches. cbn [wildcard.mask wildcard.bits].
    rewrite And_canonical by (auto; rewrite length_map; congruence).
    cbn [mbind option_bind]. f_equal.
    rewrite Equal_same_length by (rewrite !length_zip_with, !length_map; lia).
    apply bool_decide_eq_true. apply (agree_bytes a b Hba Hbb).
  - unfold wildcard.Matches. cbn [wildcard.mask wildcard.bits].
    rewrite And_canonical by (auto; rewrite length_map; congruence).
    cbn [mbind option_bind]. f_equal.
    rewrite Equal_same_length by (rewrite !length_zip_with, !length_map; lia).
    apply bool_decide_eq_true. apply (agree_bytes a b Hba Hbb).
Qed.

(** ** Regular wildcards exist *)

(** Every wildcard that [New] builds from a 4-byte address and a 4-byte
    wildcard mask is regular: for IPv4 the supplements above hold
    without a side condition. *)
Theorem New_regular_4 (ip wc : list Z) :
  bytes ip -> bytes wc -> length ip = 4%nat -> length wc = 4%nat ->
  exists w, wildcard.New ip wc = Some w /\ regular w /\
            wildcard.ip w = ip /\ wildcard.WildcardMask w = wc.
Proof.
  intros Hi Hwc Li Lwc.
  destruct (New_well_formed ip wc (canonical_4 ip Hi Li) Hwc ltac:(congruence)) as [HNew Hwf].
  { rewrite Li. discriminate. }
  eexists. split; [exact HNew|]. split; [|split].
  - apply well_formed_4_regular; [exact Hwf | exact Li].
  - reflexivity.
  - unfold wildcard.WildcardMask. cbn [wildcard.mask].
    rewrite Complement_map. apply map_not_involutive.
Qed.

(** The wildcard [192.0.2.128 / 0.0.0.254] of the documentation of
    [Next]: 7 don't-care bits, a cycle of 128 addresses. *)
Example Next_cycle_v4 :
  exists w, wildcard.New [192; 0; 2; 128] [0; 0; 0; 254] = Some w /\
            regular w /\ dont_care_bits w = 7%nat /\
            Next_times (2 ^ 7) (wildcard.First w) = Some (wildcard.First w).
Proof.
  destruct (New_regular_4 [192; 0; 2; 128] [0; 0; 0; 254]) as (w & HNew & Hreg & _ & Hwc);
    try reflexivity; try (apply bytes_check; reflexivity).
  exists w. split; [exact HNew|]. split; [exact Hreg|].
  assert (Hk : dont_care_bits w = 7%nat) by (unfold dont_care_bits; rewrite Hwc; reflexivity).
  split; [exact Hk|].
  rewrite <- Hk. apply (Next_cycle_regular w Hreg).
Qed.

(** A regular 16-byte wildcard: [2001:db8:: / ::fffe], of the
    repository's tests. *)
Example regular_v6 :
  exists w, wildcard.New doc_prefix_v6 [0; 0; 0; 0; 0; 0; 0; 0; 0; 0; 0; 0; 0; 0; 255; 254] = Some w /\
            regular w /\ dont_care_bits w = 15%nat.
Proof.
  eexists. split; [reflexivity|]. split; [|reflexivity].
  split.
  - unfold well_formed. cbn [wildcard.ip wildcard.bits wildcard.mask].
    split; [apply bytes_check; reflexivity|].
    split; [apply bytes_check; reflexivity|].
    split; [right; reflexivity|]. split; reflexivity.
  - intros _. cbn [wildcard.ip wildcard.bits wildcard.mask].
    split; [discriminate|]. split; [discriminate|].
    intros x Hx Lx Hc Hp.
    do 16 (destruct x as [|? x]; [discriminate Lx|]).
    injection Hp as -> _. cbn in Hc. discriminate Hc.
Qed.

(** * Further properties of the code *)

(** ** Canonical form *)

Lemma To4_length (x y : list Z) : To4 x = Some y -> length y = 4%nat.
Proof.
  unfold To4. destruct (Nat.eqb (length x) IPv4len) eqn:E4.
  - intros H. injection H as <-. apply Nat.eqb_eq in E4. exact E4.
  - destruct (Nat.eqb (length x) IPv6len) eqn:E16; cbn [andb]; [|discriminate].
    destruct (_ && _); [|discriminate].
    intros H. injection H as <-. apply Nat.eqb_eq in E16.
    rewrite length_drop, E16. reflexivity.
Qed.

Lemma IP_cases (x : list Z) :
  (IP x = x /\ (length x = 4%nat \/ To4 x = None)) \/
  (length x = 16%nat /\ take 12 x = v4InV6Prefix /\ IP x = drop 12 x).
Proof.
  unfold IP, CopyIP. cbn [app].
  destruct (To4 x) as [y|] eqn:E; [|left; auto].
  assert (Hs : is_Some (To4 x)) by (rewrite E; eauto).
  unfold To4 in E.
  destruct (Nat.eqb_spec (length x) IPv4len) as [L|L].
  - injection E as <-. left. auto.
  - destruct (Nat.eqb_spec (length x) IPv6len) as [L16|L16]; cbn [andb] in E; [|discriminate].
    destruct (_ && _) in E; [|discriminate]. injection E as <-.
    right. split; [exact L16|]. split; [apply To4_16; assumption | reflexivity].
Qed.

Lemma IP_idem (x : list Z) : IP (IP x) = IP x.
Proof.
  destruct (IP_cases x) as [[E _] | (L & _ & E)]; rewrite E; [exact E|].
  apply IP_length4. rewrite length_drop, L. reflexivity.
Qed.

(** X1. [IP] is idempotent: the canonical form of an address is
    canonical, and [IPVersion] and [IPSize] do not tell an address from
    its canonical form. *)
Theorem IP_idempotent (x : list Z) :
  IP (IP x) = IP x /\ IPVersion (IP x) = IPVersion x /\ IPSize (IP x) = IPSize x.
Proof.
  unfold IPSize, IPVersion. rewrite !IP_idem. auto.
Qed.

(** X2. For an address of 4 or 16 bytes, the canonical form is the same
    address for [net.IP.Equal], and its length is [IPSize] of the
    address: 4 for a 4-byte or IPv4-mapped address, 16 otherwise. *)
Theorem IP_Equal (x : list Z) :
  (length x = 4 \/ length x = 16)%nat ->
  Equal (IP x) x = true /\ length (IP x) = IPSize x /\
  (IPVersion x = 4 <-> length x = 4%nat \/ take 12 x = v4InV6Prefix).
Proof.
  intros L.
  assert (Hrefl : forall l, bytes_eqb l l = true) by (intros l; apply bytes_eqb_spec; reflexivity).
  unfold IPSize, IPVersion.
  destruct (IP_cases x) as [[E Hx] | (L16 & Hp & E)]; rewrite E.
  - split; [unfold Equal; rewrite Nat.eqb_refl; apply Hrefl|].
    destruct L as [L | L]; rewrite L; cbn.
    + split; [reflexivity|]. split; auto.
    + split; [reflexivity|]. split; [discriminate|].
      intros [H | H]; [discriminate|].
      destruct Hx as [Hx | Hx]; [congruence|].
      apply To4_16 in H; [|exact L]. rewrite Hx in H. destruct H; discriminate.
  - rewrite length_drop, L16. cbn. split.
    + unfold Equal. rewrite length_drop, L16. cbn. rewrite Hp, !Hrefl. reflexivity.
    + split; [reflexivity|]. split; auto.
Qed.

Lemma IP_Equal_witness :
  (length (v4InV6Prefix ++ [192; 0; 2; 1]) = 4%nat \/
   length (v4InV6Prefix ++ [192; 0; 2; 1]) = 16%nat) /\
  Equal (IP (v4InV6Prefix ++ [192; 0; 2; 1])) (v4InV6Prefix ++ [192; 0; 2; 1]) = true /\
  length (IP (v4InV6Prefix ++ [192; 0; 2; 1])) = IPSize (v4InV6Prefix ++ [192; 0; 2; 1]) /\
  (IPVersion (v4InV6Prefix ++ [192; 0; 2; 1]) = 4 <->
   length (v4InV6Prefix ++ [192; 0; 2; 1]) = 4%nat \/
   take 12 (v4InV6Prefix ++ [192; 0; 2; 1]) = v4InV6Prefix).
Proof.
  split; [right; reflexivity|].
  exact (IP_Equal (v4InV6Prefix ++ [192; 0; 2; 1]) (or_intror eq_refl)).
Defined.

(** ** NextIP and PrevIP out of their domain *)

Lemma incr_loop_runs (i : nat) :
  forall ip, (incr_loop i ip = None <-> (length ip < i)%nat) /\
             (forall ip', incr_loop i ip = Some ip' -> length ip' = length ip).
Proof.
  induction i as [|i IH]; intros ip.
  - cbn. split; [split; [discriminate | lia]|]. intros ip' H. injection H as <-. reflexivity.
  - cbn [incr_loop]. destruct (ip !! i) as [b|] eqn:E; cbn [mbind option_bind].
    + apply lookup_lt_Some in E.
      destruct (negb ((b + 1) mod 256 =? 0)).
      * split; [split; [discriminate | lia]|].
        intros ip' H. injection H as <-. apply length_insert.
      * destruct (IH (<[i:=(b + 1) mod 256]> ip)) as [H1 H2].
        rewrite length_insert in H1, H2. split; [|exact H2].
        rewrite H1. lia.
    + apply lookup_ge_None in E. split; [split; [lia | reflexivity]|]. discriminate.
Qed.

Lemma decr_loop_runs (i : nat) :
  forall ip, (decr_loop i ip = None <-> (length ip < i)%nat) /\
             (forall ip', decr_loop i ip = Some ip' -> length ip' = length ip).
Proof.
  induction i as [|i IH]; intros ip.
  - cbn. split; [split; [discriminate | lia]|]. intros ip' H. injection H as <-. reflexivity.
  - cbn [decr_loop]. destruct (ip !! i) as [b|] eqn:E; cbn [mbind option_bind].
    + apply lookup_lt_Some in E.
      destruct (negb ((b - 1) mod 256 =? 255)).
      * split; [split; [discriminate | lia]|].
        intros ip' H. injection H as <-. apply length_insert.
      * destruct (IH (<[i:=(b - 1) mod 256]> ip)) as [H1 H2].
        rewrite length_insert in H1, H2. split; [|exact H2].
        rewrite H1. lia.
    + apply lookup_ge_None in E. split; [split; [lia | reflexivity]|]. discriminate.
Qed.

Lemma IPSize_short (x : list Z) :
  (length (IP x) < IPSize (IP x))%nat <-> (length x <> 4 /\ length x < 16)%nat.
Proof.
  replace (IPSize (IP x)) with (IPSize x)
    by (unfold IPSize, IPVersion; rewrite IP_idem; reflexivity).
  unfold IPSize, IPVersion.
  destruct (IP_cases x) as [[E Hx] | (L16 & Hp & E)]; rewrite E.
  - destruct (Nat.eqb_spec (length x) IPv4len) as [L|L]; cbn; unfold IPv4len, IPv6len in *; lia.
  - rewrite length_drop, L16. unfold IPv4len, IPv6len. cbn. lia.
Qed.

(** X3. [NextIP] and [PrevIP] panic (index out of range) exactly on the
    inputs shorter than 16 bytes that are not 4 bytes long, the [nil]
    address among them; on every other input they return an address. *)
Theorem NextIP_PrevIP_panic (x : list Z) :
  (NextIP x = None <-> (length x <> 4 /\ length x < 16)%nat) /\
  (PrevIP x = None <-> (length x <> 4 /\ length x < 16)%nat).
Proof.
  unfold NextIP, PrevIP. cbv zeta.
  rewrite (proj1 (incr_loop_runs _ _)), (proj1 (decr_loop_runs _ _)), IPSize_short.
  split; reflexivity.
Qed.

(** ** Complement *)

(** X4. On a mask of bytes [Complement] is an involution that keeps the
    length; the complement of the [nil] mask is [nil]. *)
Theorem Complement_involutive (m : list Z) :
  bytes m ->
  Complement (Complement m) = m /\ length (Complement m) = length m /\
  bytes (Complement m) /\ (Complement m = [] <-> m = []).
Proof.
  intros Hm. rewrite !Complement_map, map_not_involutive, length_map.
  split; [reflexivity|]. split; [reflexivity|]. split; [apply bytes_map_not, Hm|].
  destruct m; cbn; split; congruence.
Qed.

Lemma Complement_involutive_witness :
  bytes [255; 255; 254; 0] /\
  Complement (Complement [255; 255; 254; 0]) = [255; 255; 254; 0] /\
  length (Complement [255; 255; 254; 0]) = length [255; 255; 254; 0] /\
  bytes (Complement [255; 255; 254; 0]) /\
  (Complement [255; 255; 254; 0] = [] <-> [255; 255; 254; 0] = []).
Proof.
  assert (H : bytes [255; 255; 254; 0]) by (apply bytes_check; reflexivity).
  split; [exact H | exact (Complement_involutive _ H)].
Defined.

(** ** Add and Substract as arithmetic *)

Lemma pow256_pow2 (n : nat) : 256 ^ Z.of_nat n = 2 ^ (8 * Z.of_nat n).
Proof. change 256 with (2 ^ 8). rewrite <- Z.pow_mul_r by lia. reflexivity. Qed.

(** X5. On canonical addresses [a], [b] and a mask [m] of one length
    [n], [Add] and [Substract] return the address of that length whose
    big-endian value is the value of [a] plus, or minus, the value of
    [b AND m], modulo [2 ^ (8 * n)]: carries and borrows cross the byte
    boundaries and the top wraps silently. *)
Theorem Add_Substract_value (a b m : list Z) :
  canonical a -> canonical b -> bytes m ->
  length b = length a -> length m = length a ->
  exists s d,
    Add a b m = Some s /\ Substract a b m = Some d /\
    bytes s /\ bytes d /\ length s = length a /\ length d = length a /\
    be_val s = (be_val a + be_val (zip_with Z.land b m)) mod 2 ^ (8 * Z.of_nat (length a)) /\
    be_val d = (be_val a - be_val (zip_with Z.land b m)) mod 2 ^ (8 * Z.of_nat (length a)).
Proof.
  intros Ha Hb Hm Lb Lm.
  destruct (Add_canonical a b m Ha Hb Hm Lb Lm) as (s & Hs & Bs & Ls & Vs).
  destruct (Substract_canonical a b m Ha Hb Hm Lb Lm) as (d & Hd & Bd & Ld & Vd).
  exists s, d. rewrite <- pow256_pow2. auto 10.
Qed.

Lemma Add_Substract_value_witness :
  canonical [192; 0; 2; 255] /\ canonical [0; 0; 1; 2] /\ bytes [0; 0; 1; 255] /\
  length [0; 0; 1; 2] = length [192; 0; 2; 255] /\
  length [0; 0; 1; 255] = length [192; 0; 2; 255] /\
  exists s d,
    Add [192; 0; 2; 255] [0; 0; 1; 2] [0; 0; 1; 255] = Some s /\
    Substract [192; 0; 2; 255] [0; 0; 1; 2] [0; 0; 1; 255] = Some d /\
    bytes s /\ bytes d /\
    length s = length [192; 0; 2; 255] /\ length d = length [192; 0; 2; 255] /\
    be_val s = (be_val [192; 0; 2; 255] + be_val (zip_with Z.land [0; 0; 1; 2] [0; 0; 1; 255]))
                 mod 2 ^ (8 * Z.of_nat (length [192; 0; 2; 255])) /\
    be_val d = (be_val [192; 0; 2; 255] - be_val (zip_with Z.land [0; 0; 1; 2] [0; 0; 1; 255]))
                 mod 2 ^ (8 * Z.of_nat (length [192; 0; 2; 255])).
Proof.
  assert (Ha : canonical [192; 0; 2; 255])
    by (apply canonical_4; [apply bytes_check; reflexivity | reflexivity]).
  assert (Hb : canonical [0; 0; 1; 2])
    by (apply canonical_4; [apply bytes_check; reflexivity | reflexivity]).
  assert (Hm : bytes [0; 0; 1; 255]) by (apply bytes_check; reflexivity).
  split; [exact Ha|]. split; [exact Hb|]. split; [exact Hm|].
  split; [reflexivity|]. split; [reflexivity|].
  exact (Add_Substract_value _ _ _ Ha Hb Hm eq_refl eq_refl).
Defined.

Lemma sub_add_mod (v c m : Z) : 0 <= v < m -> ((v - c) mod m + c) mod m = v.
Proof.
  intros H. rewrite Zplus_mod_idemp_l.
  replace (v - c + c) with v by ring. apply Z.mod_small, H.
Qed.

(** X6. Addition undoes subtraction: on canonical [a], [b] and a mask
    [m] of one length, [Add (Substract a b m) b m] is [a], provided the
    difference is itself canonical, which every 4-byte one is. *)
Theorem Add_Substract (a b m : list Z) :
  canonical a -> canonical b -> bytes m ->
  length b = length a -> length m = length a ->
  exists d, Substract a b m = Some d /\ length d = length a /\
            (length a = 4%nat -> canonical d) /\
            (canonical d -> Add d b m = Some a).
Proof.
  intros Ha Hb Hm Lb Lm.
  destruct (Substract_canonical a b m Ha Hb Hm Lb Lm) as (d & Hsub & Hd & Ld & Vd).
  exists d. split; [exact Hsub|]. split; [exact Ld|]. split.
  - intros L4. apply canonical_4; congruence.
  - intros Hcd.
    destruct (Add_canonical d b m Hcd Hb Hm) as (t & Hadd & Ht & Lt & Vt);
      [congruence | congruence |].
    rewrite Hadd. f_equal. pose proof Ha as (Hba & _ & _).
    apply be_val_inj; auto; [congruence|].
    rewrite Vt, Vd, Ld. apply sub_add_mod, be_val_bound, Hba.
Qed.

Lemma Add_Substract_witness :
  canonical [192; 0; 2; 1] /\ canonical [0; 0; 1; 2] /\ bytes [0; 0; 1; 255] /\
  length [0; 0; 1; 2] = length [192; 0; 2; 1] /\
  length [0; 0; 1; 255] = length [192; 0; 2; 1] /\
  exists d, Substract [192; 0; 2; 1] [0; 0; 1; 2] [0; 0; 1; 255] = Some d /\
            canonical d /\ Add d [0; 0; 1; 2] [0; 0; 1; 255] = Some [192; 0; 2; 1].
Proof.
  assert (Ha : canonical [192; 0; 2; 1])
    by (apply canonical_4; [apply bytes_check; reflexivity | reflexivity]).
  assert (Hb : canonical [0; 0; 1; 2])
    by (apply canonical_4; [apply bytes_check; reflexivity | reflexivity]).
  assert (Hm : bytes [0; 0; 1; 255]) by (apply bytes_check; reflexivity).
  split; [exact Ha|]. split; [exact Hb|]. split; [exact Hm|].
  split; [reflexivity|]. split; [reflexivity|].
  destruct (Add_Substract _ _ _ Ha Hb Hm eq_refl eq_refl) as (d & HS & _ & H4 & HA).
  exists d. split; [exact HS|]. split; [exact (H4 eq_refl) | exact (HA (H4 eq_refl))].
Defined.

(** X7. Adding the address 1 under the all-ones mask is [NextIP], and
    subtracting it is [PrevIP], on every canonical address. *)
Theorem Add_one_NextIP (a : list Z) :
  canonical a ->
  Add a (unit_address (length a)) (all_bytes (length a) 255) = NextIP a /\
  Substract a (unit_address (length a)) (all_bytes (length a) 255) = PrevIP a.
Proof.
  intros Ha. pose proof Ha as (Hba & Hl & _).
  assert (Hu : canonical (unit_address (length a)) /\
               bytes (all_bytes (length a) 255) /\
               length (unit_address (length a)) = length a /\
               length (all_bytes (length a) 255) = length a /\
               be_val (zip_with Z.land (unit_address (length a)) (all_bytes (length a) 255)) = 1).
  { destruct Hl as [-> | ->].
    - split; [apply canonical_4; [apply bytes_check|]; reflexivity|].
      split; [apply bytes_check; reflexivity|]. repeat split; reflexivity.
    - split; [apply canonical_16; [apply bytes_check; reflexivity | reflexivity | discriminate]|].
      split; [apply bytes_check; reflexivity|]. repeat split; reflexivity. }
  destruct Hu as (Hcu & Hbm & Lu & Lm & Vu).
  destruct (Add_canonical a _ _ Ha Hcu Hbm Lu Lm) as (s & Hs & Bs & Ls & Vs).
  destruct (Substract_canonical a _ _ Ha Hcu Hbm Lu Lm) as (d & Hd & Bd & Ld & Vd).
  destruct (NextIP_canonical a Ha) as (y & Hy & By & Ly & Vy).
  destruct (PrevIP_canonical a Ha) as (z & Hz & Bz & Lz & Vz).
  rewrite Hs, Hd, Hy, Hz. rewrite Vu in Vs, Vd.
  split; f_equal; apply be_val_inj; auto; congruence.
Qed.

Lemma Add_one_NextIP_witness :
  canonical [192; 0; 2; 255] /\
  Add [192; 0; 2; 255] (unit_address (length [192; 0; 2; 255]))
      (all_bytes (length [192; 0; 2; 255]) 255) = NextIP [192; 0; 2; 255] /\
  Substract [192; 0; 2; 255] (unit_address (length [192; 0; 2; 255]))
      (all_bytes (length [192; 0; 2; 255]) 255) = PrevIP [192; 0; 2; 255].
Proof.
  assert (Ha : canonical [192; 0; 2; 255])
    by (apply canonical_4; [apply bytes_check; reflexivity | reflexivity]).
  split; [exact Ha | exact (Add_one_NextIP _ Ha)].
Defined.

(** ** Add and Substract out of their domain *)

Lemma Add_loop_runs (b mask : list Z) (i : nat) :
  (i <= length mask)%nat ->
  forall a, (Add_loop i a b mask = None <-> (length a < i \/ length b < i)%nat) /\
            (forall a', Add_loop i a b mask = Some a' -> length a' = length a).
Proof.
  induction i as [|i IH]; intros Li a.
  - cbn. split; [split; [discriminate | lia]|]. intros a' H. injection H as <-. reflexivity.
  - cbn [Add_loop].
    destruct (a !! i) as [x|] eqn:Ea; cbn [mbind option_bind];
      [apply lookup_lt_Some in Ea
      |apply lookup_ge_None in Ea; split; [split; [lia | reflexivity] | discriminate]].
    destruct (b !! i) as [y|] eqn:Eb; cbn [mbind option_bind];
      [apply lookup_lt_Some in Eb
      |apply lookup_ge_None in Eb; split; [split; [lia | reflexivity] | discriminate]].
    destruct (lookup_lt_is_Some_2 mask i ltac:(lia)) as [m ->]. cbn [mbind option_bind].
    set (a1 := <[i:=(x + Z.land y m) mod 256]> a).
    assert (L1 : length a1 = length a) by apply length_insert.
    assert (Hc : exists a2, (if ((x + Z.land y m) mod 256 <? x) && (0 <? i)%nat
                             then incr_loop i a1 else Some a1) = Some a2 /\
                            length a2 = length a).
    { destruct (_ && _).
      - destruct (incr_loop i a1) as [a2|] eqn:E.
        + exists a2. split; [reflexivity|]. rewrite <- L1. apply (incr_loop_runs i a1), E.
        + apply (incr_loop_runs i a1) in E. lia.
      - exists a1. auto. }
    destruct Hc as (a2 & -> & L2). cbn [mbind option_bind].
    destruct (IH ltac:(lia) a2) as [H1 H2]. rewrite L2 in H1, H2.
    split; [rewrite H1; lia | exact H2].
Qed.

Lemma Substract_loop_runs (b mask : list Z) (i : nat) :
  (i <= length mask)%nat ->
  forall a, (Substract_loop i a b mask = None <-> (length a < i \/ length b < i)%nat) /\
            (forall a', Substract_loop i a b mask = Some a' -> length a' = length a).
Proof.
  induction i as [|i IH]; intros Li a.
  - cbn. split; [split; [discriminate | lia]|]. intros a' H. injection H as <-. reflexivity.
  - cbn [Substract_loop].
    destruct (a !! i) as [x|] eqn:Ea; cbn [mbind option_bind];
      [apply lookup_lt_Some in Ea
      |apply lookup_ge_None in Ea; split; [split; [lia | reflexivity] | discriminate]].
    destruct (b !! i) as [y|] eqn:Eb; cbn [mbind option_bind];
      [apply lookup_lt_Some in Eb
      |apply lookup_ge_None in Eb; split; [split; [lia | reflexivity] | discriminate]].
    destruct (lookup_lt_is_Some_2 mask i ltac:(lia)) as [m ->]. cbn [mbind option_bind].
    set (a1 := <[i:=(x - Z.land y m) mod 256]> a).
    assert (L1 : length a1 = length a) by apply length_insert.
    assert (Hc : exists a2, (if (x <? (x - Z.land y m) mod 256) && (0 <? i)%nat
                             then decr_loop i a1 else Some a1) = Some a2 /\
                            length a2 = length a).
    { destruct (_ && _).
      - destruct (decr_loop i a1) as [a2|] eqn:E.
        + exists a2. split; [reflexivity|]. rewrite <- L1. apply (decr_loop_runs i a1), E.
        + apply (decr_loop_runs i a1) in E. lia.
      - exists a1. auto. }
    destruct Hc as (a2 & -> & L2). cbn [mbind option_bind].
    destruct (IH ltac:(lia) a2) as [H1 H2]. rewrite L2 in H1, H2.
    split; [rewrite H1; lia | exact H2].
Qed.

(** X8. [Add] and [Substract] panic (index out of range) exactly when
    the mask is longer than the canonical form of [a] or of [b]; with a
    shorter mask, the [nil] mask among them, they return an address of
    the length of the canonical [a]. *)
Theorem Add_Substract_panic (a b mask : list Z) :
  (Add a b mask = None <->
   (length (IP a) < length mask \/ length (IP b) < length mask)%nat) /\
  (Substract a b mask = None <->
   (length (IP a) < length mask \/ length (IP b) < length mask)%nat) /\
  (forall r, Add a b mask = Some r \/ Substract a b mask = Some r ->
             length r = length (IP a)) /\
  Add a b [] = Some (IP a) /\ Substract a b [] = Some (IP a).
Proof.
  unfold Add, Substract. cbv zeta.
  destruct (Add_loop_runs (IP b) mask (length mask) (le_n _) (IP a)) as [A1 A2].
  destruct (Substract_loop_runs (IP b) mask (length mask) (le_n _) (IP a)) as [S1 S2].
  split; [exact A1|]. split; [exact S1|]. split; [|split; reflexivity].
  intros r [H | H]; [apply A2, H | apply S2, H].
Qed.

Lemma Add_Substract_panic_witness :
  Add [192; 0; 2; 255] [0; 1; 0; 0] [255; 255] = Some [192; 1; 2; 255] /\
  length [192; 1; 2; 255] = length (IP [192; 0; 2; 255]).
Proof.
  assert (H : Add [192; 0; 2; 255] [0; 1; 0; 0] [255; 255] = Some [192; 1; 2; 255])
    by reflexivity.
  split; [exact H|].
  exact (proj1 (proj2 (proj2 (Add_Substract_panic [192; 0; 2; 255] [0; 1; 0; 0] [255; 255])))
           _ (or_introl H)).
Defined.

(** ** And, Or and Xor on addresses of one length, and out of their domain *)

Lemma zip_with_comm (f : Z -> Z -> Z) (a b : list Z) :
  (forall x y, f x y = f y x) -> zip_with f a b = zip_with f b a.
Proof.
  intros Hf. revert b. induction a as [|x a IH]; intros [|y b]; try reflexivity.
  cbn [zip_with]. rewrite Hf, IH. reflexivity.
Qed.

(** X9. On canonical addresses of one length, [And], [Or] and [Xor]
    return the bytewise operation, an address of that length, and do not
    depend on the order of their arguments. *)
Theorem bitwise_same_length_commute (a b : list Z) :
  canonical a -> canonical b -> length b = length a ->
  And a b = Some (zip_with Z.land a b) /\
  Or a b = Some (zip_with Z.lor a b) /\
  Xor a b = Some (zip_with Z.lxor a b) /\
  And b a = And a b /\ Or b a = Or a b /\ Xor b a = Xor a b /\
  (forall r, And a b = Some r \/ Or a b = Some r \/ Xor a b = Some r ->
             bytes r /\ length r = length a).
Proof.
  intros Ha Hb L. pose proof Ha as (Hba & _ & _). pose proof Hb as (Hbb & _ & _).
  rewrite (And_canonical a b), (Or_canonical a b), (Xor_canonical a b) by assumption.
  rewrite (And_canonical b a), (Or_canonical b a), (Xor_canonical b a) by auto.
  rewrite (zip_with_comm Z.land b a Z.land_comm), (zip_with_comm Z.lor b a Z.lor_comm),
    (zip_with_comm Z.lxor b a Z.lxor_comm).
  do 6 (split; [reflexivity|]).
  intros r [H | [H | H]]; injection H as <-;
    (split; [apply bytes_zip_with; auto using land_byte, lor_byte, lxor_byte
            |rewrite length_zip_with; lia]).
Qed.

Lemma bitwise_same_length_commute_witness :
  canonical [192; 0; 15; 155] /\ canonical [190; 130; 11; 127] /\
  length [190; 130; 11; 127] = length [192; 0; 15; 155] /\
  And [192; 0; 15; 155] [190; 130; 11; 127] = Some [128; 0; 11; 27] /\
  Or [192; 0; 15; 155] [190; 130; 11; 127] = Some [254; 130; 15; 255] /\
  Xor [192; 0; 15; 155] [190; 130; 11; 127] = Some [126; 130; 4; 228] /\
  And [190; 130; 11; 127] [192; 0; 15; 155] = And [192; 0; 15; 155] [190; 130; 11; 127].
Proof.
  assert (Ha : canonical [192; 0; 15; 155])
    by (apply canonical_4; [apply bytes_check; reflexivity | reflexivity]).
  assert (Hb : canonical [190; 130; 11; 127])
    by (apply canonical_4; [apply bytes_check; reflexivity | reflexivity]).
  destruct (bitwise_same_length_commute _ _ Ha Hb eq_refl) as (H1 & H2 & H3 & H4 & _).
  split; [exact Ha|]. split; [exact Hb|]. split; [reflexivity|].
  split; [exact H1|]. split; [exact H2|]. split; [exact H3 | exact H4].
Defined.

Lemma bitwise_loop_runs (op : Z -> Z -> Z) (n : nat) :
  forall (i : nat) (a b : list Z),
    bitwise_loop op n i a b = None <->
    (n <> 0 /\ (length a < i + n \/ length b < i + n))%nat.
Proof.
  induction n as [|n IH]; intros i a b.
  - cbn. split; [discriminate | lia].
  - cbn [bitwise_loop].
    destruct (a !! i) as [x|] eqn:Ea; cbn [mbind option_bind];
      [apply lookup_lt_Some in Ea | apply lookup_ge_None in Ea; split; [lia | reflexivity]].
    destruct (b !! i) as [y|] eqn:Eb; cbn [mbind option_bind];
      [apply lookup_lt_Some in Eb | apply lookup_ge_None in Eb; split; [lia | reflexivity]].
    rewrite IH, length_insert. lia.
Qed.

Lemma IPSize_pos (x : list Z) : (IPSize x = 4 \/ IPSize x = 16)%nat.
Proof. unfold IPSize. destruct (IPVersion x =? 4); auto. Qed.

(** X10. [And], [Or] and [Xor] panic (index out of range) exactly when
    the canonical form of [a] or of [b] is shorter than [IPSize] of [b]:
    among addresses, when [a] is an IPv4 address and [b] an IPv6 one. *)
Theorem bitwise_panic (a b : list Z) :
  (And a b = None <-> (length (IP a) < IPSize b \/ length (IP b) < IPSize b)%nat) /\
  (Or a b = None <-> (length (IP a) < IPSize b \/ length (IP b) < IPSize b)%nat) /\
  (Xor a b = None <-> (length (IP a) < IPSize b \/ length (IP b) < IPSize b)%nat).
Proof.
  unfold And, Or, Xor. cbv zeta. rewrite !bitwise_loop_runs.
  replace (IPSize (IP b)) with (IPSize b)
    by (unfold IPSize, IPVersion; rewrite IP_idem; reflexivity).
  pose proof (IPSize_pos b). cbn [Nat.add]. repeat split; intros; try tauto; lia.
Qed.

(** ** Merge *)

Lemma Merge_loop_spec (a b mask : list Z) (n : nat) :
  forall (i : nat) (ip : list Z),
    (i + n <= length a)%nat -> (i + n <= length b)%nat ->
    (i + n <= length mask)%nat -> (i + n <= length ip)%nat ->
    exists r, Merge_loop n i a b mask ip = Some r /\ length r = length ip /\
              forall k, r !! k =
                        if decide (i <= k < i + n)%nat
                        then x ← a !! k; m ← mask !! k; y ← b !! k;
                             Some (Z.lor (Z.ldiff x m) (Z.land y m))
                        else ip !! k.
Proof.
  induction n as [|n IH]; intros i ip La Lb Lm Li.
  - exists ip. split; [reflexivity|]. split; [reflexivity|].
    intros k. destruct (decide _); [lia | reflexivity].
  - destruct (lookup_lt_is_Some_2 a i ltac:(lia)) as [x Hx].
    destruct (lookup_lt_is_Some_2 b i ltac:(lia)) as [y Hy].
    destruct (lookup_lt_is_Some_2 mask i ltac:(lia)) as [m Hm].
    cbn [Merge_loop]. rewrite Hx, Hm, Hy. cbn [mbind option_bind].
    destruct (IH (S i) (<[i:=Z.lor (Z.ldiff x m) (Z.land y m)]> ip))
      as (r & Hr & Lr & Hk); rewrite ?length_insert; try lia.
    exists r. split; [exact Hr|]. split; [rewrite Lr; apply length_insert|].
    intros k. rewrite Hk.
    destruct (decide (S i <= k < S i + n)%nat), (decide (i <= k < i + S n)%nat);
      try reflexivity; try lia.
    + destruct (Nat.eq_dec i k) as [<-|Hne].
      * rewrite list_lookup_insert_eq by lia. rewrite Hx, Hm, Hy. reflexivity.
      * lia.
    + rewrite list_lookup_insert_ne by lia. reflexivity.
Qed.

Lemma Merge_loop_runs (a b mask : list Z) (n : nat) :
  forall (i : nat) (ip : list Z),
    (i + n <= length mask)%nat ->
    Merge_loop n i a b mask ip = None <->
    (n <> 0 /\ (length a < i + n \/ length b < i + n))%nat.
Proof.
  induction n as [|n IH]; intros i ip Lm.
  - cbn. split; [discriminate | lia].
  - cbn [Merge_loop].
    destruct (a !! i) as [x|] eqn:Ea; cbn [mbind option_bind];
      [apply lookup_lt_Some in Ea | apply lookup_ge_None in Ea; split; [lia | reflexivity]].
    destruct (lookup_lt_is_Some_2 mask i ltac:(lia)) as [m ->]. cbn [mbind option_bind].
    destruct (b !! i) as [y|] eqn:Eb; cbn [mbind option_bind];
      [apply lookup_lt_Some in Eb | apply lookup_ge_None in Eb; split; [lia | reflexivity]].
    rewrite IH by lia. lia.
Qed.

Lemma merge_bit (x y m j : Z) :
  Z.testbit (Z.lor (Z.ldiff x m) (Z.land y m)) j
  = if Z.testbit m j then Z.testbit y j else Z.testbit x j.
Proof.
  destruct (Z.neg_nonneg_cases j) as [Hj | Hj].
  - rewrite !Z.testbit_neg_r by lia. reflexivity.
  - rewrite Z.lor_spec, Z.ldiff_spec, Z.land_spec.
    destruct (Z.testbit m j), (Z.testbit x j), (Z.testbit y j); reflexivity.
Qed.

(** X11. When the mask is no longer than the canonical forms of [a] and
    [b], [Merge] returns an address of the length of the mask in which
    every bit is the bit of [b] where the mask bit is set and the bit of
    [a] where it is clear; when the mask is longer than one of them,
    [Merge] panics (index out of range). *)
Theorem Merge_bits (a b mask : list Z) :
  ((length mask <= length (IP a))%nat -> (length mask <= length (IP b))%nat ->
   exists r, Merge a b mask = Some r /\ length r = length mask /\
             forall k x y m, IP a !! k = Some x -> IP b !! k = Some y -> mask !! k = Some m ->
               exists z, r !! k = Some z /\
                         forall j, Z.testbit z j
                                   = if Z.testbit m j then Z.testbit y j else Z.testbit x j) /\
  (Merge a b mask = None <->
   (length (IP a) < length mask \/ length (IP b) < length mask)%nat).
Proof.
  unfold Merge. cbv zeta. split.
  - intros La Lb.
    destruct (Merge_loop_spec (IP a) (IP b) mask (length mask) 0
                (replicate (length mask) 0)) as (r & Hr & Lr & Hk);
      rewrite ?length_replicate; try (cbn [Nat.add]; lia).
    exists r. split; [exact Hr|]. split; [rewrite Lr; apply length_replicate|].
    intros k x y m Hx Hy Hm. rewrite Hk.
    apply lookup_lt_Some in Hm as Lk.
    destruct (decide _); [|lia].
    rewrite Hx, Hm, Hy. cbn [mbind option_bind].
    eexists. split; [reflexivity|]. intros j. apply merge_bit.
  - rewrite Merge_loop_runs by (cbn [Nat.add]; lia). cbn [Nat.add].
    destruct mask; cbn [length]; lia.
Qed.

Lemma Merge_bits_witness :
  (length [255; 20; 15; 209]%Z <= length (IP [127; 127; 127; 127]%Z))%nat /\
  (length [255; 20; 15; 209]%Z <= length (IP [31; 42; 237; 38]%Z))%nat /\
  Merge [127; 127; 127; 127] [31; 42; 237; 38] [255; 20; 15; 209] = Some [31; 107; 125; 46] /\
  exists r, Merge [127; 127; 127; 127] [31; 42; 237; 38] [255; 20; 15; 209] = Some r /\
            length r = length [255; 20; 15; 209] /\
            forall k x y m,
              IP [127; 127; 127; 127] !! k = Some x -> IP [31; 42; 237; 38] !! k = Some y ->
              [255; 20; 15; 209] !! k = Some m ->
              exists z, r !! k = Some z /\
                        forall j, Z.testbit z j
                                  = if Z.testbit m j then Z.testbit y j else Z.testbit x j.
Proof.
  assert (La : (length [255; 20; 15; 209]%Z <= length (IP [127; 127; 127; 127]%Z))%nat) by (cbn; lia).
  assert (Lb : (length [255; 20; 15; 209]%Z <= length (IP [31; 42; 237; 38]%Z))%nat) by (cbn; lia).
  split; [exact La|]. split; [exact Lb|]. split; [reflexivity|].
  exact (proj1 (Merge_bits [127; 127; 127; 127] [31; 42; 237; 38] [255; 20; 15; 209]) La Lb).
Defined.

Lemma Merge_closed (a b mask : list Z) :
  (length mask <= length (IP a))%nat -> (length mask <= length (IP b))%nat ->
  Merge a b mask
  = Some (zip_with Z.lor (zip_with Z.ldiff (IP a) mask) (zip_with Z.land (IP b) mask)).
Proof.
  intros La Lb. unfold Merge. cbv zeta.
  destruct (Merge_loop_spec (IP a) (IP b) mask (length mask) 0
              (replicate (length mask) 0)) as (r & Hr & Lr & Hk);
    rewrite ?length_replicate; try (cbn [Nat.add]; lia).
  rewrite Hr. f_equal. apply list_eq. intros k.
  rewrite Hk, !lookup_zip_with. cbn [Nat.add].
  destruct (decide _) as [Hin | Hout].
  - destruct (lookup_lt_is_Some_2 (IP a) k ltac:(lia)) as [x ->].
    destruct (lookup_lt_is_Some_2 (IP b) k ltac:(lia)) as [y ->].
    destruct (lookup_lt_is_Some_2 mask k ltac:(lia)) as [m ->].
    reflexivity.
  - rewrite (proj1 (lookup_replicate_None _ _ _)) by lia.
    rewrite (lookup_ge_None_2 mask k) by lia.
    destruct (IP a !! k); reflexivity.
Qed.

Lemma ldiff_not_byte (x m : Z) :
  is_byte x -> is_byte m ->
  Z.ldiff x (byte_not m) = Z.land x m /\ Z.land x (byte_not m) = Z.ldiff x m.
Proof.
  intros Hx Hm.
  pose proof (byte_forall2
    (fun x m => (Z.ldiff x (byte_not m) =? Z.land x m) &&
                (Z.land x (byte_not m) =? Z.ldiff x m))
    ltac:(vm_compute; reflexivity) x m Hx Hm) as H.
  cbv beta in H. lia.
Qed.

Lemma merge_swap_bytes (a b mask : list Z) :
  bytes a -> bytes b -> bytes mask ->
  zip_with Z.lor (zip_with Z.ldiff b (map byte_not mask)) (zip_with Z.land a (map byte_not mask))
  = zip_with Z.lor (zip_with Z.ldiff a mask) (zip_with Z.land b mask).
Proof.
  intros Ha. revert b mask. induction Ha as [|x a Hx Ha IH]; intros b mask Hb Hm.
  - destruct b, mask; reflexivity.
  - destruct Hb as [|y b Hy Hb]; [destruct mask; reflexivity|].
    destruct Hm as [|m mask Hm0 Hm]; [reflexivity|].
    cbn [zip_with map]. rewrite IH by assumption.
    rewrite (proj1 (ldiff_not_byte y m Hy Hm0)), (proj2 (ldiff_not_byte x m Hx Hm0)).
    rewrite Z.lor_comm. reflexivity.
Qed.

Lemma merge_same_bytes (a mask : list Z) :
  (length a <= length mask)%nat ->
  zip_with Z.lor (zip_with Z.ldiff a mask) (zip_with Z.land a mask) = a.
Proof.
  revert mask. induction a as [|x a IH]; intros [|m mask] L; try reflexivity;
    cbn [length] in L; [lia|].
  cbn [zip_with]. rewrite IH by lia. f_equal.
  apply Z.bits_inj'. intros j _. rewrite merge_bit. destruct (Z.testbit m j); reflexivity.
Qed.

Lemma merge_zero_mask (a b : list Z) :
  length b = length a ->
  zip_with Z.lor (zip_with Z.ldiff a (replicate (length a) 0))
                 (zip_with Z.land b (replicate (length a) 0)) = a.
Proof.
  revert b. induction a as [|x a IH]; intros [|y b] L; try discriminate; [reflexivity|].
  cbn [length replicate zip_with]. rewrite IH by (simpl in L; lia).
  rewrite Z.ldiff_0_r, Z.land_0_r, Z.lor_0_r. reflexivity.
Qed.

Lemma merge_ones_mask (a b : list Z) :
  bytes a -> bytes b -> length b = length a ->
  zip_with Z.lor (zip_with Z.ldiff a (replicate (length a) 255))
                 (zip_with Z.land b (replicate (length a) 255)) = b.
Proof.
  intros Ha. revert b. induction Ha as [|x a Hx Ha IH]; intros b Hb L.
  - destruct b; [reflexivity | discriminate].
  - destruct Hb as [|y b Hy Hb]; [discriminate|].
    cbn [length replicate zip_with]. rewrite IH by (auto; simpl in L; lia).
    f_equal. apply Z.eqb_eq.
    apply (byte_forall2 (fun x y => Z.lor (Z.ldiff x 255) (Z.land y 255) =? y));
      [vm_compute; reflexivity | |]; assumption.
Qed.

(** X12. On canonical addresses [a], [b] and a mask of bytes, all of one
    length: merging [b] into [a] under a mask is merging [a] into [b]
    under the complement of the mask; the all-zero mask gives [a], the
    all-ones mask gives [b]; and merging an address with itself gives it
    back. *)
Theorem Merge_swap (a b mask : list Z) :
  canonical a -> canonical b -> bytes mask ->
  length b = length a -> length mask = length a ->
  Merge b a (Complement mask) = Merge a b mask /\
  Merge a b (all_bytes (length a) 0) = Some a /\
  Merge a b (all_bytes (length a) 255) = Some b /\
  Merge a a mask = Some a.
Proof.
  intros Ha Hb Hm Lb Lm.
  pose proof Ha as (Hba & _ & Ea). pose proof Hb as (Hbb & _ & Eb).
  assert (L0 : forall v, length (all_bytes (length a) v) = length a)
    by (intros v; apply length_replicate).
  rewrite (Merge_closed b a), (Merge_closed a b mask), (Merge_closed a b (all_bytes _ 0)),
    (Merge_closed a b (all_bytes _ 255)), (Merge_closed a a mask)
    by (rewrite ?Complement_map, ?length_map, ?L0, ?Ea, ?Eb; lia).
  rewrite Ea, Eb, Complement_map. unfold all_bytes.
  split; [f_equal; apply merge_swap_bytes; assumption|].
  split; [f_equal; apply merge_zero_mask, Lb|].
  split; [f_equal; apply merge_ones_mask; assumption|].
  f_equal. apply merge_same_bytes. lia.
Qed.

Lemma Merge_swap_witness :
  canonical [192; 0; 2; 133] /\ canonical [172; 16; 32; 5] /\ bytes [0; 0; 255; 255] /\
  length [172; 16; 32; 5] = length [192; 0; 2; 133] /\
  length [0; 0; 255; 255] = length [192; 0; 2; 133] /\
  Merge [172; 16; 32; 5] [192; 0; 2; 133] (Complement [0; 0; 255; 255])
  = Merge [192; 0; 2; 133] [172; 16; 32; 5] [0; 0; 255; 255] /\
  Merge [192; 0; 2; 133] [172; 16; 32; 5] (all_bytes (length [192; 0; 2; 133]) 0)
  = Some [192; 0; 2; 133] /\
  Merge [192; 0; 2; 133] [172; 16; 32; 5] (all_bytes (length [192; 0; 2; 133]) 255)
  = Some [172; 16; 32; 5] /\
  Merge [192; 0; 2; 133] [192; 0; 2; 133] [0; 0; 255; 255] = Some [192; 0; 2; 133].
Proof.
  assert (Ha : canonical [192; 0; 2; 133])
    by (apply canonical_4; [apply bytes_check; reflexivity | reflexivity]).
  assert (Hb : canonical [172; 16; 32; 5])
    by (apply canonical_4; [apply bytes_check; reflexivity | reflexivity]).
  assert (Hm : bytes [0; 0; 255; 255]) by (apply bytes_check; reflexivity).
  split; [exact Ha|]. split; [exact Hb|]. split; [exact Hm|].
  split; [reflexivity|]. split; [reflexivity|].
  exact (Merge_swap _ _ _ Ha Hb Hm eq_refl eq_refl).
Defined.

(** ** Broadcast *)

Lemma Broadcast_loop_spec (nIP nMask : list Z) (n : nat) :
  forall (i : nat) (ip : list Z),
    (i + n <= length nIP)%nat -> (i + n <= length nMask)%nat -> (i + n <= length ip)%nat ->
    exists r, Broadcast_loop n i nIP nMask ip = Some r /\ length r = length ip /\
              forall k, r !! k =
                        if decide (i <= k < i + n)%nat
                        then x ← nIP !! k; m ← nMask !! k; Some (Z.lor x (byte_not m))
                        else ip !! k.
Proof.
  induction n as [|n IH]; intros i ip La Lm Li.
  - exists ip. split; [reflexivity|]. split; [reflexivity|].
    intros k. destruct (decide _); [lia | reflexivity].
  - destruct (lookup_lt_is_Some_2 nIP i ltac:(lia)) as [x Hx].
    destruct (lookup_lt_is_Some_2 nMask i ltac:(lia)) as [m Hm].
    cbn [Broadcast_loop]. rewrite Hx, Hm. cbn [mbind option_bind].
    destruct (IH (S i) (<[i:=Z.lor x (byte_not m)]> ip))
      as (r & Hr & Lr & Hk); rewrite ?length_insert; try lia.
    exists r. split; [exact Hr|]. split; [rewrite Lr; apply length_insert|].
    intros k. rewrite Hk.
    destruct (decide (S i <= k < S i + n)%nat), (decide (i <= k < i + S n)%nat);
      try reflexivity; try lia.
    + destruct (Nat.eq_dec i k) as [<-|Hne]; [|lia].
      rewrite list_lookup_insert_eq by lia. rewrite Hx, Hm. reflexivity.
    + rewrite list_lookup_insert_ne by lia. reflexivity.
Qed.

Lemma Broadcast_loop_runs (nIP nMask : list Z) (n : nat) :
  forall (i : nat) (ip : list Z),
    Broadcast_loop n i nIP nMask ip = None <->
    (n <> 0 /\ (length nIP < i + n \/ length nMask < i + n))%nat.
Proof.
  induction n as [|n IH]; intros i ip.
  - cbn. split; [discriminate | lia].
  - cbn [Broadcast_loop].
    destruct (nIP !! i) as [x|] eqn:Ea; cbn [mbind option_bind];
      [apply lookup_lt_Some in Ea | apply lookup_ge_None in Ea; split; [lia | reflexivity]].
    destruct (nMask !! i) as [y|] eqn:Eb; cbn [mbind option_bind];
      [apply lookup_lt_Some in Eb | apply lookup_ge_None in Eb; split; [lia | reflexivity]].
    rewrite IH. lia.
Qed.

Lemma Broadcast_canonical (ip mask : list Z) :
  canonical ip -> length mask = length ip ->
  Broadcast {| net.IP := ip; net.Mask := mask |}
  = Some (zip_with Z.lor ip (map byte_not mask)).
Proof.
  intros Hc L. unfold Broadcast. cbn [net.IP net.Mask].
  rewrite (IPSize_canonical ip Hc).
  destruct (Broadcast_loop_spec ip mask (length ip) 0 (replicate (length ip) 0))
    as (r & Hr & Lr & Hk); rewrite ?length_replicate; try (cbn [Nat.add]; lia).
  rewrite Hr. f_equal. apply list_eq. intros k.
  rewrite Hk, lookup_zip_with, list_lookup_fmap. cbn [Nat.add].
  destruct (decide _) as [Hin | Hout].
  - destruct (lookup_lt_is_Some_2 ip k ltac:(lia)) as [x ->].
    destruct (lookup_lt_is_Some_2 mask k ltac:(lia)) as [m ->]. reflexivity.
  - rewrite (proj1 (lookup_replicate_None _ _ _)) by lia.
    rewrite (lookup_ge_None_2 ip k) by lia. reflexivity.
Qed.

Lemma broadcast_byte (x m : Z) :
  is_byte x -> is_byte m ->
  Z.land (Z.lor x (byte_not m)) m = Z.land x m /\
  x <= Z.lor (Z.land x m) (byte_not m) /\
  Z.lor x (byte_not m) = Z.lor (Z.land x m) (byte_not m).
Proof.
  intros Hx Hm.
  pose proof (byte_forall2
    (fun x m => (Z.land (Z.lor x (byte_not m)) m =? Z.land x m) &&
                (x <=? Z.lor (Z.land x m) (byte_not m)) &&
                (Z.lor x (byte_not m) =? Z.lor (Z.land x m) (byte_not m)))
    ltac:(vm_compute; reflexivity) x m Hx Hm) as H.
  cbv beta in H. lia.
Qed.

Lemma be_val_le (x y : list Z) :
  bytes x -> bytes y -> Forall2 Z.le x y -> be_val x <= be_val y.
Proof.
  intros Hx Hy H. induction H as [|a b x y Hab H IH]; [reflexivity|].
  apply Forall_cons in Hx as [Ha Hx]. apply Forall_cons in Hy as [Hb Hy].
  cbn [be_val]. rewrite (Forall2_length _ _ _ H).
  pose proof (pow256_pos (length y)). specialize (IH Hx Hy). nia.
Qed.

Lemma broadcast_bytes (x ip mask : list Z) :
  bytes x -> bytes ip -> bytes mask ->
  length x = length ip -> length mask = length ip ->
  zip_with Z.land x mask = zip_with Z.land ip mask ->
  Forall2 Z.le x (zip_with Z.lor ip (map byte_not mask)).
Proof.
  intros Hx. revert ip mask. induction Hx as [|a x Ha Hx IH]; intros ip mask Hi Hm Li Lm Hc.
  - destruct ip; [constructor | discriminate].
  - destruct Hi as [|b ip Hb Hi]; [discriminate|].
    destruct Hm as [|m mask Hm0 Hm]; [discriminate|].
    cbn [zip_with map] in *. injection Hc as Hc0 Hc.
    constructor; [|apply IH; auto; simpl in Li, Lm; lia].
    destruct (broadcast_byte a m Ha Hm0) as (_ & Hle & _).
    destruct (broadcast_byte b m Hb Hm0) as (_ & _ & E).
    rewrite E, <- Hc0. exact Hle.
Qed.

Lemma broadcast_care (ip mask : list Z) :
  bytes ip -> bytes mask ->
  zip_with Z.land (zip_with Z.lor ip (map byte_not mask)) mask = zip_with Z.land ip mask.
Proof.
  intros Hi. revert mask. induction Hi as [|b ip Hb Hi IH]; intros mask Hm.
  - reflexivity.
  - destruct Hm as [|m mask Hm0 Hm]; [reflexivity|].
    cbn [zip_with map]. rewrite IH by assumption.
    rewrite (proj1 (broadcast_byte b m Hb Hm0)). reflexivity.
Qed.

(** X13. For a network whose address is canonical and whose mask, of
    bytes, has its length, [Broadcast] returns the address ORed with the
    complement of the mask: an address with the network bits of the
    network, and the highest one, whatever the mask. *)
Theorem Broadcast_highest (ip mask : list Z) :
  canonical ip -> bytes mask -> length mask = length ip ->
  exists bc,
    Broadcast {| net.IP := ip; net.Mask := mask |} = Some bc /\
    bc = zip_with Z.lor ip (map byte_not mask) /\
    bytes bc /\ length bc = length ip /\
    zip_with Z.land bc mask = zip_with Z.land ip mask /\
    forall x, bytes x -> length x = length ip ->
              zip_with Z.land x mask = zip_with Z.land ip mask ->
              be_val x <= be_val bc.
Proof.
  intros Hc Hm L. pose proof Hc as (Hi & _ & _).
  assert (Hbc : bytes (zip_with Z.lor ip (map byte_not mask)))
    by (apply bytes_zip_with; auto using lor_byte, bytes_map_not).
  eexists. split; [apply Broadcast_canonical; assumption|].
  split; [reflexivity|]. split; [exact Hbc|].
  split; [rewrite length_zip_with, length_map; lia|].
  split; [apply broadcast_care; assumption|].
  intros x Hx Lx Hcare. apply be_val_le; auto. apply broadcast_bytes; auto.
Qed.

Lemma Broadcast_highest_witness :
  canonical [192; 0; 2; 0] /\ bytes [255; 255; 255; 0] /\
  length [255; 255; 255; 0] = length [192; 0; 2; 0] /\
  exists bc,
    Broadcast {| net.IP := [192; 0; 2; 0]; net.Mask := [255; 255; 255; 0] |} = Some bc /\
    bc = zip_with Z.lor [192; 0; 2; 0] (map byte_not [255; 255; 255; 0]) /\
    bytes bc /\ length bc = length [192; 0; 2; 0] /\
    zip_with Z.land bc [255; 255; 255; 0] = zip_with Z.land [192; 0; 2; 0] [255; 255; 255; 0] /\
    forall x, bytes x -> length x = length [192; 0; 2; 0] ->
              zip_with Z.land x [255; 255; 255; 0]
              = zip_with Z.land [192; 0; 2; 0] [255; 255; 255; 0] ->
              be_val x <= be_val bc.
Proof.
  assert (Hc : canonical [192; 0; 2; 0])
    by (apply canonical_4; [apply bytes_check; reflexivity | reflexivity]).
  assert (Hm : bytes [255; 255; 255; 0]) by (apply bytes_check; reflexivity).
  split; [exact Hc|]. split; [exact Hm|]. split; [reflexivity|].
  exact (Broadcast_highest _ _ Hc Hm eq_refl).
Defined.

(** X14. [Broadcast] does not canonicalise the address of the network:
    when it is an IPv4 address in the 16-byte IPv4-mapped form and the
    mask has 4 bytes, [IPSize] is 4 and the loop reads bytes 0 to 3 of
    the 16-byte form, which are 0. The result is the complement of the
    mask, whatever the address; and [Broadcast] panics when address or
    mask is shorter than [IPSize] of the address. *)
Theorem Broadcast_mapped (x mask : list Z) :
  length x = 4%nat -> length mask = 4%nat ->
  Broadcast {| net.IP := v4InV6Prefix ++ x; net.Mask := mask |} = Some (Complement mask) /\
  forall n, Broadcast n = None <->
            (length (net.IP n) < IPSize (net.IP n) \/
             length (net.Mask n) < IPSize (net.IP n))%nat.
Proof.
  intros Lx Lm. split.
  - do 4 (destruct x as [|? x]; [discriminate Lx|]). destruct x; [|discriminate Lx].
    do 4 (destruct mask as [|? mask]; [discriminate Lm|]). destruct mask; [|discriminate Lm].
    reflexivity.
  - intros n. unfold Broadcast. cbv zeta. rewrite Broadcast_loop_runs. cbn [Nat.add].
    pose proof (IPSize_pos (net.IP n)). lia.
Qed.

Lemma Broadcast_mapped_witness :
  length [192; 0; 2; 0] = 4%nat /\ length [255; 255; 255; 0] = 4%nat /\
  Broadcast {| net.IP := v4InV6Prefix ++ [192; 0; 2; 0]; net.Mask := [255; 255; 255; 0] |}
  = Some [0; 0; 0; 255].
Proof.
  split; [reflexivity|]. split; [reflexivity|].
  exact (proj1 (Broadcast_mapped [192; 0; 2; 0] [255; 255; 255; 0] eq_refl eq_refl)).
Defined.

(** ** Networks: [NextSubnet], [PrevSubnet], [Contains] *)

Lemma CIDRMask_loop_props (l : nat) :
  forall n, 0 <= n -> length (CIDRMask_loop l n) = l /\ bytes (CIDRMask_loop l n).
Proof.
  induction l as [|l IH]; intros n Hn; [split; [reflexivity | constructor]|].
  cbn [CIDRMask_loop]. destruct (Z.leb_spec 8 n) as [H | H].
  - destruct (IH (n - 8) ltac:(lia)) as [L B].
    split; [cbn; congruence|]. constructor; [unfold is_byte; lia | exact B].
  - destruct (IH 0 ltac:(lia)) as [L B].
    split; [cbn; congruence|]. constructor; [|exact B].
    assert (n = 0 \/ n = 1 \/ n = 2 \/ n = 3 \/ n = 4 \/ n = 5 \/ n = 6 \/ n = 7) as Hc by lia.
    unfold is_byte. destruct Hc as [-> | [-> | [-> | [-> | [-> | [-> | [-> | ->]]]]]]];
      vm_compute; split; congruence.
Qed.

Lemma CIDRMask_loop_of (ip : list Z) (p : Z) :
  (length ip = 4 \/ length ip = 16)%nat -> 0 <= p <= 8 * Z.of_nat (length ip) ->
  CIDRMask p (8 * Z.of_nat (length ip)) = CIDRMask_loop (length ip) p.
Proof.
  intros [L | L] Hp; rewrite L in *; unfold CIDRMask.
  - change (8 * Z.of_nat 4) with 32 in *.
    change (negb (32 =? 8 * Z.of_nat IPv4len)) with false. cbn [andb].
    rewrite (proj2 (Z.ltb_ge p 0)), (proj2 (Z.ltb_ge 32 p)) by lia. reflexivity.
  - change (8 * Z.of_nat 16) with 128 in *.
    change (negb (128 =? 8 * Z.of_nat IPv6len)) with false. rewrite andb_false_r.
    rewrite (proj2 (Z.ltb_ge p 0)), (proj2 (Z.ltb_ge 128 p)) by lia. reflexivity.
Qed.

Lemma cidr_byte (b n : Z) :
  is_byte b -> 0 <= n < 8 ->
  Z.land b (byte_not (Z.shiftr 255 n)) = b - b mod 2 ^ (8 - n) /\
  Z.lor b (byte_not (byte_not (Z.shiftr 255 n))) = b - b mod 2 ^ (8 - n) + 2 ^ (8 - n) - 1.
Proof.
  intros Hb Hn.
  assert (n = 0 \/ n = 1 \/ n = 2 \/ n = 3 \/ n = 4 \/ n = 5 \/ n = 6 \/ n = 7) as Hc by lia.
  pose proof (byte_forall
    (fun b => forallb (fun n =>
       (Z.land b (byte_not (Z.shiftr 255 n)) =? b - b mod 2 ^ (8 - n)) &&
       (Z.lor b (byte_not (byte_not (Z.shiftr 255 n)))
        =? b - b mod 2 ^ (8 - n) + 2 ^ (8 - n) - 1)) [0; 1; 2; 3; 4; 5; 6; 7])
    ltac:(vm_compute; reflexivity) b Hb) as H.
  cbv beta in H. rewrite forallb_forall in H.
  specialize (H n). rewrite andb_true_iff, !Z.eqb_eq in H. apply H.
  destruct Hc as [-> | [-> | [-> | [-> | [-> | [-> | [-> | ->]]]]]]]; cbn; tauto.
Qed.

(** ANDing with a prefix mask rounds the value down to a multiple of
    the block size; ORing with its complement gives the last value of
    the block. *)
Lemma cidr_round (l : nat) :
  forall n x, 0 <= n <= 8 * Z.of_nat l -> bytes x -> length x = l ->
    be_val (zip_with Z.land x (CIDRMask_loop l n))
    = be_val x - be_val x mod 2 ^ (8 * Z.of_nat l - n) /\
    be_val (zip_with Z.lor x (map byte_not (CIDRMask_loop l n)))
    = be_val x - be_val x mod 2 ^ (8 * Z.of_nat l - n) + 2 ^ (8 * Z.of_nat l - n) - 1.
Proof.
  induction l as [|l IH]; intros n x Hn Hx L.
  - destruct x; [|discriminate]. assert (n = 0) as -> by lia. split; reflexivity.
  - destruct x as [|b x]; [discriminate|]. injection L as L.
    apply Forall_cons in Hx as [Hb Hx].
    pose proof (be_val_bound x Hx) as Bx. rewrite L, pow256_pow2 in Bx.
    cbn [CIDRMask_loop]. destruct (Z.leb_spec 8 n) as [H | H].
    + destruct (CIDRMask_loop_props l (n - 8) ltac:(lia)) as [Lm _].
      destruct (IH (n - 8) x ltac:(lia) Hx L) as [E1 E2].
      cbn [zip_with map be_val].
      rewrite !length_zip_with, length_map, Lm, L, Nat.min_id, E1, E2, pow256_pow2.
      replace (8 * Z.of_nat l - (n - 8)) with (8 * Z.of_nat (S l) - n) by lia.
      set (B := 2 ^ (8 * Z.of_nat (S l) - n)).
      assert (HP : 2 ^ (8 * Z.of_nat l) = 2 ^ (n - 8) * B).
      { unfold B. rewrite <- Z.pow_add_r by lia. f_equal. lia. }
      assert (Hmod : (b * 2 ^ (8 * Z.of_nat l) + be_val x) mod B = be_val x mod B).
      { rewrite HP. replace (b * (2 ^ (n - 8) * B) + be_val x)
          with (be_val x + (b * 2 ^ (n - 8)) * B) by ring.
        apply Z_mod_plus_full. }
      replace (Z.land b 255) with b
        by (change 255 with (Z.ones 8); rewrite Z.land_ones by lia;
            unfold is_byte in Hb; rewrite Z.mod_small; [reflexivity | exact Hb]).
      change (byte_not 255) with 0. rewrite Z.lor_0_r, Hmod. split; ring.
    + destruct (CIDRMask_loop_props l 0 ltac:(lia)) as [Lm _].
      destruct (IH 0 x ltac:(lia) Hx L) as [E1 E2].
      rewrite Z.sub_0_r, Z.mod_small in E1, E2 by exact Bx.
      destruct (cidr_byte b n Hb ltac:(lia)) as [F1 F2].
      cbn [zip_with map be_val].
      rewrite !length_zip_with, length_map, Lm, L, Nat.min_id, E1, E2, F1, F2, pow256_pow2.
      set (c := 2 ^ (8 - n)) in *. set (P := 2 ^ (8 * Z.of_nat l)) in *.
      assert (HB : 2 ^ (8 * Z.of_nat (S l) - n) = c * P).
      { unfold c, P. rewrite <- Z.pow_add_r by lia. f_equal. lia. }
      rewrite HB.
      assert (Hc : 0 < c) by (apply Z.pow_pos_nonneg; lia).
      pose proof (Z.div_mod b c ltac:(lia)) as Hdiv.
      pose proof (Z.mod_pos_bound b c Hc) as Hr.
      assert (Hmod : (b * P + be_val x) mod (c * P) = b mod c * P + be_val x).
      { symmetry. apply Z.mod_unique with (q := b / c); [left; nia | nia]. }
      rewrite Hmod. split; ring.
Qed.

Lemma block_pos (n : nat) (p : Z) : p <= 8 * Z.of_nat n -> 0 < block n p.
Proof. intros H. unfold block. apply Z.pow_pos_nonneg; lia. Qed.

Lemma block_total (n : nat) (p : Z) :
  0 <= p <= 8 * Z.of_nat n -> 256 ^ Z.of_nat n = 2 ^ p * block n p.
Proof.
  intros H. unfold block. rewrite pow256_pow2, <- Z.pow_add_r by lia. f_equal. lia.
Qed.

Lemma cidr_Mask (ip : list Z) (p : Z) :
  (length ip = 4 \/ length ip = 16)%nat -> 0 <= p <= 8 * Z.of_nat (length ip) ->
  net.Mask (cidr ip p) = CIDRMask_loop (length ip) p /\
  length (net.Mask (cidr ip p)) = length ip /\ bytes (net.Mask (cidr ip p)).
Proof.
  intros L Hp. unfold cidr. cbn [net.Mask]. rewrite CIDRMask_loop_of by assumption.
  destruct (CIDRMask_loop_props (length ip) p ltac:(lia)) as [Lm Bm]. auto.
Qed.

(** The broadcast address of a prefix network is the last address of
    the block the address lies in. *)
Lemma Broadcast_cidr (ip : list Z) (p : Z) :
  canonical ip -> 0 <= p <= 8 * Z.of_nat (length ip) ->
  exists bc,
    Broadcast (cidr ip p) = Some bc /\ bytes bc /\ length bc = length ip /\
    be_val bc = be_val ip - be_val ip mod block (length ip) p + block (length ip) p - 1.
Proof.
  intros Hc Hp. pose proof Hc as (Hi & Hl & _).
  destruct (cidr_Mask ip p Hl Hp) as (Em & Lm & Bm).
  exists (zip_with Z.lor ip (map byte_not (net.Mask (cidr ip p)))).
  split; [apply (Broadcast_canonical ip _ Hc Lm)|].
  split; [apply bytes_zip_with; auto using lor_byte, bytes_map_not|].
  split; [rewrite length_zip_with, length_map; lia|].
  rewrite Em. apply (cidr_round (length ip) p ip Hp Hi eq_refl).
Qed.

Lemma NextIP_IP (x : list Z) : NextIP (IP x) = NextIP x.
Proof.
  unfold NextIP. rewrite IP_idem.
  replace (IPSize (IP x)) with (IPSize x)
    by (unfold IPSize, IPVersion; rewrite IP_idem; reflexivity).
  reflexivity.
Qed.

Lemma NextSubnet_spec (ip : list Z) (p : Z) :
  canonical ip -> 0 <= p <= 8 * Z.of_nat (length ip) ->
  (length ip = 16%nat ->
   ~ 65535 * 2 ^ 32
     <= be_val ip - be_val ip mod block 16 p + block 16 p - 1 < 65536 * 2 ^ 32) ->
  exists ip',
    NextSubnet (cidr ip p) = Some {| net.IP := ip'; net.Mask := net.Mask (cidr ip p) |} /\
    bytes ip' /\ length ip' = length ip /\
    be_val ip' = (be_val ip - be_val ip mod block (length ip) p + block (length ip) p)
                 mod 256 ^ Z.of_nat (length ip).
Proof.
  intros Hc Hp Hm.
  destruct (Broadcast_cidr ip p Hc Hp) as (bc & Hbc & Bbc & Lbc & Vbc).
  assert (Cbc : canonical bc).
  { apply (canonical_of_value ip bc Hc Bbc Lbc). intros L. rewrite Vbc, L. exact (Hm L). }
  destruct (NextIP_canonical bc Cbc) as (y & Hy & By & Ly & Vy).
  exists y. unfold NextSubnet. rewrite Hbc. cbn [mbind option_bind]. rewrite Hy.
  cbn [mbind option_bind]. split; [reflexivity|]. split; [exact By|].
  split; [congruence|]. rewrite Vy, Vbc, Lbc. f_equal. ring.
Qed.

Lemma IP_Mask_same_length (ip mask : list Z) :
  length mask = length ip -> IP_Mask ip mask = zip_with Z.land ip mask.
Proof.
  intros L.
  assert (C1 : Nat.eqb (length mask) IPv6len && Nat.eqb (length ip) IPv4len = false).
  { rewrite L. destruct (Nat.eqb_spec (length ip) IPv6len) as [E|]; [|reflexivity].
    rewrite E. reflexivity. }
  assert (C2 : Nat.eqb (length mask) IPv4len && Nat.eqb (length ip) IPv6len = false).
  { rewrite L. destruct (Nat.eqb_spec (length ip) IPv4len) as [E|]; [|reflexivity].
    rewrite E. reflexivity. }
  unfold IP_Mask. cbv zeta. rewrite C1. cbn [andb]. rewrite C2. cbn [andb].
  rewrite L, Nat.eqb_refl. reflexivity.
Qed.

Lemma prev_block_value (v B k : Z) :
  0 < B -> 0 < k -> 0 <= v < k * B ->
  let w := (v - 1) mod (k * B) in
  (v mod B = 0 -> w - w mod B = (v - B) mod (k * B)) /\
  (v mod B <> 0 -> w - w mod B = v - v mod B).
Proof.
  intros HB Hk Hv w.
  pose proof (Z.div_mod v B ltac:(lia)) as Hdiv.
  pose proof (Z.mod_pos_bound v B HB) as Hr.
  assert (Hq : 0 <= v / B < k).
  { split; [apply Z.div_pos; lia|]. apply Z.div_lt_upper_bound; [lia|]. nia. }
  destruct (Z.eq_dec v 0) as [-> | Hnz].
  - assert (Ew : w = k * B - 1).
    { unfold w. symmetry. apply Z.mod_unique with (q := -1); [left; nia | ring]. }
    assert (Em : w mod B = B - 1).
    { symmetry. apply Z.mod_unique with (q := k - 1); [left; lia | rewrite Ew; ring]. }
    split; [intros _ | intros H; rewrite Z.mod_0_l in H by lia; congruence].
    rewrite Em, Ew. apply Z.mod_unique with (q := -1); [left; nia | ring].
  - assert (Ew : w = v - 1) by (unfold w; apply Z.mod_small; lia).
    split; intros H.
    + assert (Em : w mod B = B - 1).
      { symmetry. apply Z.mod_unique with (q := v / B - 1); [left; lia | rewrite Ew; nia]. }
      rewrite Em, Ew. replace (v - 1 - (B - 1)) with (v - B) by ring.
      assert (1 <= v / B)
        by (destruct (Z.eq_dec (v / B) 0) as [E | E]; [rewrite E in Hdiv; lia | lia]).
      symmetry. apply Z.mod_small. nia.
    + assert (Em : w mod B = v mod B - 1).
      { symmetry. apply Z.mod_unique with (q := v / B); [left; lia | rewrite Ew; nia]. }
      rewrite Em, Ew. ring.
Qed.

Lemma PrevSubnet_spec (ip : list Z) (p : Z) :
  canonical ip -> 0 <= p <= 8 * Z.of_nat (length ip) ->
  exists ip',
    PrevSubnet (cidr ip p) = Some {| net.IP := ip'; net.Mask := net.Mask (cidr ip p) |} /\
    bytes ip' /\ length ip' = length ip /\
    (be_val ip mod block (length ip) p = 0 ->
     be_val ip' = (be_val ip - block (length ip) p) mod 256 ^ Z.of_nat (length ip)) /\
    (be_val ip mod block (length ip) p <> 0 ->
     be_val ip' = be_val ip - be_val ip mod block (length ip) p).
Proof.
  intros Hc Hp. pose proof Hc as (Hi & Hl & _).
  destruct (cidr_Mask ip p Hl Hp) as (Em & Lm & Bm).
  destruct (PrevIP_canonical ip Hc) as (y & Hy & By & Ly & Vy).
  exists (zip_with Z.land y (net.Mask (cidr ip p))).
  unfold PrevSubnet. change (net.IP (cidr ip p)) with ip. rewrite Hy.
  cbn [mbind option_bind]. rewrite IP_Mask_same_length by congruence.
  split; [reflexivity|]. split; [apply bytes_zip_with; auto using land_byte|].
  split; [rewrite length_zip_with; lia|].
  pose proof (proj1 (cidr_round (length y) p y ltac:(rewrite Ly; exact Hp) By eq_refl)) as R.
  rewrite Ly in R. rewrite Em, R. fold (block (length ip) p).
  rewrite Vy, (block_total (length ip) p Hp).
  pose proof (be_val_bound ip Hi) as Bv. rewrite (block_total (length ip) p Hp) in Bv.
  apply (prev_block_value (be_val ip) (block (length ip) p) (2 ^ p));
    [apply block_pos; lia | apply Z.pow_pos_nonneg; lia | exact Bv].
Qed.

(** X15. For a network in prefix notation over a canonical address,
    [Broadcast] returns the last address of the block of [2^(bits-p)]
    addresses the address lies in; for the network address itself that
    is [2^(bits-p) - 1] above it. *)
Theorem Broadcast_last_of_block (ip : list Z) (p : Z) :
  canonical ip -> 0 <= p <= 8 * Z.of_nat (length ip) ->
  exists bc,
    Broadcast (cidr ip p) = Some bc /\ bytes bc /\ length bc = length ip /\
    be_val bc = be_val ip - be_val ip mod block (length ip) p + block (length ip) p - 1 /\
    (be_val ip mod block (length ip) p = 0 ->
     be_val bc = be_val ip + block (length ip) p - 1).
Proof.
  intros Hc Hp.
  destruct (Broadcast_cidr ip p Hc Hp) as (bc & Hbc & Bbc & Lbc & Vbc).
  exists bc. repeat (split; [assumption|]). intros H. rewrite Vbc, H. ring.
Qed.

Lemma Broadcast_last_of_block_witness :
  canonical [192; 0; 2; 77] /\ 0 <= 26 <= 8 * Z.of_nat (length [192; 0; 2; 77]) /\
  exists bc,
    Broadcast (cidr [192; 0; 2; 77] 26) = Some bc /\ bytes bc /\
    length bc = length [192; 0; 2; 77] /\
    be_val bc = be_val [192; 0; 2; 77] - be_val [192; 0; 2; 77] mod block 4 26
                + block 4 26 - 1 /\
    (be_val [192; 0; 2; 77] mod block 4 26 = 0 ->
     be_val bc = be_val [192; 0; 2; 77] + block 4 26 - 1).
Proof.
  assert (Hc : canonical [192; 0; 2; 77])
    by (apply canonical_4; [apply bytes_check; reflexivity | reflexivity]).
  assert (Hp : 0 <= 26 <= 8 * Z.of_nat (length [192; 0; 2; 77])) by (cbn; lia).
  split; [exact Hc|]. split; [exact Hp|].
  exact (Broadcast_last_of_block [192; 0; 2; 77] 26 Hc Hp).
Defined.

(** X16. [NextSubnet] of a network in prefix notation returns, with the
    same mask, the first address of the next block (the first block
    after the last one), provided the last address of the block is not
    an IPv4-mapped 16-byte address. *)
Theorem NextSubnet_next_block (ip : list Z) (p : Z) :
  canonical ip -> 0 <= p <= 8 * Z.of_nat (length ip) ->
  (length ip = 16%nat ->
   ~ 65535 * 2 ^ 32
     <= be_val ip - be_val ip mod block 16 p + block 16 p - 1 < 65536 * 2 ^ 32) ->
  exists ip',
    NextSubnet (cidr ip p) = Some (cidr ip' p) /\
    bytes ip' /\ length ip' = length ip /\
    be_val ip' = (be_val ip - be_val ip mod block (length ip) p + block (length ip) p)
                 mod 256 ^ Z.of_nat (length ip) /\
    (be_val ip mod block (length ip) p = 0 ->
     be_val ip' = (be_val ip + block (length ip) p) mod 256 ^ Z.of_nat (length ip)).
Proof.
  intros Hc Hp Hm.
  destruct (NextSubnet_spec ip p Hc Hp Hm) as (y & Hy & By & Ly & Vy).
  exists y. split; [rewrite Hy; unfold cidr; rewrite Ly; reflexivity|].
  repeat (split; [assumption|]). intros H. rewrite Vy, H. f_equal. ring.
Qed.

Lemma NextSubnet_next_block_witness :
  canonical [255; 255; 255; 0] /\ 0 <= 24 <= 8 * Z.of_nat (length [255; 255; 255; 0]) /\
  exists ip',
    NextSubnet (cidr [255; 255; 255; 0] 24) = Some (cidr ip' 24) /\
    bytes ip' /\ length ip' = length [255; 255; 255; 0] /\
    be_val ip' = (be_val [255; 255; 255; 0] - be_val [255; 255; 255; 0] mod block 4 24
                  + block 4 24) mod 256 ^ 4 /\
    (be_val [255; 255; 255; 0] mod block 4 24 = 0 ->
     be_val ip' = (be_val [255; 255; 255; 0] + block 4 24) mod 256 ^ 4).
Proof.
  assert (Hc : canonical [255; 255; 255; 0])
    by (apply canonical_4; [apply bytes_check; reflexivity | reflexivity]).
  assert (Hp : 0 <= 24 <= 8 * Z.of_nat (length [255; 255; 255; 0])) by (cbn; lia).
  split; [exact Hc|]. split; [exact Hp|].
  apply (NextSubnet_next_block [255; 255; 255; 0] 24 Hc Hp).
  intros H. discriminate H.
Defined.

(** X17. When the last address of a 16-byte network is an IPv4-mapped
    address, [NextIP] canonicalises it and [NextSubnet] returns a
    network whose address has 4 bytes and whose mask has 16. *)
Theorem NextSubnet_mapped_broadcast (ip : list Z) (p : Z) :
  canonical ip -> length ip = 16%nat -> 0 <= p <= 128 ->
  65535 * 2 ^ 32 <= be_val ip - be_val ip mod block 16 p + block 16 p - 1 < 65536 * 2 ^ 32 ->
  exists ip',
    NextSubnet (cidr ip p) = Some {| net.IP := ip'; net.Mask := net.Mask (cidr ip p) |} /\
    length ip' = 4%nat /\ length (net.Mask (cidr ip p)) = 16%nat.
Proof.
  intros Hc L Hp Hv.
  assert (Hp' : 0 <= p <= 8 * Z.of_nat (length ip)) by (rewrite L; lia).
  destruct (Broadcast_cidr ip p Hc Hp') as (bc & Hbc & Bbc & Lbc & Vbc).
  rewrite L in Lbc, Vbc.
  assert (Hmap : take 12 bc = v4InV6Prefix) by (apply mapped_value; auto; rewrite Vbc; exact Hv).
  destruct (IP_cases bc) as [[E [L4 | N]] | (_ & _ & E)].
  - rewrite Lbc in L4. discriminate L4.
  - apply (To4_16 bc Lbc) in Hmap. rewrite N in Hmap. destruct Hmap as [? Hx]. discriminate Hx.
  - assert (C4 : canonical (drop 12 bc)).
    { apply canonical_4; [|rewrite length_drop, Lbc; reflexivity].
      rewrite <- (take_drop 12 bc) in Bbc. apply Forall_app in Bbc. apply Bbc. }
    destruct (NextIP_canonical _ C4) as (y & Hy & _ & Ly & _).
    exists y. unfold NextSubnet. rewrite Hbc. cbn [mbind option_bind].
    rewrite <- NextIP_IP, E, Hy. cbn [mbind option_bind].
    split; [reflexivity|]. split; [rewrite Ly, length_drop, Lbc; reflexivity|].
    destruct (cidr_Mask ip p ltac:(right; exact L) Hp') as (_ & Lm & _). congruence.
Qed.

Lemma NextSubnet_mapped_broadcast_witness :
  canonical [0; 0; 0; 0; 0; 0; 0; 0; 0; 0; 255; 254; 0; 0; 0; 0] /\
  65535 * 2 ^ 32
  <= be_val [0; 0; 0; 0; 0; 0; 0; 0; 0; 0; 255; 254; 0; 0; 0; 0]
     - be_val [0; 0; 0; 0; 0; 0; 0; 0; 0; 0; 255; 254; 0; 0; 0; 0] mod block 16 95
     + block 16 95 - 1 < 65536 * 2 ^ 32 /\
  exists ip',
    NextSubnet (cidr [0; 0; 0; 0; 0; 0; 0; 0; 0; 0; 255; 254; 0; 0; 0; 0] 95)
    = Some {| net.IP := ip';
              net.Mask := net.Mask (cidr [0; 0; 0; 0; 0; 0; 0; 0; 0; 0; 255; 254; 0; 0; 0; 0] 95) |} /\
    length ip' = 4%nat /\
    length (net.Mask (cidr [0; 0; 0; 0; 0; 0; 0; 0; 0; 0; 255; 254; 0; 0; 0; 0] 95)) = 16%nat.
Proof.
  assert (Hc : canonical [0; 0; 0; 0; 0; 0; 0; 0; 0; 0; 255; 254; 0; 0; 0; 0]).
  { apply canonical_16; [apply bytes_check; reflexivity | reflexivity |].
    intros H. discriminate H. }
  assert (Hv : 65535 * 2 ^ 32
               <= be_val [0; 0; 0; 0; 0; 0; 0; 0; 0; 0; 255; 254; 0; 0; 0; 0]
                  - be_val [0; 0; 0; 0; 0; 0; 0; 0; 0; 0; 255; 254; 0; 0; 0; 0] mod block 16 95
                  + block 16 95 - 1 < 65536 * 2 ^ 32)
    by (vm_compute; split; congruence).
  split; [exact Hc|]. split; [exact Hv|].
  exact (NextSubnet_mapped_broadcast _ 95 Hc eq_refl ltac:(lia) Hv).
Defined.

(** X18. [PrevSubnet] of a network in prefix notation returns, with the
    same mask, the start of the previous block when the address is the
    start of its block (the last block before the first one), and the
    start of the address's own block otherwise. *)
Theorem PrevSubnet_previous_block (ip : list Z) (p : Z) :
  canonical ip -> 0 <= p <= 8 * Z.of_nat (length ip) ->
  exists ip',
    PrevSubnet (cidr ip p) = Some (cidr ip' p) /\
    bytes ip' /\ length ip' = length ip /\
    (be_val ip mod block (length ip) p = 0 ->
     be_val ip' = (be_val ip - block (length ip) p) mod 256 ^ Z.of_nat (length ip)) /\
    (be_val ip mod block (length ip) p <> 0 ->
     be_val ip' = be_val ip - be_val ip mod block (length ip) p).
Proof.
  intros Hc Hp.
  destruct (PrevSubnet_spec ip p Hc Hp) as (y & Hy & By & Ly & V0 & V1).
  exists y. split; [rewrite Hy; unfold cidr; rewrite Ly; reflexivity|].
  repeat (split; [assumption|]). exact V1.
Qed.

Lemma PrevSubnet_previous_block_witness :
  canonical [0; 0; 0; 0] /\ 0 <= 24 <= 8 * Z.of_nat (length [0; 0; 0; 0]) /\
  exists ip',
    PrevSubnet (cidr [0; 0; 0; 0] 24) = Some (cidr ip' 24) /\
    bytes ip' /\ length ip' = length [0; 0; 0; 0] /\
    (be_val [0; 0; 0; 0] mod block 4 24 = 0 ->
     be_val ip' = (be_val [0; 0; 0; 0] - block 4 24) mod 256 ^ 4) /\
    (be_val [0; 0; 0; 0] mod block 4 24 <> 0 ->
     be_val ip' = be_val [0; 0; 0; 0] - be_val [0; 0; 0; 0] mod block 4 24).
Proof.
  assert (Hc : canonical [0; 0; 0; 0])
    by (apply canonical_4; [apply bytes_check; reflexivity | reflexivity]).
  assert (Hp : 0 <= 24 <= 8 * Z.of_nat (length [0; 0; 0; 0])) by (cbn; lia).
  split; [exact Hc|]. split; [exact Hp|].
  exact (PrevSubnet_previous_block [0; 0; 0; 0] 24 Hc Hp).
Defined.

Lemma block_multiple_not_mapped (w B : Z) :
  2 ^ 48 < B -> 0 <= w -> w mod B = 0 ->
  ~ 65535 * 2 ^ 32 <= w < 65536 * 2 ^ 32.
Proof.
  intros HB Hw Hm.
  pose proof (Z.div_mod w B ltac:(lia)) as Hd. rewrite Hm in Hd.
  assert (0 <= w / B) by (apply Z.div_pos; lia).
  change (65536 * 2 ^ 32) with (2 ^ 48). change (65535 * 2 ^ 32) with 281470681743360.
  destruct (Z.eq_dec (w / B) 0) as [E | E]; [rewrite E in Hd; lia | nia].
Qed.

Lemma block_end_not_mapped (w B : Z) :
  2 ^ 48 < B -> 0 <= w -> w mod B = 0 ->
  ~ 65535 * 2 ^ 32 <= w + B - 1 < 65536 * 2 ^ 32.
Proof.
  intros HB Hw Hm. change (65536 * 2 ^ 32) with (2 ^ 48). lia.
Qed.

Lemma block_large (p : Z) : 0 <= p < 80 -> 2 ^ 48 < block 16 p.
Proof.
  intros H. unfold block. apply Z.pow_lt_mono_r; lia.
Qed.

Lemma block_steps (v B k : Z) :
  0 < B -> 0 < k -> v mod B = 0 ->
  ((v + B) mod (k * B)) mod B = 0 /\ ((v - B) mod (k * B)) mod B = 0 /\
  ((v + B) mod (k * B) - B) mod (k * B) = v mod (k * B) /\
  ((v - B) mod (k * B) + B) mod (k * B) = v mod (k * B).
Proof.
  intros HB Hk Hv.
  assert (Hdiv : forall a, (a mod (k * B)) mod B = a mod B).
  { intros a. pose proof (Z.div_mod a (k * B) ltac:(nia)) as Hd.
    rewrite Hd at 2. replace (k * B * (a / (k * B)) + a mod (k * B))
      with (a mod (k * B) + (k * (a / (k * B))) * B) by ring.
    rewrite Z_mod_plus_full. reflexivity. }
  rewrite !Hdiv. split; [|split; [|split]].
  - replace (v + B) with (v + 1 * B) by ring. rewrite Z_mod_plus_full. exact Hv.
  - replace (v - B) with (v + (-1) * B) by ring. rewrite Z_mod_plus_full. exact Hv.
  - rewrite Zminus_mod_idemp_l. f_equal. ring.
  - rewrite Zplus_mod_idemp_l. f_equal. ring.
Qed.

Lemma cidr_same_mask (ip ip' : list Z) (p : Z) :
  length ip' = length ip ->
  {| net.IP := ip'; net.Mask := net.Mask (cidr ip p) |} = cidr ip' p.
Proof. intros L. unfold cidr. cbn [net.Mask]. rewrite L. reflexivity. Qed.

(** X19. On networks in prefix notation whose address is the start of
    its block, [NextSubnet] and [PrevSubnet] undo each other, the wrap
    between the last and the first block included: for IPv4 networks,
    and for IPv6 networks of prefix length below 80. *)
Theorem NextSubnet_PrevSubnet_round_trip (ip : list Z) (p : Z) :
  canonical ip -> 0 <= p <= 8 * Z.of_nat (length ip) ->
  (length ip = 16%nat -> p < 80) ->
  be_val ip mod block (length ip) p = 0 ->
  (NextSubnet (cidr ip p) ≫= PrevSubnet) = Some (cidr ip p) /\
  (PrevSubnet (cidr ip p) ≫= NextSubnet) = Some (cidr ip p).
Proof.
  intros Hc Hp H16 Hal. pose proof Hc as (Hi & Hl & _).
  pose proof (be_val_bound ip Hi) as Bv.
  pose proof (block_pos (length ip) p ltac:(lia)) as HB.
  pose proof (block_total (length ip) p Hp) as HM.
  assert (H2p : 0 < 2 ^ p) by (apply Z.pow_pos_nonneg; lia).
  destruct (block_steps (be_val ip) (block (length ip) p) (2 ^ p) HB H2p Hal)
    as (S1 & S2 & S3 & S4).
  rewrite <- HM in S1, S2, S3, S4.
  rewrite (Z.mod_small (be_val ip)) in S3, S4 by exact Bv.
  assert (Hbig : length ip = 16%nat -> 2 ^ 48 < block 16 p)
    by (intros L; apply block_large; specialize (H16 L); lia).
  split.
  - destruct (NextSubnet_spec ip p Hc Hp) as (ip1 & E1 & B1 & L1 & V1).
    { intros L. rewrite L in Hal. rewrite Hal, Z.sub_0_r.
      apply block_end_not_mapped; auto; lia. }
    rewrite Hal, Z.sub_0_r in V1.
    assert (C1 : canonical ip1).
    { apply (canonical_of_value ip ip1 Hc B1 L1). intros L. rewrite V1.
      rewrite L in *. apply (block_multiple_not_mapped _ (block 16 p)); auto.
      apply Z.mod_pos_bound. lia. }
    rewrite E1. cbn [mbind option_bind]. rewrite (cidr_same_mask ip ip1 p L1).
    destruct (PrevSubnet_spec ip1 p C1 ltac:(rewrite L1; exact Hp))
      as (ip2 & E2 & B2 & L2 & V2 & _).
    rewrite L1 in V2. rewrite V1 in V2. specialize (V2 S1). rewrite S3 in V2.
    rewrite E2, (cidr_same_mask ip1 ip2 p L2).
    f_equal. f_equal. apply be_val_inj; auto; congruence.
  - destruct (PrevSubnet_spec ip p Hc Hp) as (ip1 & E1 & B1 & L1 & V1 & _).
    specialize (V1 Hal).
    assert (C1 : canonical ip1).
    { apply (canonical_of_value ip ip1 Hc B1 L1). intros L. rewrite V1.
      rewrite L in *. apply (block_multiple_not_mapped _ (block 16 p)); auto.
      apply Z.mod_pos_bound. lia. }
    rewrite E1. cbn [mbind option_bind]. rewrite (cidr_same_mask ip ip1 p L1).
    destruct (NextSubnet_spec ip1 p C1 ltac:(rewrite L1; exact Hp)) as (ip2 & E2 & B2 & L2 & V2).
    { intros L. rewrite L1 in L. rewrite V1, L in *. rewrite S2, Z.sub_0_r.
      apply block_end_not_mapped; auto. apply Z.mod_pos_bound. lia. }
    rewrite L1, V1, S2, Z.sub_0_r, S4 in V2.
    rewrite E2, (cidr_same_mask ip1 ip2 p L2).
    f_equal. f_equal. apply be_val_inj; auto; congruence.
Qed.

Lemma NextSubnet_PrevSubnet_round_trip_witness :
  canonical [255; 255; 255; 0] /\ 0 <= 24 <= 8 * Z.of_nat (length [255; 255; 255; 0]) /\
  be_val [255; 255; 255; 0] mod block (length [255; 255; 255; 0]) 24 = 0 /\
  (NextSubnet (cidr [255; 255; 255; 0] 24) ≫= PrevSubnet) = Some (cidr [255; 255; 255; 0] 24) /\
  (PrevSubnet (cidr [255; 255; 255; 0] 24) ≫= NextSubnet) = Some (cidr [255; 255; 255; 0] 24).
Proof.
  assert (Hc : canonical [255; 255; 255; 0])
    by (apply canonical_4; [apply bytes_check; reflexivity | reflexivity]).
  assert (Hp : 0 <= 24 <= 8 * Z.of_nat (length [255; 255; 255; 0])) by (cbn; lia).
  assert (Ha : be_val [255; 255; 255; 0] mod block (length [255; 255; 255; 0]) 24 = 0)
    by reflexivity.
  split; [exact Hc|]. split; [exact Hp|]. split; [exact Ha|].
  apply (NextSubnet_PrevSubnet_round_trip [255; 255; 255; 0] 24 Hc Hp); [|exact Ha].
  intros H. discriminate H.
Defined.

Lemma canonical_To4 (x : list Z) :
  canonical x ->
  (length x = 4%nat /\ To4 x = Some x) \/ (length x = 16%nat /\ To4 x = None).
Proof.
  intros (_ & Hl & HIP).
  destruct (IP_cases x) as [[_ [L | N]] | (L & _ & E)].
  - left. split; [exact L|]. unfold To4. rewrite L. reflexivity.
  - destruct Hl as [L | L]; [|right; auto].
    unfold To4 in N. rewrite L in N. discriminate N.
  - exfalso. rewrite HIP in E. apply (f_equal length) in E.
    rewrite length_drop, L in E. discriminate E.
Qed.

Lemma forallb_masked (a x m : list Z) :
  length x = length a -> length m = length a ->
  forallb (fun p => Z.land (fst (fst p)) (snd p) =? Z.land (snd (fst p)) (snd p))
          (combine (combine a x) m)
  = bool_decide (zip_with Z.land a m = zip_with Z.land x m).
Proof.
  revert x m. induction a as [|a0 a IH]; intros [|x0 x] [|m0 m] Lx Lm; try discriminate.
  - reflexivity.
  - cbn [combine forallb fst snd zip_with]. rewrite IH by (simpl in *; lia).
    destruct (Z.eqb_spec (Z.land a0 m0) (Z.land x0 m0)) as [E | E]; cbn [andb].
    + rewrite E. apply bool_decide_ext. split; [congruence|].
      intros H. injection H as H. exact H.
    + symmetry. apply bool_decide_eq_false. intros H. injection H as H _. contradiction.
Qed.

(** [IPNet.Contains] on canonical operands of one length: the masked
    address equals the masked network address. *)
Lemma IPNet_Contains_canonical (ip mask x : list Z) :
  canonical ip -> canonical x -> length mask = length ip -> length x = length ip ->
  IPNet_Contains {| net.IP := ip; net.Mask := mask |} x
  = bool_decide (zip_with Z.land ip mask = zip_with Z.land x mask).
Proof.
  intros Hi Hx Lm Lx. unfold IPNet_Contains, networkNumberAndMask. cbn [net.IP net.Mask].
  destruct (canonical_To4 ip Hi) as [[L Ei] | [L Ei]];
    destruct (canonical_To4 x Hx) as [[L' Ex] | [L' Ex]]; try congruence;
    rewrite Ei, Ex, Lm, L; cbn [Nat.eqb IPv4len IPv6len negb];
    rewrite ?L', ?L; cbn [Nat.eqb negb];
    apply forallb_masked; congruence.
Qed.

Lemma land_le_bytes (x m : list Z) :
  bytes x -> bytes m -> length m = length x -> Forall2 Z.le (zip_with Z.land x m) x.
Proof.
  intros Hx. revert m. induction Hx as [|a x Ha Hx IH]; intros m Hm L.
  - destruct m; [constructor | discriminate].
  - destruct Hm as [|b m Hb Hm]; [discriminate|].
    cbn [zip_with]. constructor; [|apply IH; auto].
    pose proof (byte_forall2 (fun a b => Z.land a b <=? a)
                  ltac:(vm_compute; reflexivity) a b Ha Hb) as H.
    cbv beta in H. lia.
Qed.

(** Membership in a network in prefix notation: the address lies in the
    block of the network address. *)
Lemma IPNet_Contains_cidr (ip x : list Z) (p : Z) :
  canonical ip -> canonical x -> length x = length ip ->
  0 <= p <= 8 * Z.of_nat (length ip) ->
  (IPNet_Contains (cidr ip p) x = true <->
   be_val x / block (length ip) p = be_val ip / block (length ip) p).
Proof.
  intros Hi Hx Lx Hp. pose proof Hi as (Bi & Hl & _). pose proof Hx as (Bx & _ & _).
  destruct (cidr_Mask ip p Hl Hp) as (Em & Lm & Bm).
  unfold cidr in *. cbn [net.Mask] in *.
  rewrite IPNet_Contains_canonical, bool_decide_eq_true by assumption.
  pose proof (proj1 (cidr_round (length ip) p ip Hp Bi eq_refl)) as Ri.
  pose proof (proj1 (cidr_round (length ip) p x Hp Bx Lx)) as Rx.
  fold (block (length ip) p) in Ri, Rx. rewrite <- Em in Ri, Rx.
  pose proof (block_pos (length ip) p ltac:(lia)) as HB.
  pose proof (Z.div_mod (be_val ip) (block (length ip) p) ltac:(lia)) as Di.
  pose proof (Z.div_mod (be_val x) (block (length ip) p) ltac:(lia)) as Dx.
  split.
  - intros E. rewrite E in Ri. rewrite Ri in Rx. nia.
  - intros E. apply be_val_inj.
    + apply bytes_zip_with; auto using land_byte.
    + apply bytes_zip_with; auto using land_byte.
    + rewrite !length_zip_with. lia.
    + rewrite Ri, Rx. rewrite E in Dx. lia.
Qed.

(** X20. [Contains(a, b)] for a network [a] in prefix notation and a
    network [b] whose address is its network address, all canonical
    and of one length: it never panics, and it returns true exactly
    when every address of [b] is an address of [a]. *)
Theorem Contains_wholly (ipa ipb mb : list Z) (p : Z) :
  canonical ipa -> canonical ipb -> bytes mb ->
  length ipb = length ipa -> length mb = length ipa ->
  0 <= p <= 8 * Z.of_nat (length ipa) ->
  canonical (zip_with Z.lor ipb (map byte_not mb)) ->
  zip_with Z.land ipb mb = ipb ->
  exists r,
    Contains (cidr ipa p) {| net.IP := ipb; net.Mask := mb |} = Some r /\
    (r = true <->
     forall x, canonical x -> length x = length ipa ->
               IPNet_Contains {| net.IP := ipb; net.Mask := mb |} x = true ->
               IPNet_Contains (cidr ipa p) x = true).
Proof.
  intros Ha Hb Bm Lb Lm Hp Cbc Hnet.
  pose proof Ha as (Ba & _ & _). pose proof Hb as (Bb & _ & _).
  assert (Lm' : length mb = length ipb) by congruence.
  assert (Lbc : length (zip_with Z.lor ipb (map byte_not mb)) = length ipa)
    by (rewrite length_zip_with, length_map; lia).
  pose proof (block_pos (length ipa) p ltac:(lia)) as HB.
  unfold Contains. change (net.IP {| net.IP := ipb; net.Mask := mb |}) with ipb.
  rewrite (Broadcast_canonical ipb mb Hb Lm'). cbn [mbind option_bind].
  destruct (IPNet_Contains (cidr ipa p) ipb) eqn:E1; eexists; (split; [reflexivity|]).
  - split.
    + intros E2 x Hx Lx Hin. pose proof Hx as (Bx & _ & _).
      rewrite IPNet_Contains_canonical, bool_decide_eq_true in Hin by congruence.
      apply (IPNet_Contains_cidr ipa _ p Ha Hb Lb Hp) in E1.
      apply (IPNet_Contains_cidr ipa _ p Ha Cbc Lbc Hp) in E2.
      apply (IPNet_Contains_cidr ipa x p Ha Hx Lx Hp).
      assert (Hlo : be_val ipb <= be_val x).
      { apply be_val_le; auto. rewrite <- Hnet at 1. rewrite Hin.
        apply land_le_bytes; auto; congruence. }
      assert (Hhi : be_val x <= be_val (zip_with Z.lor ipb (map byte_not mb))).
      { apply be_val_le; auto; [apply Cbc|].
        apply broadcast_bytes; auto; congruence. }
      pose proof (Z.div_le_mono _ _ (block (length ipa) p) HB Hlo).
      pose proof (Z.div_le_mono _ _ (block (length ipa) p) HB Hhi). lia.
    + intros H. apply H; [exact Cbc | exact Lbc |].
      rewrite IPNet_Contains_canonical, bool_decide_eq_true by congruence.
      symmetry. apply broadcast_care; assumption.
  - split; [discriminate|]. intros H. rewrite <- E1. apply H; [exact Hb | exact Lb |].
    rewrite IPNet_Contains_canonical, bool_decide_eq_true by congruence. reflexivity.
Qed.

Lemma Contains_wholly_witness :
  canonical [192; 0; 2; 0] /\ canonical [192; 0; 2; 128] /\ bytes [255; 255; 255; 128] /\
  0 <= 24 <= 8 * Z.of_nat (length [192; 0; 2; 0]) /\
  canonical (zip_with Z.lor [192; 0; 2; 128] (map byte_not [255; 255; 255; 128])) /\
  zip_with Z.land [192; 0; 2; 128] [255; 255; 255; 128] = [192; 0; 2; 128] /\
  exists r,
    Contains (cidr [192; 0; 2; 0] 24)
             {| net.IP := [192; 0; 2; 128]; net.Mask := [255; 255; 255; 128] |} = Some r /\
    (r = true <->
     forall x, canonical x -> length x = length [192; 0; 2; 0] ->
               IPNet_Contains {| net.IP := [192; 0; 2; 128];
                                 net.Mask := [255; 255; 255; 128] |} x = true ->
               IPNet_Contains (cidr [192; 0; 2; 0] 24) x = true).
Proof.
  assert (Ha : canonical [192; 0; 2; 0])
    by (apply canonical_4; [apply bytes_check; reflexivity | reflexivity]).
  assert (Hb : canonical [192; 0; 2; 128])
    by (apply canonical_4; [apply bytes_check; reflexivity | reflexivity]).
  assert (Hm : bytes [255; 255; 255; 128]) by (apply bytes_check; reflexivity).
  assert (Hp : 0 <= 24 <= 8 * Z.of_nat (length [192; 0; 2; 0])) by (cbn; lia).
  assert (Hc : canonical (zip_with Z.lor [192; 0; 2; 128] (map byte_not [255; 255; 255; 128])))
    by (apply canonical_4; [apply bytes_check; reflexivity | reflexivity]).
  split; [exact Ha|]. split; [exact Hb|]. split; [exact Hm|]. split; [exact Hp|].
  split; [exact Hc|]. split; [reflexivity|].
  exact (Contains_wholly _ _ _ 24 Ha Hb Hm eq_refl eq_refl Hp Hc eq_refl).
Defined.

(** X21. [Contains] looks at the address of [b] and at its broadcast
    address only: when the address of [b] is the last address of its
    block, both are that address, and the one-address network at it
    is reported to contain the whole of [b]. *)
Theorem Contains_last_address (ip : list Z) (p : Z) :
  canonical ip -> 0 <= p <= 8 * Z.of_nat (length ip) ->
  be_val ip mod block (length ip) p = block (length ip) p - 1 ->
  Contains (cidr ip (8 * Z.of_nat (length ip))) (cidr ip p) = Some true /\
  forall x, canonical x -> length x = length ip ->
    (IPNet_Contains (cidr ip (8 * Z.of_nat (length ip))) x = true <-> x = ip) /\
    (IPNet_Contains (cidr ip p) x = true <->
     be_val x / block (length ip) p = be_val ip / block (length ip) p).
Proof.
  intros Hc Hp Hlast. pose proof Hc as (Hi & _ & _).
  assert (Hfull : 0 <= 8 * Z.of_nat (length ip) <= 8 * Z.of_nat (length ip)) by lia.
  assert (Hone : block (length ip) (8 * Z.of_nat (length ip)) = 1)
    by (unfold block; rewrite Z.sub_diag; reflexivity).
  assert (Hin : forall x, canonical x -> length x = length ip ->
                  (IPNet_Contains (cidr ip (8 * Z.of_nat (length ip))) x = true <-> x = ip)).
  { intros x Hx Lx. rewrite (IPNet_Contains_cidr ip x _ Hc Hx Lx Hfull), Hone, !Z.div_1_r.
    split; [|congruence]. apply be_val_inj; auto. apply Hx. }
  split.
  - destruct (Broadcast_cidr ip p Hc Hp) as (bc & Hbc & Bbc & Lbc & Vbc).
    assert (bc = ip) as -> by (apply be_val_inj; auto; lia).
    unfold Contains. change (net.IP (cidr ip p)) with ip.
    rewrite (proj2 (Hin ip Hc eq_refl) eq_refl), Hbc. cbn [mbind option_bind].
    rewrite (proj2 (Hin ip Hc eq_refl) eq_refl). reflexivity.
  - intros x Hx Lx. split; [apply Hin; assumption|].
    apply IPNet_Contains_cidr; assumption.
Qed.

Lemma Contains_last_address_witness :
  canonical [192; 0; 2; 255] /\ 0 <= 24 <= 8 * Z.of_nat (length [192; 0; 2; 255]) /\
  be_val [192; 0; 2; 255] mod block (length [192; 0; 2; 255]) 24
  = block (length [192; 0; 2; 255]) 24 - 1 /\
  Contains (cidr [192; 0; 2; 255] 32) (cidr [192; 0; 2; 255] 24) = Some true.
Proof.
  assert (Hc : canonical [192; 0; 2; 255])
    by (apply canonical_4; [apply bytes_check; reflexivity | reflexivity]).
  assert (Hp : 0 <= 24 <= 8 * Z.of_nat (length [192; 0; 2; 255])) by (cbn; lia).
  assert (Hl : be_val [192; 0; 2; 255] mod block (length [192; 0; 2; 255]) 24
               = block (length [192; 0; 2; 255]) 24 - 1) by reflexivity.
  split; [exact Hc|]. split; [exact Hp|]. split; [exact Hl|].
  exact (proj1 (Contains_last_address [192; 0; 2; 255] 24 Hc Hp Hl)).
Defined.

(** ** Wildcards: the order of the matching addresses *)

Lemma dc_count_le (m : Z) : is_byte m -> 2 ^ Z.of_nat (dc_count m) <= 256.
Proof.
  intros Hm.
  pose proof (byte_forall (fun m => 2 ^ Z.of_nat (dc_count m) <=? 256)
                ltac:(vm_compute; reflexivity) m Hm) as H.
  cbv beta in H. lia.
Qed.

(** A byte is the sum of its care bits and of its don't-care bits. *)
Lemma byte_split (m b : Z) :
  is_byte m -> is_byte b ->
  b = Z.land b m + dc_expand (dc_positions m) (dc_value m b).
Proof.
  intros Hm Hb. apply Z.eqb_eq.
  apply (byte_forall2
    (fun m b => b =? Z.land b m + dc_expand (dc_positions m) (dc_value m b)));
    [vm_compute; reflexivity | |]; assumption.
Qed.

Lemma dc_expand_step (m v : Z) :
  is_byte m -> 0 <= v -> v + 1 < 2 ^ Z.of_nat (dc_count m) ->
  dc_expand (dc_positions m) v < dc_expand (dc_positions m) (v + 1).
Proof.
  intros Hm Hv Hlt. pose proof (dc_count_le m Hm) as Hc.
  pose proof (byte_forall2
    (fun m v => (2 ^ Z.of_nat (dc_count m) <=? v + 1) ||
                (dc_expand (dc_positions m) v <? dc_expand (dc_positions m) (v + 1)))
    ltac:(vm_compute; reflexivity) m v Hm ltac:(unfold is_byte; lia)) as H.
  cbv beta in H. apply orb_true_iff in H as [H | H]; lia.
Qed.

Lemma dc_expand_mono (m : Z) (n : nat) :
  is_byte m ->
  forall v, 0 <= v -> v + Z.of_nat (S n) < 2 ^ Z.of_nat (dc_count m) ->
            dc_expand (dc_positions m) v < dc_expand (dc_positions m) (v + Z.of_nat (S n)).
Proof.
  intros Hm. induction n as [|n IH]; intros v Hv Hlt.
  - apply dc_expand_step; auto.
  - specialize (IH v Hv ltac:(lia)).
    pose proof (dc_expand_step m (v + Z.of_nat (S n)) Hm ltac:(lia) ltac:(lia)) as Hs.
    replace (v + Z.of_nat (S (S n))) with (v + Z.of_nat (S n) + 1) by lia. lia.
Qed.

Lemma dc_value_order (m b1 b2 : Z) :
  is_byte m -> is_byte b1 -> is_byte b2 ->
  Z.land b1 m = Z.land b2 m -> dc_value m b1 < dc_value m b2 -> b1 < b2.
Proof.
  intros Hm H1 H2 Hc Hv.
  pose proof (dc_value_bound m b1 Hm H1) as B1.
  pose proof (dc_value_bound m b2 Hm H2) as B2.
  rewrite (byte_split m b1 Hm H1), (byte_split m b2 Hm H2), Hc.
  pose proof (dc_expand_mono m (Z.to_nat (dc_value m b2 - dc_value m b1 - 1)) Hm
                (dc_value m b1) ltac:(lia) ltac:(lia)) as H.
  replace (dc_value m b1 + Z.of_nat (S (Z.to_nat (dc_value m b2 - dc_value m b1 - 1))))
    with (dc_value m b2) in H by lia.
  lia.
Qed.

(** Among addresses with the same care bits, the count of the
    don't-care bits orders as the address does. *)
Lemma wild_order_lt (mask : list Z) :
  bytes mask ->
  forall ip1 ip2, bytes ip1 -> bytes ip2 ->
    length ip1 = length mask -> length ip2 = length mask ->
    zip_with Z.land ip1 mask = zip_with Z.land ip2 mask ->
    wild_value mask ip1 < wild_value mask ip2 -> be_val ip1 < be_val ip2.
Proof.
  induction 1 as [|m mask Hm0 Hm IH]; intros ip1 ip2 H1 H2 L1 L2 Hc Hv.
  - destruct ip1, ip2; try discriminate L1; try discriminate L2. cbn in Hv. lia.
  - destruct H1 as [|b1 ip1 Hb1 H1]; [discriminate|].
    destruct H2 as [|b2 ip2 Hb2 H2]; [discriminate|].
    cbn [zip_with] in Hc. injection Hc as Hc0 Hc. simpl in L1, L2.
    cbn [wild_value] in Hv. cbn [be_val].
    pose proof (wild_value_bound mask ip1 Hm H1 ltac:(lia)) as W1.
    pose proof (wild_value_bound mask ip2 Hm H2 ltac:(lia)) as W2.
    pose proof (be_val_bound ip1 H1) as V1. pose proof (be_val_bound ip2 H2) as V2.
    assert (E12 : length ip2 = length ip1) by lia. rewrite E12 in *.
    destruct (Z.lt_trichotomy (dc_value m b1) (dc_value m b2)) as [Hlt | [Heq | Hgt]].
    + pose proof (dc_value_order m b1 b2 Hm0 Hb1 Hb2 Hc0 Hlt).
      assert ((b1 + 1) * 256 ^ Z.of_nat (length ip1) <= b2 * 256 ^ Z.of_nat (length ip1))
        by (apply Z.mul_le_mono_nonneg_r; lia).
      lia.
    + assert (b1 = b2) as -> by (apply (dc_value_inj m); auto).
      specialize (IH ip1 ip2 H1 H2 ltac:(lia) ltac:(lia) Hc ltac:(lia)). lia.
    + exfalso.
      assert ((dc_value m b2 + 1) * 2 ^ Z.of_nat (dc_total mask)
              <= dc_value m b1 * 2 ^ Z.of_nat (dc_total mask))
        by (apply Z.mul_le_mono_nonneg_r; lia).
      lia.
Qed.

Lemma wild_order (mask ip1 ip2 : list Z) :
  bytes mask -> bytes ip1 -> bytes ip2 ->
  length ip1 = length mask -> length ip2 = length mask ->
  zip_with Z.land ip1 mask = zip_with Z.land ip2 mask ->
  (wild_value mask ip1 < wild_value mask ip2 <-> be_val ip1 < be_val ip2).
Proof.
  intros Hm H1 H2 L1 L2 Hc. split; [apply wild_order_lt; auto|].
  intros Hb.
  destruct (Z.lt_trichotomy (wild_value mask ip1) (wild_value mask ip2)) as [H | [H | H]].
  - exact H.
  - assert (ip1 = ip2) by (apply (wild_value_inj mask); auto). subst ip2. lia.
  - pose proof (wild_order_lt mask Hm ip2 ip1 H2 H1 L2 L1 (eq_sym Hc) H). lia.
Qed.

Lemma wild_order_le (mask ip1 ip2 : list Z) :
  bytes mask -> bytes ip1 -> bytes ip2 ->
  length ip1 = length mask -> length ip2 = length mask ->
  zip_with Z.land ip1 mask = zip_with Z.land ip2 mask ->
  (wild_value mask ip1 <= wild_value mask ip2 <-> be_val ip1 <= be_val ip2).
Proof.
  intros Hm H1 H2 L1 L2 Hc.
  pose proof (wild_order mask ip2 ip1 Hm H2 H1 L2 L1 (eq_sym Hc)). lia.
Qed.

Lemma regular_care (w : wildcard.Wildcard) :
  regular w ->
  bytes (wildcard.ip w) /\ bytes (wildcard.mask w) /\
  length (wildcard.ip w) = length (wildcard.mask w) /\
  zip_with Z.land (wildcard.ip w) (wildcard.mask w) = wildcard.bits w.
Proof. intros [(Hi & Hm & _ & L & Hb) _]. auto. Qed.

Lemma matching_care (w : wildcard.Wildcard) (x : list Z) :
  regular w ->
  (matching w x <->
   bytes x /\ length x = length (wildcard.ip w) /\
   zip_with Z.land x (wildcard.mask w) = wildcard.bits w).
Proof.
  intros Hreg. unfold matching. split.
  - intros (Hc & L & HM). rewrite (regular_Matches w Hreg x Hc L) in HM.
    injection HM as HM. apply bool_decide_eq_true in HM. split; [apply Hc | auto].
  - intros (Hx & L & Hc).
    pose proof (regular_matching_canonical w Hreg x Hx L Hc) as Cx.
    split; [exact Cx|]. split; [exact L|].
    rewrite (regular_Matches w Hreg x Cx L). f_equal. apply bool_decide_eq_true. exact Hc.
Qed.

Lemma matching_ip (w w' : wildcard.Wildcard) :
  regular w -> regular w' ->
  wildcard.mask w' = wildcard.mask w -> wildcard.bits w' = wildcard.bits w ->
  matching w (wildcard.ip w').
Proof.
  intros Hreg Hreg' Em Eb.
  destruct (regular_care w Hreg) as (_ & _ & L & _).
  destruct (regular_care w' Hreg') as (Hi' & _ & L' & Hc').
  apply (matching_care w _ Hreg). rewrite <- Em, <- Eb. split; [exact Hi'|].
  split; [|exact Hc']. rewrite L, L', Em. reflexivity.
Qed.

Lemma matching_bound (w : wildcard.Wildcard) (x : list Z) :
  regular w -> matching w x ->
  bytes x /\ length x = length (wildcard.mask w) /\
  zip_with Z.land x (wildcard.mask w) = zip_with Z.land (wildcard.ip w) (wildcard.mask w) /\
  0 <= wild_value (wildcard.mask w) x < 2 ^ Z.of_nat (dc_total (wildcard.mask w)).
Proof.
  intros Hreg Hx. destruct (regular_care w Hreg) as (_ & Hm & L & Hc).
  apply (matching_care w x Hreg) in Hx as (Bx & Lx & Cx).
  split; [exact Bx|]. split; [congruence|]. split; [congruence|].
  apply wild_value_bound; auto. congruence.
Qed.

(** X22. On a regular wildcard [Prev] undoes [Next] and [Next] undoes
    [Prev], the wrap between the last and the first matching address
    included. *)
Theorem Next_Prev_inverse (w : wildcard.Wildcard) :
  regular w ->
  (exists w1, wildcard.Next w = Some (w1, wildcard.ip w1) /\
              wildcard.Prev w1 = Some (w, wildcard.ip w)) /\
  (exists w1, wildcard.Prev w = Some (w1, wildcard.ip w1) /\
              wildcard.Next w1 = Some (w, wildcard.ip w)).
Proof.
  intros Hreg. destruct (regular_care w Hreg) as (Hi & Hm & L & Hc).
  pose proof (wild_value_bound (wildcard.mask w) (wildcard.ip w) Hm Hi L) as W.
  pose proof (pow2_pos (dc_total (wildcard.mask w))) as Hk.
  assert (Hback : forall w1 w2,
            regular w2 -> wildcard.mask w1 = wildcard.mask w ->
            wildcard.bits w1 = wildcard.bits w ->
            wildcard.mask w2 = wildcard.mask w1 -> wildcard.bits w2 = wildcard.bits w1 ->
            wild_value (wildcard.mask w) (wildcard.ip w2)
            = wild_value (wildcard.mask w) (wildcard.ip w) ->
            w2 = w).
  { intros w1 w2 Hreg2 Em1 Eb1 Em2 Eb2 Hv.
    destruct (regular_care w2 Hreg2) as (Hi2 & _ & L2 & Hc2).
    assert (E : wildcard.ip w2 = wildcard.ip w).
    { assert (Hcare : zip_with Z.land (wildcard.ip w2) (wildcard.mask w)
                      = zip_with Z.land (wildcard.ip w) (wildcard.mask w))
        by (rewrite Hc, <- Em1, <- Em2, Hc2; congruence).
      apply (wild_value_inj (wildcard.mask w)); auto; congruence. }
    destruct w2, w. cbn in *. congruence. }
  split.
  - destruct (Next_regular w Hreg) as (w1 & HN & Em1 & Eb1 & L1 & Hreg1 & Hv1).
    destruct (Prev_regular w1 Hreg1) as (w2 & HP & Em2 & Eb2 & L2 & Hreg2 & Hv2).
    exists w1. split; [exact HN|].
    assert (w2 = w) as <-; [|exact HP].
    apply (Hback w1); auto. rewrite Em1 in Hv2. rewrite Hv2, Hv1.
    rewrite Zminus_mod_idemp_l. replace (_ + 1 - 1) with
      (wild_value (wildcard.mask w) (wildcard.ip w)) by ring.
    apply Z.mod_small. exact W.
  - destruct (Prev_regular w Hreg) as (w1 & HP & Em1 & Eb1 & L1 & Hreg1 & Hv1).
    destruct (Next_regular w1 Hreg1) as (w2 & HN & Em2 & Eb2 & L2 & Hreg2 & Hv2).
    exists w1. split; [exact HP|].
    assert (w2 = w) as <-; [|exact HN].
    apply (Hback w1); auto. rewrite Em1 in Hv2. rewrite Hv2, Hv1.
    rewrite Zplus_mod_idemp_l. replace (_ - 1 + 1) with
      (wild_value (wildcard.mask w) (wildcard.ip w)) by ring.
    apply Z.mod_small. exact W.
Qed.

Lemma doc_wildcard_regular : regular doc_wildcard.
Proof.
  apply well_formed_4_regular; [|reflexivity].
  unfold well_formed, doc_wildcard. cbn [wildcard.ip wildcard.bits wildcard.mask].
  split; [apply bytes_check; reflexivity|]. split; [apply bytes_check; reflexivity|].
  split; [left; reflexivity|]. split; reflexivity.
Defined.

Lemma Next_Prev_inverse_witness :
  regular doc_wildcard /\
  (exists w1, wildcard.Next doc_wildcard = Some (w1, wildcard.ip w1) /\
              wildcard.Prev w1 = Some (doc_wildcard, wildcard.ip doc_wildcard)) /\
  (exists w1, wildcard.Prev doc_wildcard = Some (w1, wildcard.ip w1) /\
              wildcard.Next w1 = Some (doc_wildcard, wildcard.ip doc_wildcard)).
Proof.
  split; [exact doc_wildcard_regular|].
  exact (Next_Prev_inverse doc_wildcard doc_wildcard_regular).
Defined.

(** X23. On a regular wildcard, [First] holds the lowest and [Last] the
    highest of the addresses the wildcard matches. *)
Theorem First_lowest_Last_highest (w : wildcard.Wildcard) :
  regular w ->
  exists l,
    wildcard.Last w = Some l /\
    matching w (wildcard.IP (wildcard.First w)) /\ matching w (wildcard.IP l) /\
    forall x, matching w x ->
              be_val (wildcard.IP (wildcard.First w)) <= be_val x <= be_val (wildcard.IP l).
Proof.
  intros Hreg. destruct (regular_care w Hreg) as (Hi & Hm & L & Hc).
  destruct (First_regular w Hreg) as (EF & HregF & VF).
  destruct (Last_regular w Hreg) as (l & HL & Eml & Ebl & Hregl & Vl).
  assert (MF : matching w (wildcard.ip (wildcard.First w)))
    by (apply matching_ip; auto; rewrite EF; reflexivity).
  assert (Ml : matching w (wildcard.ip l)) by (apply matching_ip; auto).
  exists l. split; [exact HL|]. split; [exact MF|]. split; [exact Ml|].
  intros x Hx. unfold wildcard.IP.
  destruct (matching_bound w x Hreg Hx) as (Bx & Lx & Cx & Wx).
  destruct (matching_bound w _ Hreg MF) as (BF & LF & CF & WF).
  destruct (matching_bound w _ Hreg Ml) as (Bl & Ll & Cl & Wl).
  split.
  - apply (wild_order_le (wildcard.mask w)); auto; [congruence | lia].
  - apply (wild_order_le (wildcard.mask w)); auto; [congruence | lia].
Qed.

Lemma First_lowest_Last_highest_witness :
  regular doc_wildcard /\
  exists l,
    wildcard.Last doc_wildcard = Some l /\
    matching doc_wildcard (wildcard.IP (wildcard.First doc_wildcard)) /\
    matching doc_wildcard (wildcard.IP l) /\
    forall x, matching doc_wildcard x ->
              be_val (wildcard.IP (wildcard.First doc_wildcard)) <= be_val x
              <= be_val (wildcard.IP l).
Proof.
  split; [exact doc_wildcard_regular|].
  exact (First_lowest_Last_highest doc_wildcard doc_wildcard_regular).
Defined.

Lemma doc_wildcard_New : wildcard.New [192; 0; 2; 128] [0; 0; 0; 254] = Some doc_wildcard.
Proof. reflexivity. Qed.

(** X24. On a regular wildcard [Next] moves to the next matching
    address in increasing order: the address it returns matches, is the
    lowest matching address above the current one when there is one,
    and is the address of [First] when the current one is the highest. *)
Theorem Next_successor (w : wildcard.Wildcard) :
  regular w ->
  exists w',
    wildcard.Next w = Some (w', wildcard.ip w') /\
    matching w (wildcard.ip w') /\
    ((exists x, matching w x /\ be_val (wildcard.ip w) < be_val x) ->
     be_val (wildcard.ip w) < be_val (wildcard.ip w') /\
     forall x, matching w x -> be_val (wildcard.ip w) < be_val x ->
               be_val (wildcard.ip w') <= be_val x) /\
    ((forall x, matching w x -> be_val x <= be_val (wildcard.ip w)) ->
     wildcard.ip w' = wildcard.IP (wildcard.First w)).
Proof.
  intros Hreg. destruct (regular_care w Hreg) as (Hi & Hm & L & Hc).
  pose proof (wild_value_bound (wildcard.mask w) (wildcard.ip w) Hm Hi L) as W.
  destruct (Next_regular w Hreg) as (w' & HN & Em & Eb & L' & Hreg' & Hv).
  assert (M' : matching w (wildcard.ip w')) by (apply matching_ip; auto).
  destruct (matching_bound w _ Hreg M') as (B' & Lm' & C' & W').
  exists w'. split; [exact HN|]. split; [exact M'|]. split.
  - intros (x0 & Hx0 & Hgt0).
    destruct (matching_bound w x0 Hreg Hx0) as (Bx0 & Lx0 & Cx0 & Wx0).
    apply (wild_order (wildcard.mask w)) in Hgt0; auto.
    rewrite Z.mod_small in Hv by lia. split.
    + apply (wild_order (wildcard.mask w)); auto. lia.
    + intros x Hx Hgt. destruct (matching_bound w x Hreg Hx) as (Bx & Lx & Cx & Wx).
      apply (wild_order (wildcard.mask w)) in Hgt; auto.
      apply (wild_order_le (wildcard.mask w)); auto; [congruence | lia].
  - intros Hall.
    destruct (Last_regular w Hreg) as (l & HL & Eml & Ebl & Hregl & Vl).
    assert (Ml : matching w (wildcard.ip l)) by (apply matching_ip; auto).
    destruct (matching_bound w _ Hreg Ml) as (Bl & Ll & Cl & Wl).
    pose proof (Hall _ Ml) as Hle.
    apply (wild_order_le (wildcard.mask w)) in Hle; auto.
    replace (wild_value (wildcard.mask w) (wildcard.ip w) + 1)
      with (2 ^ Z.of_nat (dc_total (wildcard.mask w))) in Hv by lia.
    rewrite Z_mod_same_full in Hv.
    destruct (First_regular w Hreg) as (EF & HregF & VF).
    assert (MF : matching w (wildcard.ip (wildcard.First w)))
      by (apply matching_ip; auto; rewrite EF; reflexivity).
    destruct (matching_bound w _ Hreg MF) as (BF & LF & CF & WF).
    unfold wildcard.IP. apply (wild_value_inj (wildcard.mask w)); auto; congruence.
Qed.

Lemma Next_successor_witness :
  regular doc_wildcard /\
  exists w',
    wildcard.Next doc_wildcard = Some (w', wildcard.ip w') /\
    matching doc_wildcard (wildcard.ip w') /\
    ((exists x, matching doc_wildcard x /\ be_val (wildcard.ip doc_wildcard) < be_val x) ->
     be_val (wildcard.ip doc_wildcard) < be_val (wildcard.ip w') /\
     forall x, matching doc_wildcard x -> be_val (wildcard.ip doc_wildcard) < be_val x ->
               be_val (wildcard.ip w') <= be_val x) /\
    ((forall x, matching doc_wildcard x -> be_val x <= be_val (wildcard.ip doc_wildcard)) ->
     wildcard.ip w' = wildcard.IP (wildcard.First doc_wildcard)).
Proof.
  split; [exact doc_wildcard_regular|].
  exact (Next_successor doc_wildcard doc_wildcard_regular).
Defined.

(** X25. On a regular wildcard [Prev] moves to the next matching
    address in decreasing order: the address it returns matches, is the
    highest matching address below the current one when there is one,
    and is the address of [Last] when the current one is the lowest. *)
Theorem Prev_predecessor (w : wildcard.Wildcard) :
  regular w ->
  exists w' l,
    wildcard.Prev w = Some (w', wildcard.ip w') /\ wildcard.Last w = Some l /\
    matching w (wildcard.ip w') /\
    ((exists x, matching w x /\ be_val x < be_val (wildcard.ip w)) ->
     be_val (wildcard.ip w') < be_val (wildcard.ip w) /\
     forall x, matching w x -> be_val x < be_val (wildcard.ip w) ->
               be_val x <= be_val (wildcard.ip w')) /\
    ((forall x, matching w x -> be_val (wildcard.ip w) <= be_val x) ->
     wildcard.ip w' = wildcard.IP l).
Proof.
  intros Hreg. destruct (regular_care w Hreg) as (Hi & Hm & L & Hc).
  pose proof (wild_value_bound (wildcard.mask w) (wildcard.ip w) Hm Hi L) as W.
  destruct (Prev_regular w Hreg) as (w' & HP & Em & Eb & L' & Hreg' & Hv).
  destruct (Last_regular w Hreg) as (l & HL & Eml & Ebl & Hregl & Vl).
  assert (M' : matching w (wildcard.ip w')) by (apply matching_ip; auto).
  destruct (matching_bound w _ Hreg M') as (B' & Lm' & C' & W').
  exists w', l. split; [exact HP|]. split; [exact HL|]. split; [exact M'|]. split.
  - intros (x0 & Hx0 & Hlt0).
    destruct (matching_bound w x0 Hreg Hx0) as (Bx0 & Lx0 & Cx0 & Wx0).
    apply (wild_order (wildcard.mask w)) in Hlt0; auto.
    rewrite Z.mod_small in Hv by lia. split.
    + apply (wild_order (wildcard.mask w)); auto. lia.
    + intros x Hx Hlt. destruct (matching_bound w x Hreg Hx) as (Bx & Lx & Cx & Wx).
      apply (wild_order (wildcard.mask w)) in Hlt; auto.
      apply (wild_order_le (wildcard.mask w)); auto; [congruence | lia].
  - intros Hall.
    destruct (First_regular w Hreg) as (EF & HregF & VF).
    assert (MF : matching w (wildcard.ip (wildcard.First w)))
      by (apply matching_ip; auto; rewrite EF; reflexivity).
    destruct (matching_bound w _ Hreg MF) as (BF & LF & CF & WF).
    pose proof (Hall _ MF) as Hle.
    apply (wild_order_le (wildcard.mask w)) in Hle; auto.
    assert (Ml : matching w (wildcard.ip l)) by (apply matching_ip; auto).
    destruct (matching_bound w _ Hreg Ml) as (Bl & Ll & Cl & Wl).
    replace (wild_value (wildcard.mask w) (wildcard.ip w)) with 0 in Hv by lia.
    assert (Hlast : (0 - 1) mod 2 ^ Z.of_nat (dc_total (wildcard.mask w))
                    = wild_value (wildcard.mask w) (wildcard.ip l)).
    { symmetry. apply Z.mod_unique with (q := -1); [left; lia | lia]. }
    unfold wildcard.IP. apply (wild_value_inj (wildcard.mask w)); auto; congruence.
Qed.

Lemma Prev_predecessor_witness :
  regular doc_wildcard /\
  exists w' l,
    wildcard.Prev doc_wildcard = Some (w', wildcard.ip w') /\
    wildcard.Last doc_wildcard = Some l /\
    matching doc_wildcard (wildcard.ip w') /\
    ((exists x, matching doc_wildcard x /\ be_val x < be_val (wildcard.ip doc_wildcard)) ->
     be_val (wildcard.ip w') < be_val (wildcard.ip doc_wildcard) /\
     forall x, matching doc_wildcard x -> be_val x < be_val (wildcard.ip doc_wildcard) ->
               be_val x <= be_val (wildcard.ip w')) /\
    ((forall x, matching doc_wildcard x -> be_val (wildcard.ip doc_wildcard) <= be_val x) ->
     wildcard.ip w' = wildcard.IP l).
Proof.
  split; [exact doc_wildcard_regular|].
  exact (Prev_predecessor doc_wildcard doc_wildcard_regular).
Defined.

(** X26. For an IPv4 address and a wildcard mask of 4 bytes, [New]
    returns a wildcard that gives back the address and the wildcard
    mask, and that matches the 4-byte addresses that agree with the
    address on every bit the wildcard mask leaves at 0. *)
Theorem New_Matches_v4 (ip wc : list Z) :
  bytes ip -> bytes wc -> length ip = 4%nat -> length wc = 4%nat ->
  exists w,
    wildcard.New ip wc = Some w /\
    wildcard.IP w = ip /\ wildcard.WildcardMask w = wc /\
    forall x, bytes x -> length x = 4%nat ->
      wildcard.Matches w x
      = Some (bool_decide (zip_with Z.land x (map byte_not wc)
                           = zip_with Z.land ip (map byte_not wc))).
Proof.
  intros Hi Hwc Li Lwc.
  destruct (New_well_formed ip wc (canonical_4 ip Hi Li) Hwc ltac:(congruence)) as [HNew Hwf].
  { rewrite Li. discriminate. }
  eexists. split; [exact HNew|]. split; [reflexivity|]. split.
  - unfold wildcard.WildcardMask. cbn [wildcard.mask].
    rewrite Complement_map. apply map_not_involutive.
  - intros x Hx Lx.
    rewrite (regular_Matches _ (well_formed_4_regular _ Hwf Li) x (canonical_4 x Hx Lx))
      by (cbn [wildcard.ip]; congruence).
    reflexivity.
Qed.

Lemma New_Matches_v4_witness :
  bytes [192; 0; 2; 10] /\ bytes [0; 0; 255; 0] /\
  exists w,
    wildcard.New [192; 0; 2; 10] [0; 0; 255; 0] = Some w /\
    wildcard.IP w = [192; 0; 2; 10] /\ wildcard.WildcardMask w = [0; 0; 255; 0] /\
    forall x, bytes x -> length x = 4%nat ->
      wildcard.Matches w x
      = Some (bool_decide (zip_with Z.land x (map byte_not [0; 0; 255; 0])
                           = zip_with Z.land [192; 0; 2; 10] (map byte_not [0; 0; 255; 0]))).
Proof.
  assert (Hi : bytes [192; 0; 2; 10]) by (apply bytes_check; reflexivity).
  assert (Hw : bytes [0; 0; 255; 0]) by (apply bytes_check; reflexivity).
  split; [exact Hi|]. split; [exact Hw|].
  exact (New_Matches_v4 _ _ Hi Hw eq_refl eq_refl).
Defined.

(** ** [ParseIPMask]: the shapes of its results *)

Lemma CIDRMask_size (n : nat) (p : Z) :
  (n = 4 \/ n = 16)%nat ->
  CIDRMask p (Z.of_nat n * 8)
  = if (0 <=? p) && (p <=? 8 * Z.of_nat n) then CIDRMask_loop n p else [].
Proof.
  intros [-> | ->]; unfold CIDRMask.
  - change (Z.of_nat 4 * 8) with 32. change (8 * Z.of_nat 4) with 32.
    change (negb (32 =? 8 * Z.of_nat IPv4len)) with false. cbn [andb].
    destruct (Z.ltb_spec p 0), (Z.ltb_spec 32 p), (Z.leb_spec 0 p), (Z.leb_spec p 32);
      try lia; reflexivity.
  - change (Z.of_nat 16 * 8) with 128. change (8 * Z.of_nat 16) with 128.
    change (negb (128 =? 8 * Z.of_nat IPv6len)) with false. rewrite andb_false_r.
    destruct (Z.ltb_spec p 0), (Z.ltb_spec 128 p), (Z.leb_spec 0 p), (Z.leb_spec p 128);
      try lia; reflexivity.
Qed.

Lemma CIDRMask_loop_nonempty (n : nat) (p : Z) :
  (n = 4 \/ n = 16)%nat -> CIDRMask_loop n p <> [].
Proof.
  intros H. destruct n as [|n]; [lia|].
  cbn [CIDRMask_loop]. destruct (8 <=? p); discriminate.
Qed.

(** X27. On an input without ['/'], [ParseIPMask] returns the parsed
    address with a nil mask, or an "IP address" error carrying the
    whole input when it does not parse. *)
Theorem ParseIPMask_no_separator
    (ParseIP : string -> list Z) (Atoi : string -> option Z) (addr : string) :
  strings.Count addr "/" = 0%nat ->
  (ParseIP addr <> [] -> ParseIPMask ParseIP Atoi addr = Ok (ParseIP addr, [])) /\
  (ParseIP addr = [] ->
   ParseIPMask ParseIP Atoi addr = Error {| Type_ := "IP address"; Text := addr |}).
Proof.
  intros H. unfold ParseIPMask. rewrite (Split_no_sep "/" addr H).
  cbn [hd length Nat.ltb Nat.leb Nat.eqb]. split; intros Hip.
  - rewrite bool_decide_eq_false_2 by exact Hip. reflexivity.
  - rewrite bool_decide_eq_true_2 by exact Hip. reflexivity.
Qed.

Lemma ParseIPMask_no_separator_witness :
  strings.Count "192.0.2.10" "/" = 0%nat /\ text.ParseIP "192.0.2.10" <> [] /\
  ParseIPMask text.ParseIP text.Atoi "192.0.2.10" = Ok (text.ParseIP "192.0.2.10", []).
Proof.
  assert (H : strings.Count "192.0.2.10" "/" = 0%nat) by reflexivity.
  assert (Hip : text.ParseIP "192.0.2.10" <> []) by discriminate.
  split; [exact H|]. split; [exact Hip|].
  exact (proj1 (ParseIPMask_no_separator text.ParseIP text.Atoi "192.0.2.10" H) Hip).
Defined.

(** X28. Whenever [ParseIPMask] succeeds, the address is what
    [ParseIP] made of the text before the first ['/'] and is not nil,
    the input has at most one ['/'], and the mask is nil exactly when
    the input has none. *)
Theorem ParseIPMask_Ok_shape
    (ParseIP : string -> list Z) (Atoi : string -> option Z)
    (addr : string) (ip m : list Z) :
  ParseIPMask ParseIP Atoi addr = Ok (ip, m) ->
  ip = ParseIP (hd EmptyString (strings.Split addr "/")) /\ ip <> [] /\
  (strings.Count addr "/" <= 1)%nat /\
  (m = [] <-> strings.Count addr "/" = 0%nat).
Proof.
  unfold ParseIPMask. intros H.
  pose proof (Split_length "/" addr) as L.
  destruct (bool_decide _) eqn:E1 in H; [discriminate|].
  apply bool_decide_eq_false_1 in E1.
  destruct (2 <? _)%nat eqn:E2 in H; [discriminate|]. apply Nat.ltb_ge in E2.
  destruct (_ =? 2)%nat eqn:E3 in H.
  - apply Nat.eqb_eq in E3.
    destruct (bool_decide _) eqn:E4 in H; [discriminate|].
    apply bool_decide_eq_false_1 in E4. injection H as <- <-.
    split; [reflexivity|]. split; [exact E1|]. split; [lia|].
    split; [intros Hm; contradiction | intros Hc; lia].
  - apply Nat.eqb_neq in E3. injection H as <- <-.
    split; [reflexivity|]. split; [exact E1|]. split; [lia|].
    split; [intros _; lia | reflexivity].
Qed.

Lemma ParseIPMask_Ok_shape_witness :
  ParseIPMask text.ParseIP text.Atoi "192.0.2.10/24"
  = Ok (v4InV6Prefix ++ [192; 0; 2; 10], [255; 255; 255; 0]) /\
  v4InV6Prefix ++ [192; 0; 2; 10]
  = text.ParseIP (hd EmptyString (strings.Split "192.0.2.10/24" "/")) /\
  (strings.Count "192.0.2.10/24" "/" <= 1)%nat.
Proof.
  assert (H : ParseIPMask text.ParseIP text.Atoi "192.0.2.10/24"
              = Ok (v4InV6Prefix ++ [192; 0; 2; 10], [255; 255; 255; 0])) by reflexivity.
  split; [exact H|].
  destruct (ParseIPMask_Ok_shape text.ParseIP text.Atoi _ _ _ H) as (E & _ & C & _).
  split; [exact E | exact C].
Defined.

(** X29. With a mask given as a prefix length [p], [ParseIPMask]
    returns the mask of [p] leading one-bits over [IPSize] bytes of the
    address when [0 <= p <= 8 * IPSize], and a "Mask" error carrying
    the text of the prefix length otherwise. *)
Theorem ParseIPMask_prefix_length
    (ParseIP : string -> list Z) (Atoi : string -> option Z) (a spec : string) (p : Z) :
  strings.Count a "/" = 0%nat -> strings.Count spec "/" = 0%nat ->
  ParseIP a <> [] -> strings.HasPrefix spec "~" = false -> Atoi spec = Some p ->
  (0 <= p <= 8 * Z.of_nat (IPSize (ParseIP a)) ->
   ParseIPMask ParseIP Atoi (String.append a (String "/" spec))
   = Ok (ParseIP a, CIDRMask_loop (IPSize (ParseIP a)) p) /\
   length (CIDRMask_loop (IPSize (ParseIP a)) p) = IPSize (ParseIP a) /\
   bytes (CIDRMask_loop (IPSize (ParseIP a)) p)) /\
  (~ 0 <= p <= 8 * Z.of_nat (IPSize (ParseIP a)) ->
   ParseIPMask ParseIP Atoi (String.append a (String "/" spec))
   = Error {| Type_ := "Mask"; Text := spec |}).
Proof.
  intros Ha Hs Hip Hpre HA.
  rewrite (ParseIPMask_one_separator ParseIP Atoi a spec Ha Hs Hip). cbv zeta.
  rewrite Hpre, HA, (CIDRMask_size _ p (IPSize_pos (ParseIP a))).
  split; intros Hp.
  - destruct (Z.leb_spec 0 p); [|lia]. destruct (Z.leb_spec p (8 * Z.of_nat (IPSize (ParseIP a)))); [|lia].
    cbn [andb].
    rewrite bool_decide_eq_false_2 by (apply CIDRMask_loop_nonempty, IPSize_pos).
    split; [reflexivity|]. apply CIDRMask_loop_props. lia.
  - destruct (Z.leb_spec 0 p); cbn [andb]; [|reflexivity].
    destruct (Z.leb_spec p (8 * Z.of_nat (IPSize (ParseIP a)))); [lia|reflexivity].
Qed.

Lemma ParseIPMask_prefix_length_witness :
  strings.Count "192.0.2.10" "/" = 0%nat /\ strings.Count "24" "/" = 0%nat /\
  text.ParseIP "192.0.2.10" <> [] /\ strings.HasPrefix "24" "~" = false /\
  text.Atoi "24" = Some 24 /\ 0 <= 24 <= 8 * Z.of_nat (IPSize (text.ParseIP "192.0.2.10")) /\
  ParseIPMask text.ParseIP text.Atoi "192.0.2.10/24"
  = Ok (text.ParseIP "192.0.2.10", CIDRMask_loop (IPSize (text.ParseIP "192.0.2.10")) 24).
Proof.
  assert (Hip : text.ParseIP "192.0.2.10" <> []) by discriminate.
  assert (Hp : 0 <= 24 <= 8 * Z.of_nat (IPSize (text.ParseIP "192.0.2.10")))
    by (vm_compute; split; congruence).
  split; [reflexivity|]. split; [reflexivity|]. split; [exact Hip|].
  split; [reflexivity|]. split; [reflexivity|]. split; [exact Hp|].
  exact (proj1 (proj1 (ParseIPMask_prefix_length text.ParseIP text.Atoi "192.0.2.10" "24" 24
                         eq_refl eq_refl Hip eq_refl eq_refl) Hp)).
Defined.

Lemma IPSize_mapped (x : list Z) : length x = 4%nat -> IPSize (v4InV6Prefix ++ x) = 4%nat.
Proof.
  intros L. do 4 (destruct x as [|? x]; [discriminate L|]). destruct x; [|discriminate L].
  reflexivity.
Qed.

(** X30. When [ParseIP] returns an IPv4 address in the 16-byte
    IPv4-mapped form, as Go's does, [ParseIPMask] on ["a/p"] returns
    that 16-byte address with a 4-byte mask; [Broadcast] on the network
    made of the two returns the complement of the mask, whatever the
    address, where on the 4-byte form of the address it returns the
    address ORed with the complement of the mask. *)
Theorem ParseIPMask_Broadcast
    (ParseIP : string -> list Z) (Atoi : string -> option Z)
    (a spec : string) (p : Z) (x : list Z) :
  strings.Count a "/" = 0%nat -> strings.Count spec "/" = 0%nat ->
  ParseIP a = v4InV6Prefix ++ x -> bytes x -> length x = 4%nat ->
  strings.HasPrefix spec "~" = false -> Atoi spec = Some p -> 0 <= p <= 32 ->
  exists mask,
    ParseIPMask ParseIP Atoi (String.append a (String "/" spec))
    = Ok (v4InV6Prefix ++ x, mask) /\
    length mask = 4%nat /\
    Broadcast {| net.IP := v4InV6Prefix ++ x; net.Mask := mask |} = Some (Complement mask) /\
    Broadcast {| net.IP := x; net.Mask := mask |}
    = Some (zip_with Z.lor x (Complement mask)).
Proof.
  intros Ha Hs HP Hx Lx Hpre HA Hp.
  assert (Hip : ParseIP a <> []) by (rewrite HP; discriminate).
  assert (Hsz : IPSize (ParseIP a) = 4%nat) by (rewrite HP; apply IPSize_mapped, Lx).
  destruct (CIDRMask_loop_props 4 p ltac:(lia)) as [Lm Bm].
  exists (CIDRMask_loop 4 p).
  split; [|split; [exact Lm|split]].
  - rewrite (ParseIPMask_one_separator ParseIP Atoi a spec Ha Hs Hip). cbv zeta.
    rewrite Hpre, HA, Hsz, (CIDRMask_size 4 p ltac:(left; reflexivity)).
    destruct (Z.leb_spec 0 p); [|lia]. destruct (Z.leb_spec p (8 * Z.of_nat 4)); [|cbn in *; lia].
    cbn [andb].
    rewrite bool_decide_eq_false_2 by (apply CIDRMask_loop_nonempty; left; reflexivity).
    rewrite HP. reflexivity.
  - set (m := CIDRMask_loop 4 p) in *.
    do 4 (destruct x as [|? x]; [discriminate Lx|]). destruct x; [|discriminate Lx].
    do 4 (destruct m as [|? m]; [discriminate Lm|]). destruct m; [|discriminate Lm].
    reflexivity.
  - rewrite Complement_map. apply Broadcast_canonical; [apply canonical_4; assumption | congruence].
Qed.

Lemma ParseIPMask_Broadcast_witness :
  text.ParseIP "192.0.2.10" = v4InV6Prefix ++ [192; 0; 2; 10] /\ bytes [192; 0; 2; 10] /\
  text.Atoi "24" = Some 24 /\
  exists mask,
    ParseIPMask text.ParseIP text.Atoi "192.0.2.10/24"
    = Ok (v4InV6Prefix ++ [192; 0; 2; 10], mask) /\
    length mask = 4%nat /\
    Broadcast {| net.IP := v4InV6Prefix ++ [192; 0; 2; 10]; net.Mask := mask |}
    = Some (Complement mask) /\
    Broadcast {| net.IP := [192; 0; 2; 10]; net.Mask := mask |}
    = Some (zip_with Z.lor [192; 0; 2; 10] (Complement mask)).
Proof.
  assert (Hx : bytes [192; 0; 2; 10]) by (apply bytes_check; reflexivity).
  split; [reflexivity|]. split; [exact Hx|]. split; [reflexivity|].
  exact (ParseIPMask_Broadcast text.ParseIP text.Atoi "192.0.2.10" "24" 24 [192; 0; 2; 10]
           eq_refl eq_refl eq_refl Hx eq_refl eq_refl eq_refl ltac:(lia)).
Defined.
